(** * Verification of the [sync] toolkit: errgroup, singleflight, semaphore

    The three packages are embedded as transition systems.  Every critical
    section of the Go code (the region between [mu.Lock] and [mu.Unlock], a
    [sync.Once] body, a [WaitGroup] operation) is one executable function on
    the shared state; a goroutine is a program counter that walks from one
    critical section to the next; a schedule is a list of events and [run]
    executes it.  Properties of the concurrent code are invariants of every
    state a schedule can reach. *)

From Stdlib Require Import ZArith Lia String.
From stdpp Require Import base option list gmap strings.

(** ** Errgroup: [src/errgroup/errgroup.go], lines 1-71 *)

Module ErrGroup.

(** An [error] value; Go's [nil] error is [None]. *)
Definition error := string.

(** [type Group struct { cancel func(); wg sync.WaitGroup; errOnce sync.Once;
    err error }].  [cancel] records whether the function is non-nil,
    [ctxDone] whether the context derived in [WithContext] has been
    cancelled, [wg] is the counter of the wait group and [errOnce] the done
    flag of the [sync.Once]. *)
Record Group := mkGroup {
  cancel : bool;
  ctxDone : bool;
  wg : nat;
  errOnce : bool;
  err : option error
}.

(** [WithContext] returns [&Group{cancel: cancel}]; the zero [Group] has no
    cancel function. *)
Definition WithContext : Group := mkGroup true false 0 false None.
Definition zeroGroup : Group := mkGroup false false 0 false None.

(** [if g.cancel != nil { g.cancel() }] *)
Definition call_cancel (g : Group) : Group :=
  mkGroup (cancel g) (cancel g || ctxDone g) (wg g) (errOnce g) (err g).

(** [g.wg.Add(1)] *)
Definition wg_Add (g : Group) : Group :=
  mkGroup (cancel g) (ctxDone g) (S (wg g)) (errOnce g) (err g).

(** [g.wg.Done()]; a negative counter panics ([None]). *)
Definition wg_Done (g : Group) : option Group :=
  match wg g with
  | O => None
  | S k => Some (mkGroup (cancel g) (ctxDone g) k (errOnce g) (err g))
  end.

(** [g.errOnce.Do(func() { g.err = err; if g.cancel != nil { g.cancel() } })]:
    the body runs on the first call only. *)
Definition errOnce_Do (e : error) (g : Group) : Group :=
  if errOnce g then g
  else call_cancel (mkGroup (cancel g) (ctxDone g) (wg g) true (Some e)).

(** [if err := f(); err != nil { g.errOnce.Do(...) }] with [r] the value
    returned by [f]. *)
Definition report (r : option error) (g : Group) : Group :=
  match r with
  | None => g
  | Some e => errOnce_Do e g
  end.

(** [Wait]: [g.wg.Wait()] lets the caller through only when the counter is
    zero ([None]: still blocked); then the context is cancelled and [g.err]
    returned. *)
Definition Wait (g : Group) : option (Group * option error) :=
  match wg g with
  | O => Some (call_cancel g, err g)
  | S _ => None
  end.

(** The goroutine started by [Go], by program point: [f] is running; [f] has
    returned [r]; the [if] statement is behind it and the deferred
    [g.wg.Done()] is pending; the goroutine is gone. *)
Inductive task_pc :=
  | Running
  | Returned (r : option error)
  | Reported (r : option error)
  | Exited (r : option error).

(** The owner of the group calls [Go] [k] more times and then [Wait]. *)
Inductive main_pc :=
  | Spawning (k : nat)
  | Joined (ret : option error).

(** [gate_log] is a history variable: the tasks that entered
    [g.errOnce.Do], with their errors, in the order they entered. *)
Record config := mkConfig {
  grp : Group;
  main : main_pc;
  tasks : list task_pc;
  gate_log : list (nat * error)
}.

Inductive event :=
  | EvGo                                  (* main: g.Go(f) *)
  | EvReturn (i : nat) (r : option error) (* task i: f returns r *)
  | EvReport (i : nat)                    (* task i: the if statement *)
  | EvDone (i : nat)                      (* task i: deferred g.wg.Done() *)
  | EvWait.                               (* main: g.Wait() returns *)

Definition log_report (i : nat) (r : option error) (l : list (nat * error)) :=
  match r with
  | None => l
  | Some e => l ++ [(i, e)]
  end.

Definition exec (ev : event) (c : config) : option config :=
  match ev with
  | EvGo =>
      match main c with
      | Spawning (S k) =>
          Some (mkConfig (wg_Add (grp c)) (Spawning k) (tasks c ++ [Running]) (gate_log c))
      | _ => None
      end
  | EvReturn i r =>
      match tasks c !! i with
      | Some Running =>
          Some (mkConfig (grp c) (main c) (<[i := Returned r]> (tasks c)) (gate_log c))
      | _ => None
      end
  | EvReport i =>
      match tasks c !! i with
      | Some (Returned r) =>
          Some (mkConfig (report r (grp c)) (main c) (<[i := Reported r]> (tasks c))
                  (log_report i r (gate_log c)))
      | _ => None
      end
  | EvDone i =>
      match tasks c !! i with
      | Some (Reported r) =>
          g ← wg_Done (grp c);
          Some (mkConfig g (main c) (<[i := Exited r]> (tasks c)) (gate_log c))
      | _ => None
      end
  | EvWait =>
      match main c with
      | Spawning O =>
          '(g, ret) ← Wait (grp c);
          Some (mkConfig g (Joined ret) (tasks c) (gate_log c))
      | _ => None
      end
  end.

Fixpoint run (evs : list event) (c : config) : option config :=
  match evs with
  | [] => Some c
  | ev :: evs' => c' ← exec ev c; run evs' c'
  end.

(** A group (with or without a cancel function) whose owner is about to
    start [n] tasks. *)
Definition init (withCancel : bool) (n : nat) : config :=
  mkConfig (if withCancel then WithContext else zeroGroup) (Spawning n) [] [].

Definition reachable (c0 c : config) : Prop := ∃ evs, run evs c0 = Some c.

(** The error a task has carried through the gate, if it is past it. *)
Definition gated (t : task_pc) : option error :=
  match t with
  | Reported r | Exited r => r
  | _ => None
  end.

Definition live (t : task_pc) : bool :=
  match t with
  | Exited _ => false
  | _ => true
  end.

Fixpoint count_live (l : list task_pc) : nat :=
  match l with
  | [] => 0
  | t :: l' => (if live t then 1 else 0) + count_live l'
  end.

(** The schedule that starts [length rs] tasks and lets them finish one
    after the other, task [i] returning [rs !! i]. *)
Fixpoint finish_from (i : nat) (rs : list (option error)) : list event :=
  match rs with
  | [] => []
  | r :: rs' => EvReturn i r :: EvReport i :: EvDone i :: finish_from (S i) rs'
  end.

Definition sequential (rs : list (option error)) : list event :=
  replicate (length rs) EvGo ++ finish_from 0 rs ++ [EvWait].

(** What holds in every state of a group started by [init _ n]. *)
Record inv (n : nat) (c : config) : Prop := mkInv {
  inv_err : err (grp c) = snd <$> head (gate_log c);
  inv_once : errOnce (grp c) = true ↔ gate_log c ≠ [];
  inv_log : ∀ i e, (i, e) ∈ gate_log c ↔ ∃ t, tasks c !! i = Some t ∧ gated t = Some e;
  inv_nodup : NoDup (fst <$> gate_log c);
  inv_wg : wg (grp c) = count_live (tasks c);
  inv_main : ∀ ret, main c = Joined ret → ret = err (grp c) ∧ wg (grp c) = 0;
  inv_tasks : match main c with
              | Spawning k => length (tasks c) + k = n
              | Joined _ => length (tasks c) = n
              end
}.

(** *** Cancellation and termination *)

(** Whether [Wait] has returned to the owner of the group. *)
Definition joined (p : main_pc) : bool :=
  match p with
  | Joined _ => true
  | Spawning _ => false
  end.

(** The calls of [Go] the owner still has to make. *)
Definition todo (p : main_pc) : nat :=
  match p with
  | Spawning k => k
  | Joined _ => 0
  end.

(** What [WithContext] and the zero [Group] keep true: the cancel function
    is there or not for good, and the context is done exactly when the body
    of [g.errOnce.Do] has run or [Wait] has returned. *)
Definition cancel_inv (withCancel : bool) (c : config) : Prop :=
  cancel (grp c) = withCancel
  ∧ ctxDone (grp c) = withCancel && (errOnce (grp c) || joined (main c)).

(** The steps that are left to the goroutine of a task, its function
    returning [nil] if it is still running, and where they lead. *)
Definition finish_task (i : nat) (t : task_pc) : list event :=
  match t with
  | Running => [EvReturn i None; EvReport i; EvDone i]
  | Returned _ => [EvReport i; EvDone i]
  | Reported _ => [EvDone i]
  | Exited _ => []
  end.

Definition final (t : task_pc) : task_pc :=
  match t with
  | Running => Exited None
  | Returned r | Reported r | Exited r => Exited r
  end.

Fixpoint finish_tasks (i : nat) (ts : list task_pc) : list event :=
  match ts with
  | [] => []
  | t :: ts' => finish_task i t ++ finish_tasks (S i) ts'
  end.

(** A schedule that ends the group from the state [c]: the owner makes its
    remaining calls of [Go], the goroutines finish one after the other, and
    the owner calls [Wait]. *)
Definition drain (c : config) : list event :=
  replicate (todo (main c)) EvGo
  ++ finish_tasks 0 (tasks c ++ replicate (todo (main c)) Running)
  ++ [EvWait].

(** *** The invariant and the result of [Wait] *)

Lemma count_live_app (l1 l2 : list task_pc) :
  count_live (l1 ++ l2) = count_live l1 + count_live l2.
Proof. induction l1 as [|t l1 IH]; simpl; [done | rewrite IH; lia]. Qed.

Lemma count_live_insert (l : list task_pc) (i : nat) (t t' : task_pc) :
  l !! i = Some t →
  count_live (<[i := t']> l) + (if live t then 1 else 0)
  = count_live l + (if live t' then 1 else 0).
Proof.
  revert i; induction l as [|a l IH]; intros [|i] Hi; simplify_eq/=.
  - lia.
  - specialize (IH _ Hi). lia.
Qed.

Lemma count_live_zero (l : list task_pc) :
  count_live l = 0 → ∀ t, t ∈ l → ∃ r, t = Exited r.
Proof.
  induction l as [|a l IH]; simpl; intros H0 t Ht.
  - by apply elem_of_nil in Ht.
  - apply elem_of_cons in Ht as [->|Ht].
    + destruct a; simpl in H0; try lia; eauto.
    + apply IH; [lia | done].
Qed.

Lemma run_app (evs1 evs2 : list event) (c : config) :
  run (evs1 ++ evs2) c = run evs1 c ≫= run evs2.
Proof.
  revert c; induction evs1 as [|ev evs1 IH]; intros c; simpl; [done|].
  destruct (exec ev c); simpl; [apply IH | done].
Qed.

Lemma group_inv_init (withCancel : bool) (n : nat) : inv n (init withCancel n).
Proof.
  split; simpl.
  - by destruct withCancel.
  - destruct withCancel; simpl; split; done.
  - intros i e; split; [intros H; by apply elem_of_nil in H|].
    intros (t & Ht & _). by rewrite lookup_nil in Ht.
  - constructor.
  - by destruct withCancel.
  - done.
  - done.
Qed.

Lemma count_live_pos (l : list task_pc) (i : nat) (t : task_pc) :
  l !! i = Some t → live t = true → 0 < count_live l.
Proof.
  revert i; induction l as [|a l IH]; intros [|i] Hi Hl; simplify_eq/=.
  - rewrite Hl. lia.
  - specialize (IH _ Hi Hl). lia.
Qed.

(** Replacing task [i] by one that carries the same error through the gate
    leaves the gated tasks as they were. *)
Lemma gated_insert (l : list task_pc) (i : nat) (t t' : task_pc) :
  l !! i = Some t → gated t' = gated t →
  ∀ j e, (∃ u, <[i := t']> l !! j = Some u ∧ gated u = Some e)
         ↔ (∃ u, l !! j = Some u ∧ gated u = Some e).
Proof.
  intros Hi Hg j e. destruct (decide (i = j)) as [->|Hne].
  - rewrite list_lookup_insert_eq by (by eapply lookup_lt_Some).
    split; intros (u & Hu & He); simplify_eq; eexists; split; eauto; congruence.
  - by rewrite list_lookup_insert_ne.
Qed.

Lemma group_inv_exec (n : nat) (ev : event) (c c' : config) :
  inv n c → exec ev c = Some c' → inv n c'.
Proof.
  intros [Herr Honce Hlog Hnd Hwg Hmain Htasks] Hex.
  destruct ev as [|i r|i|i|]; simpl in Hex.
  - (* Go *)
    destruct (main c) as [[|k]|] eqn:Hm; simplify_eq.
    split; simpl; try done.
    + intros i e. rewrite Hlog. split; intros (t & Ht & He).
      * exists t. split; [by apply lookup_app_l_Some | done].
      * apply lookup_app_Some in Ht as [Ht|[_ Ht]]; [eauto|].
        apply list_lookup_singleton_Some in Ht as [_ <-]. done.
    + rewrite count_live_app. simpl. lia.
    + rewrite length_app. simpl. lia.
  - (* f returns *)
    destruct (tasks c !! i) as [[]|] eqn:Hi; simplify_eq.
    split; simpl; try done.
    + intros j e. rewrite Hlog. symmetry. by eapply gated_insert.
    + pose proof (count_live_insert _ _ _ (Returned r) Hi) as Hc. simpl in Hc. lia.
    + destruct (main c); [|by rewrite length_insert]. by rewrite length_insert.
  - (* the gate *)
    destruct (tasks c !! i) as [[| r | |]|] eqn:Hi; simplify_eq.
    assert (Hlive : 0 < wg (grp c)).
    { rewrite Hwg. by eapply count_live_pos. }
    assert (Hfresh : ∀ e, (i, e) ∉ gate_log c).
    { intros e He. apply Hlog in He as (t & Ht & Hg). simplify_eq. }
    assert (Hcount : count_live (<[i := Reported r]> (tasks c)) = count_live (tasks c)).
    { pose proof (count_live_insert _ _ _ (Reported r) Hi) as Hc. simpl in Hc. lia. }
    destruct r as [e|]; simpl.
    + unfold errOnce_Do. destruct (errOnce (grp c)) eqn:Ho.
      * split; simpl; try done.
        -- rewrite Herr. destruct (gate_log c); [|done].
           destruct Honce as [Honce _]. by destruct Honce.
        -- rewrite Ho. split; [|done]. intros _. by destruct (gate_log c).
        -- intros j e'. rewrite elem_of_app, list_elem_of_singleton, Hlog.
           destruct (decide (i = j)) as [->|Hne].
           ++ rewrite list_lookup_insert_eq by (by eapply lookup_lt_Some).
              split.
              ** intros [(t & Ht & Hg)|Heq]; simplify_eq. eexists; split; eauto.
              ** intros (t & Ht & Hg); simplify_eq/=. by right.
           ++ rewrite list_lookup_insert_ne by done.
              split; [intros [H|H]; [done|congruence] | by left].
        -- rewrite fmap_app. simpl. apply NoDup_app. split; [done|].
           split; [|apply NoDup_singleton].
           intros j Hj Hj'. apply list_elem_of_singleton in Hj' as ->.
           apply list_elem_of_fmap in Hj as ([j e'] & -> & Hin). by eapply Hfresh.
        -- by rewrite Hcount.
        -- destruct (main c); by rewrite length_insert.
      * assert (Hnil : gate_log c = []).
        { destruct (gate_log c) eqn:Hl; [done|]. destruct Honce as [_ Honce].
          assert (false = true) by (by apply Honce). done. }
        split; simpl; try done.
        -- by rewrite Hnil.
        -- split; [|done]. intros _. by destruct (gate_log c).
        -- intros j e'. rewrite elem_of_app, list_elem_of_singleton, Hlog.
           destruct (decide (i = j)) as [->|Hne].
           ++ rewrite list_lookup_insert_eq by (by eapply lookup_lt_Some).
              split.
              ** intros [(t & Ht & Hg)|Heq]; simplify_eq. eexists; split; eauto.
              ** intros (t & Ht & Hg); simplify_eq/=. by right.
           ++ rewrite list_lookup_insert_ne by done.
              split; [intros [H|H]; [done|congruence] | by left].
        -- rewrite Hnil. simpl. apply NoDup_singleton.
        -- by rewrite Hcount.
        -- intros ret Hr. destruct (Hmain ret Hr). lia.
        -- destruct (main c); by rewrite length_insert.
    + split; simpl; try done.
      * intros j e. rewrite Hlog. symmetry. by eapply gated_insert.
      * by rewrite Hcount.
      * destruct (main c); by rewrite length_insert.
  - (* Done *)
    destruct (tasks c !! i) as [[| | r |]|] eqn:Hi; simplify_eq.
    unfold wg_Done in Hex. destruct (wg (grp c)) as [|k] eqn:Hk; simplify_eq/=.
    split; simpl; try done.
    + intros j e. rewrite Hlog. symmetry. by eapply gated_insert.
    + pose proof (count_live_insert _ _ _ (Exited r) Hi) as Hc. simpl in Hc. lia.
    + intros ret Hr. destruct (Hmain ret Hr). lia.
    + destruct (main c); by rewrite length_insert.
  - (* Wait *)
    destruct (main c) as [[|k]|] eqn:Hm; simplify_eq.
    unfold Wait in Hex. destruct (wg (grp c)) eqn:Hk; simplify_eq/=.
    split; simpl; try done.
    + congruence.
    + by intros ret [= <-].
Qed.

Lemma group_inv_reachable (withCancel : bool) (n : nat) (c : config) :
  reachable (init withCancel n) c → inv n c.
Proof.
  intros [evs Hevs]. revert Hevs. generalize (group_inv_init withCancel n).
  generalize (init withCancel n). induction evs as [|ev evs IH]; intros c0 H0 Hr.
  - by simplify_eq/=.
  - simpl in Hr. destruct (exec ev c0) as [c1|] eqn:Hex; [|done].
    eapply IH; [|exact Hr]. by eapply group_inv_exec.
Qed.

Lemma insert_middle (pre post : list task_pc) (t t' : task_pc) :
  <[length pre := t']> (pre ++ t :: post) = pre ++ t' :: post.
Proof.
  replace (length pre) with (length pre + 0)%nat by lia.
  by rewrite insert_app_r.
Qed.

Lemma run_Go (k j : nat) (c : config) :
  main c = Spawning (k + j) →
  ∃ c', run (replicate k EvGo) c = Some c' ∧ main c' = Spawning j
        ∧ tasks c' = tasks c ++ replicate k Running
        ∧ wg (grp c') = wg (grp c) + k ∧ err (grp c') = err (grp c)
        ∧ gate_log c' = gate_log c.
Proof.
  revert c; induction k as [|k IH]; intros c Hm; simpl.
  - exists c. rewrite app_nil_r. repeat split; [done | lia].
  - simpl in Hm. rewrite Hm. simpl.
    edestruct (IH (mkConfig (wg_Add (grp c)) (Spawning (k + j))
                     (tasks c ++ [Running]) (gate_log c)))
      as (c' & Hrun & Hm' & Ht & Hw & He & Hl); [done|].
    exists c'. simpl in *. rewrite Hrun, Hm', Ht, Hw, He, Hl, <- app_assoc.
    repeat split; lia.
Qed.

Lemma wg_report (r : option error) (g : Group) : wg (report r g) = wg g.
Proof. destruct r; simpl; [|done]. unfold errOnce_Do. by destruct (errOnce g). Qed.

Lemma run_finish (rs : list (option error)) (pre : list task_pc) (w : nat) (c : config) :
  tasks c = pre ++ replicate (length rs) Running →
  wg (grp c) = w + length rs →
  ∃ c', run (finish_from (length pre) rs) c = Some c' ∧ main c' = main c
        ∧ tasks c' = pre ++ (Exited <$> rs) ∧ wg (grp c') = w.
Proof.
  revert pre c; induction rs as [|r rs IH]; intros pre c Ht Hw; simpl in *.
  - exists c. repeat split; [done | lia].
  - rewrite Ht, list_lookup_middle by done. simpl.
    rewrite insert_middle, list_lookup_middle by done. simpl.
    rewrite insert_middle, list_lookup_middle by done. simpl.
    unfold wg_Done. rewrite wg_report, Hw.
    replace (w + S (length rs)) with (S (w + length rs)) by lia. simpl.
    rewrite insert_middle.
    match goal with
    | |- ∃ c', run _ ?c0 = _ ∧ _ =>
        destruct (IH (pre ++ [Exited r]) c0) as (c' & Hrun & Hm & Ht' & Hw');
          [..|exists c']
    end.
    + simpl. by rewrite <- app_assoc.
    + done.
    + rewrite length_app in Hrun. simpl in Hrun.
      replace (length pre + 1) with (S (length pre)) in Hrun by lia.
      rewrite <- app_assoc in Ht'. done.
Qed.

(** [Wait] does return: whatever the tasks return, the schedule
    [sequential rs] runs them all and lets [Wait] through. *)
Lemma Wait_reachable (withCancel : bool) (rs : list (option error)) :
  ∃ c ret, run (sequential rs) (init withCancel (length rs)) = Some c
           ∧ main c = Joined ret ∧ tasks c = Exited <$> rs.
Proof.
  unfold sequential.
  destruct (run_Go (length rs) 0 (init withCancel (length rs)))
    as (c1 & Hrun1 & Hm1 & Ht1 & Hw1 & _); [simpl; f_equal; lia|].
  destruct (run_finish rs [] 0 c1) as (c2 & Hrun2 & Hm2 & Ht2 & Hw2).
  { by rewrite Ht1. }
  { rewrite Hw1. by destruct withCancel. }
  rewrite run_app, Hrun1. simpl. rewrite run_app. simpl in Hrun2.
  rewrite Hrun2. simpl. rewrite Hm2, Hm1. unfold Wait. rewrite Hw2. simpl.
  eexists _, _. repeat split. simpl. by rewrite Ht2.
Qed.

Lemma err_stable (n : nat) (ev : event) (c c' : config) (e : error) :
  inv n c → exec ev c = Some c' → err (grp c) = Some e → err (grp c') = Some e.
Proof.
  intros Hinv Hex He.
  assert (Ho : errOnce (grp c) = true).
  { apply (inv_once _ _ Hinv). rewrite (inv_err _ _ Hinv) in He.
    by destruct (gate_log c). }
  destruct ev as [|i r|i|i|]; simpl in Hex.
  - destruct (main c) as [[|k]|]; simplify_eq/=; done.
  - destruct (tasks c !! i) as [[]|]; simplify_eq/=; done.
  - destruct (tasks c !! i) as [[|r| |]|]; simplify_eq. simpl.
    destruct r; simpl; [|done]. unfold errOnce_Do. by rewrite Ho.
  - destruct (tasks c !! i) as [[]|]; simplify_eq.
    unfold wg_Done in Hex. destruct (wg (grp c)); simplify_eq/=; done.
  - destruct (main c) as [[|k]|]; simplify_eq.
    unfold Wait in Hex. destruct (wg (grp c)); simplify_eq/=; done.
Qed.

(** C1. A group whose owner starts [n] tasks and then calls [Wait].  [Wait]
    does return, whatever the tasks return.  A task completes with an error
    when it carries the error into [g.errOnce.Do]; [gate_log] lists the
    tasks that did, in that order.  In every reachable state the error slot
    holds the error of the first of them, and once set it never changes.
    When [Wait] has returned, in whatever order the tasks finished, all [n]
    tasks have run to completion and the value returned is the error of the
    first task in [gate_log]: it is [E] when exactly one task failed, with
    [E], whichever task that is, and [nil] when no task failed. *)
Theorem Wait_returns_first_error (withCancel : bool) (n : nat) :
  (∀ rs, length rs = n →
     ∃ c ret, reachable (init withCancel n) c ∧ main c = Joined ret
              ∧ tasks c = Exited <$> rs)
  ∧ (∀ c, reachable (init withCancel n) c →
       err (grp c) = snd <$> head (gate_log c))
  ∧ (∀ c ev c' e, reachable (init withCancel n) c → exec ev c = Some c' →
       err (grp c) = Some e → err (grp c') = Some e)
  ∧ (∀ c ret, reachable (init withCancel n) c → main c = Joined ret →
       length (tasks c) = n
       ∧ (∀ i, i < n → ∃ r, tasks c !! i = Some (Exited r))
       ∧ ret = snd <$> head (gate_log c)
       ∧ NoDup (fst <$> gate_log c)
       ∧ (∀ i e, (i, e) ∈ gate_log c ↔ tasks c !! i = Some (Exited (Some e)))
       ∧ (∀ i E, tasks c !! i = Some (Exited (Some E)) →
            (∀ j r, j ≠ i → tasks c !! j = Some (Exited r) → r = None) →
            ret = Some E)
       ∧ ((∀ j r, tasks c !! j = Some (Exited r) → r = None) → ret = None)).
Proof.
  split; [|split; [|split]].
  - intros rs <-. destruct (Wait_reachable withCancel rs) as (c & ret & Hrun & Hm & Ht).
    exists c, ret. split; [by exists (sequential rs) | done].
  - intros c Hc. apply (inv_err n), (group_inv_reachable withCancel), Hc.
  - intros c ev c' e Hc. apply err_stable with n. by eapply group_inv_reachable.
  - intros c ret Hc Hm. pose proof (group_inv_reachable _ _ _ Hc) as Hinv.
    destruct (inv_main _ _ Hinv _ Hm) as [-> Hw].
    pose proof (inv_tasks _ _ Hinv) as Hlen. rewrite Hm in Hlen.
    assert (Hall : ∀ i t, tasks c !! i = Some t → ∃ r, t = Exited r).
    { intros i t Ht. eapply count_live_zero; [|by eapply list_elem_of_lookup_2].
      by rewrite <- (inv_wg _ _ Hinv). }
    assert (Hlog : ∀ i e, (i, e) ∈ gate_log c ↔ tasks c !! i = Some (Exited (Some e))).
    { intros i e. rewrite (inv_log _ _ Hinv). split.
      - intros (t & Ht & Hg). destruct (Hall _ _ Ht) as [r ->]. simpl in Hg. by subst.
      - intros Ht. by exists (Exited (Some e)). }
    split; [done|]. split.
    { intros i Hi. destruct (lookup_lt_is_Some_2 (tasks c) i) as [t Ht]; [lia|].
      destruct (Hall _ _ Ht) as [r ->]. eauto. }
    split; [apply (inv_err _ _ Hinv)|]. split; [apply (inv_nodup _ _ Hinv)|].
    split; [done|]. rewrite (inv_err _ _ Hinv). split.
    + intros i E Hi Hothers. apply Hlog in Hi.
      destruct (gate_log c) as [|[j e] l]; [by apply elem_of_nil in Hi|]. simpl.
      assert (Hj : tasks c !! j = Some (Exited (Some e))) by (apply Hlog; left).
      destruct (decide (j = i)) as [->|Hne].
      * apply Hlog in Hi. congruence.
      * by specialize (Hothers _ _ Hne Hj).
    + intros Hnone. destruct (gate_log c) as [|[j e] l]; [done|].
      assert (Hj : tasks c !! j = Some (Exited (Some e))) by (apply Hlog; left).
      by specialize (Hnone _ _ Hj).
Qed.

(** Three tasks, the second and the third fail.  When the third goes
    through the gate first, its error is the one [Wait] returns; when the
    second does, the second's. *)
Example Wait_first_to_gate_wins :
  (main <$> run [EvGo; EvGo; EvGo;
                 EvReturn 2 (Some "e2"%string); EvReport 2;
                 EvReturn 1 (Some "e1"%string); EvReport 1;
                 EvReturn 0 None; EvReport 0;
                 EvDone 0; EvDone 1; EvDone 2; EvWait] (init true 3))
  = Some (Joined (Some "e2"%string))
  ∧ (main <$> run [EvGo; EvGo; EvGo;
                   EvReturn 1 (Some "e1"%string); EvReport 1;
                   EvReturn 2 (Some "e2"%string); EvReport 2;
                   EvReturn 0 None; EvReport 0;
                   EvDone 0; EvDone 1; EvDone 2; EvWait] (init true 3))
    = Some (Joined (Some "e1"%string)).
Proof. split; reflexivity. Qed.

(** *** Cancellation of the context, the wait group, and termination *)

Lemma cancel_inv_exec (withCancel : bool) (ev : event) (c c' : config) :
  cancel_inv withCancel c → exec ev c = Some c' → cancel_inv withCancel c'.
Proof.
  intros [Hc Hd] Hex. destruct ev as [|i r|i|i|]; simpl in Hex.
  - destruct (main c) as [[|k]|] eqn:Hm; [done| |done].
    injection Hex as <-. by split.
  - destruct (tasks c !! i) as [[]|]; try done. injection Hex as <-. by split.
  - destruct (tasks c !! i) as [[|r| |]|]; try done. injection Hex as <-.
    destruct r as [e|]; [|by split]. unfold cancel_inv. simpl. unfold errOnce_Do.
    destruct (errOnce (grp c)) eqn:Ho; simpl.
    + by rewrite Hc, Hd, Ho.
    + rewrite Hc. by destruct withCancel.
  - destruct (tasks c !! i) as [[]|]; try done.
    unfold wg_Done in Hex. destruct (wg (grp c)); [done|]. injection Hex as <-. by split.
  - destruct (main c) as [[|k]|] eqn:Hm; try done.
    unfold Wait in Hex. destruct (wg (grp c)); [|done]. injection Hex as <-.
    unfold cancel_inv. simpl. rewrite Hc, Hd.
    destruct withCancel, (errOnce (grp c)); done.
Qed.

Lemma cancel_inv_reachable (withCancel : bool) (n : nat) (c : config) :
  reachable (init withCancel n) c → cancel_inv withCancel c.
Proof.
  intros [evs Hevs]. revert Hevs.
  assert (H0 : cancel_inv withCancel (init withCancel n)) by (by destruct withCancel).
  revert H0. generalize (init withCancel n).
  induction evs as [|ev evs IH]; intros c0 H0 Hr.
  - by simplify_eq/=.
  - simpl in Hr. destruct (exec ev c0) as [c1|] eqn:Hex; [|done].
    eapply IH; [|exact Hr]. by eapply cancel_inv_exec.
Qed.

Lemma count_live_ex (l : list task_pc) :
  0 < count_live l → ∃ i t, l !! i = Some t ∧ live t = true.
Proof.
  induction l as [|a l IH]; simpl; [lia|]. intros Hpos.
  destruct (live a) eqn:Ha.
  - by exists 0, a.
  - destruct IH as (i & t & Hi & Ht); [lia|]. by exists (S i), t.
Qed.

Lemma count_live_replicate (k : nat) : count_live (replicate k Running) = k.
Proof. induction k as [|k IH]; simpl; [done | by rewrite IH]. Qed.

(** From any point of its body the goroutine of a task runs to its end. *)
Lemma run_finish_tasks (ts pre : list task_pc) (w : nat) (c : config) :
  tasks c = pre ++ ts → wg (grp c) = w + count_live ts →
  ∃ c', run (finish_tasks (length pre) ts) c = Some c' ∧ main c' = main c
        ∧ tasks c' = pre ++ (final <$> ts) ∧ wg (grp c') = w.
Proof.
  revert pre c; induction ts as [|t ts IH]; intros pre c Ht Hw; simpl in *.
  - exists c. rewrite app_nil_r in *. repeat split; [done | lia].
  - assert (Hnext : ∀ c1 : config, main c1 = main c → tasks c1 = pre ++ final t :: ts →
              wg (grp c1) = w + count_live ts →
              ∃ c', run (finish_tasks (S (length pre)) ts) c1 = Some c' ∧ main c' = main c
                    ∧ tasks c' = pre ++ final t :: (final <$> ts) ∧ wg (grp c') = w).
    { intros c1 Hm1 Ht1 Hw1.
      destruct (IH (pre ++ [final t]) c1) as (c' & Hrun & Hm & Ht' & Hw').
      - by rewrite <- app_assoc.
      - done.
      - exists c'. rewrite length_app in Hrun. simpl in Hrun.
        replace (length pre + 1) with (S (length pre)) in Hrun by lia.
        rewrite <- app_assoc in Ht'. split; [done|]. split; [congruence|]. done. }
    rewrite run_app. destruct t as [|r|r|r]; simpl.
    + assert (Hw1 : wg (grp c) = S (w + count_live ts)) by (simpl in Hw; lia).
      rewrite Ht, list_lookup_middle by done. simpl.
      rewrite insert_middle, list_lookup_middle by done. simpl.
      rewrite insert_middle, list_lookup_middle by done. simpl.
      unfold wg_Done. rewrite Hw1. simpl. rewrite insert_middle.
      apply Hnext; simpl; done.
    + assert (Hw1 : wg (grp c) = S (w + count_live ts)) by (simpl in Hw; lia).
      rewrite Ht, list_lookup_middle by done. simpl.
      rewrite insert_middle, list_lookup_middle by done. simpl.
      unfold wg_Done. rewrite wg_report, Hw1. simpl. rewrite insert_middle.
      apply Hnext; simpl; done.
    + assert (Hw1 : wg (grp c) = S (w + count_live ts)) by (simpl in Hw; lia).
      rewrite Ht, list_lookup_middle by done. simpl.
      unfold wg_Done. rewrite Hw1. simpl. rewrite insert_middle.
      apply Hnext; simpl; done.
    + apply Hnext; simpl; [done..|simpl in Hw; lia].
Qed.

(** X1. A group made by [WithContext] keeps its cancel function and the
    zero [Group] never has one.  In every state a group reaches, the
    context is cancelled exactly when the group has a cancel function and
    either an error has been stored or [Wait] has returned; so the zero
    [Group] never cancels. *)
Theorem context_cancelled_by_first_error_or_Wait
    (withCancel : bool) (n : nat) (c : config) :
  reachable (init withCancel n) c →
  cancel (grp c) = withCancel
  ∧ (ctxDone (grp c) = true
     ↔ withCancel = true ∧ (is_Some (err (grp c)) ∨ ∃ ret, main c = Joined ret)).
Proof.
  intros Hr. destruct (cancel_inv_reachable _ _ _ Hr) as [Hc Hd].
  pose proof (group_inv_reachable _ _ _ Hr) as Hinv.
  split; [done|]. rewrite Hd.
  assert (Ho : errOnce (grp c) = true ↔ is_Some (err (grp c))).
  { rewrite (inv_once _ _ Hinv), (inv_err _ _ Hinv).
    destruct (gate_log c) as [|[i e] l]; simpl.
    - split; [intros H; by destruct H | by intros [x Hx]].
    - split; intros _; [by eexists | done]. }
  assert (Hj : joined (main c) = true ↔ ∃ ret, main c = Joined ret).
  { destruct (main c); simpl; split; try done; [by intros [ret ?] | by eexists]. }
  rewrite andb_true_iff, orb_true_iff, Ho, Hj. done.
Qed.

Lemma context_cancelled_by_first_error_or_Wait_witness :
  ctxDone (grp (mkConfig (mkGroup true true 1 true (Some "e"%string)) (Spawning 0)
                  [Reported (Some "e"%string)] [(0, "e"%string)])) = true
  ↔ true = true
    ∧ (is_Some (Some "e"%string)
       ∨ ∃ ret, Spawning 0 = Joined ret).
Proof.
  refine (proj2 (context_cancelled_by_first_error_or_Wait true 1
    (mkConfig (mkGroup true true 1 true (Some "e"%string)) (Spawning 0)
       [Reported (Some "e"%string)] [(0, "e"%string)]) _)).
  exists [EvGo; EvReturn 0 (Some "e"%string); EvReport 0]. reflexivity.
Defined.

(** X2. In every state a group reaches, the counter of the wait group is
    the number of goroutines started by [Go] that have not finished; the
    deferred [g.wg.Done()] of a goroutine never finds the counter at zero,
    so it never panics; and [Wait] is blocked exactly while one of those
    goroutines has not finished. *)
Theorem wait_group_counts_live_goroutines (withCancel : bool) (n : nat) (c : config) :
  reachable (init withCancel n) c →
  wg (grp c) = count_live (tasks c)
  ∧ (∀ i r, tasks c !! i = Some (Reported r) → is_Some (exec (EvDone i) c))
  ∧ (Wait (grp c) = None ↔ ∃ i t, tasks c !! i = Some t ∧ live t = true).
Proof.
  intros Hinv%group_inv_reachable. pose proof (inv_wg _ _ Hinv) as Hw.
  split; [done|]. split.
  - intros i r Hi. simpl. rewrite Hi. unfold wg_Done.
    pose proof (count_live_pos _ _ _ Hi eq_refl) as Hpos.
    destruct (wg (grp c)); [lia|]. by eexists.
  - unfold Wait. split.
    + intros Hn. apply count_live_ex. destruct (wg (grp c)); [done | lia].
    + intros (i & t & Hi & Ht). pose proof (count_live_pos _ _ _ Hi Ht) as Hpos.
      destruct (wg (grp c)); [lia | done].
Qed.

Lemma wait_group_counts_live_goroutines_witness :
  wg (grp (mkConfig (mkGroup true false 1 false None) (Spawning 0) [Running] [])) = 1.
Proof.
  refine (proj1 (wait_group_counts_live_goroutines true 1
    (mkConfig (mkGroup true false 1 false None) (Spawning 0) [Running] []) _)).
  exists [EvGo]. reflexivity.
Defined.

(** X3. From every state a group reaches in which [Wait] has not returned,
    [Wait] can still return: when the owner makes its remaining calls of
    [Go] and the functions that are running return, every goroutine runs to
    its end and [Wait] gets through. *)
Theorem Wait_can_always_return (withCancel : bool) (n : nat) (c : config) :
  reachable (init withCancel n) c → joined (main c) = false →
  ∃ c' ret, run (drain c) c = Some c' ∧ main c' = Joined ret
            ∧ tasks c' = final <$> (tasks c ++ replicate (todo (main c)) Running).
Proof.
  intros Hinv%group_inv_reachable Hj. unfold drain.
  destruct (main c) as [k|] eqn:Hm; [|done]. simpl.
  destruct (run_Go k 0 c) as (c1 & Hrun1 & Hm1 & Ht1 & Hw1 & _); [by rewrite Nat.add_0_r|].
  destruct (run_finish_tasks (tasks c ++ replicate k Running) [] 0 c1)
    as (c2 & Hrun2 & Hm2 & Ht2 & Hw2).
  { by rewrite Ht1. }
  { rewrite Hw1, (inv_wg _ _ Hinv), count_live_app, count_live_replicate. done. }
  rewrite run_app, Hrun1. simpl. rewrite run_app. simpl in Hrun2. rewrite Hrun2. simpl.
  rewrite Hm2, Hm1. unfold Wait. rewrite Hw2. simpl.
  eexists _, _. split; [done|]. split; [done|]. simpl. by rewrite Ht2.
Qed.

Lemma Wait_can_always_return_witness :
  ∃ c' ret,
    run (drain (mkConfig (mkGroup true true 2 true (Some "e"%string)) (Spawning 1)
                  [Reported (Some "e"%string); Running] [(0, "e"%string)]))
      (mkConfig (mkGroup true true 2 true (Some "e"%string)) (Spawning 1)
         [Reported (Some "e"%string); Running] [(0, "e"%string)]) = Some c'
    ∧ main c' = Joined ret
    ∧ tasks c' = [Exited (Some "e"%string); Exited None; Exited None].
Proof.
  refine (Wait_can_always_return true 3
    (mkConfig (mkGroup true true 2 true (Some "e"%string)) (Spawning 1)
       [Reported (Some "e"%string); Running] [(0, "e"%string)]) _ eq_refl).
  exists [EvGo; EvGo; EvReturn 0 (Some "e"%string); EvReport 0]. reflexivity.
Defined.

End ErrGroup.

(** ** Semaphore: [src/semaphore/semaphore.go] *)

Module Semaphore.

Local Open Scope Z_scope.

Definition error := string.

(** [int64] arithmetic: the result of [+], [-] and [+=] wraps around. *)
Definition wrap64 (z : Z) : Z := (z + 2 ^ 63) mod 2 ^ 64 - 2 ^ 63.
Definition add64 (a b : Z) : Z := wrap64 (a + b).
Definition sub64 (a b : Z) : Z := wrap64 (a - b).
Definition int64 (z : Z) : Prop := - 2 ^ 63 ≤ z < 2 ^ 63.

(** [type waiter struct { n int64; ready chan<- struct{} }].  A channel is
    the number it got when it was made; an element of the [list.List] is
    identified by the channel of its waiter, which no other element has. *)
Record waiter := mkWaiter {
  n : Z;
  ready : nat
}.

Global Instance waiter_eq_dec : EqDecision waiter.
Proof. solve_decision. Defined.

(** [type Weighted struct { size int64; cur int64; mu sync.Mutex;
    waiters list.List }].  The mutex is not a field here: each function
    below is one region between [s.mu.Lock()] and [s.mu.Unlock()]. *)
Record Weighted := mkWeighted {
  size : Z;
  cur : Z;
  waiters : list waiter
}.

(** The semaphore together with the channels made for it: [closed] lists
    the [ready] channels that were closed, [fresh] is the next channel
    [make] returns. *)
Record state := mkState {
  sem : Weighted;
  closed : list nat;
  fresh : nat
}.

Definition NewWeighted (k : Z) : Weighted := mkWeighted k 0 [].

Definition new_state (k : Z) : state := mkState (NewWeighted k) [] 0.

(** The loop of [notifyWaiters], by recursion on the queue: [c] is [s.cur]
    and [cl] the closed channels so far. *)
Fixpoint notify (sz : Z) (ws : list waiter) (c : Z) (cl : list nat)
  : Z * list waiter * list nat :=
  match ws with
  | [] => (c, [], cl)
  | w :: rest =>
      if sub64 sz c <? n w then (c, ws, cl)
      else notify sz rest (add64 c (n w)) (cl ++ [ready w])
  end.

Definition notifyWaiters (s : state) : state :=
  let '(c, ws, cl) := notify (size (sem s)) (waiters (sem s)) (cur (sem s)) (closed s) in
  mkState (mkWeighted (size (sem s)) c ws) cl (fresh s).

(** [TryAcquire] *)
Definition TryAcquire (k : Z) (s : Weighted) : Weighted * bool :=
  let success := (sub64 (size s) (cur s) >=? k) && (length (waiters s) =? 0)%nat in
  (if success then mkWeighted (size s) (add64 (cur s) k) (waiters s) else s, success).

(** [Release]: the panic leaves the decremented counter behind. *)
Inductive release_result :=
  | Released (s : state)
  | ReleasePanic (s : state).

Definition Release (k : Z) (s : state) : release_result :=
  let c := sub64 (cur (sem s)) k in
  let s1 := mkState (mkWeighted (size (sem s)) c (waiters (sem s))) (closed s) (fresh s) in
  if c <? 0 then ReleasePanic s1 else Released (notifyWaiters s1).

(** The first critical section of [Acquire] (lines 47-65) ends in one of
    three ways. *)
Inductive acquire_entry :=
  | Granted                 (* fast path: return nil *)
  | Doomed                  (* n > s.size: <-ctx.Done() *)
  | Queued (elem : waiter). (* pushed back: select *)

Definition Acquire_enter (k : Z) (s : state) : state * acquire_entry :=
  let m := sem s in
  if (sub64 (size m) (cur m) >=? k) && (length (waiters m) =? 0)%nat then
    (mkState (mkWeighted (size m) (add64 (cur m) k) (waiters m)) (closed s) (fresh s),
     Granted)
  else if k >? size m then (s, Doomed)
  else
    let w := mkWaiter k (fresh s) in
    (mkState (mkWeighted (size m) (cur m) (waiters m ++ [w])) (closed s) (S (fresh s)),
     Queued w).

(** [s.waiters.Remove(elem)] *)
Definition remove (elem : waiter) (ws : list waiter) : list waiter :=
  filter (λ w, ready w ≠ ready elem) ws.

(** [s.waiters.Front() == elem] *)
Definition is_front (elem : waiter) (ws : list waiter) : bool :=
  match ws with
  | [] => false
  | w :: _ => bool_decide (ready w = ready elem)
  end.

(** The second critical section of [Acquire] (lines 73-94), entered when
    [ctx.Done()] fired in the [select]; [err] is [ctx.Err()]. *)
Definition Acquire_cancel (elem : waiter) (err : error) (s : state)
  : state * option error :=
  if bool_decide (ready elem ∈ closed s) then (s, None)
  else
    let m := sem s in
    let isFront := is_front elem (waiters m) in
    let s1 := mkState (mkWeighted (size m) (cur m) (remove elem (waiters m)))
                (closed s) (fresh s) in
    (if isFront && (size m >? cur m) then notifyWaiters s1 else s1, Some err).

(** *** Goroutines calling the semaphore *)

(** A goroutine inside one call, by program point.  [AcquireCall]: before
    line 47.  [AcquireDoomed]: at [<-ctx.Done()], line 57.  [AcquireSelect]:
    in the [select] of line 67.  [AcquireCanceled]: the [ctx.Done()] case was
    taken and [err := ctx.Err()] read, the goroutine is about to lock
    (line 73).  The [...Return] points keep the weight of the call. *)
Inductive pc :=
  | AcquireCall (ctx : nat) (k : Z)
  | AcquireDoomed (ctx : nat) (k : Z)
  | AcquireSelect (ctx : nat) (elem : waiter)
  | AcquireCanceled (ctx : nat) (elem : waiter) (err : error)
  | AcquireReturn (k : Z) (r : option error)
  | TryAcquireCall (k : Z)
  | TryAcquireReturn (k : Z) (ok : bool)
  | ReleaseCall (k : Z)
  | ReleaseReturn (k : Z)
  | ReleasePanicked (k : Z).

(** One step of a goroutine.  [cx] maps a context that is done to its
    [Err()].  [pick_ready] is the case the [select] of line 67 takes; a case
    that is not ready cannot be taken, and [None] is a goroutine that cannot
    move. *)
Definition thread_step (pick_ready : bool) (cx : gmap nat error) (p : pc) (s : state)
  : option (state * pc) :=
  match p with
  | AcquireCall ctx k =>
      let '(s', r) := Acquire_enter k s in
      Some (s', match r with
                | Granted => AcquireReturn k None
                | Doomed => AcquireDoomed ctx k
                | Queued w => AcquireSelect ctx w
                end)
  | AcquireDoomed ctx k =>
      e ← cx !! ctx; Some (s, AcquireReturn k (Some e))
  | AcquireSelect ctx w =>
      if pick_ready then
        if bool_decide (ready w ∈ closed s) then Some (s, AcquireReturn (n w) None)
        else None
      else
        e ← cx !! ctx; Some (s, AcquireCanceled ctx w e)
  | AcquireCanceled ctx w e =>
      let '(s', r) := Acquire_cancel w e s in
      Some (s', AcquireReturn (n w) r)
  | TryAcquireCall k =>
      let '(m, ok) := TryAcquire k (sem s) in
      Some (mkState m (closed s) (fresh s), TryAcquireReturn k ok)
  | ReleaseCall k =>
      match Release k s with
      | Released s' => Some (s', ReleaseReturn k)
      | ReleasePanic s' => Some (s', ReleasePanicked k)
      end
  | _ => None
  end.

Record config := mkConfig {
  st : state;
  ctxs : gmap nat error;
  threads : list pc
}.

Inductive event :=
  | EvCall (p : pc)                     (* a goroutine calls into the semaphore *)
  | EvCancel (ctx : nat) (e : error)    (* a context is cancelled *)
  | EvStep (i : nat) (pick_ready : bool).

Definition is_int64 (k : Z) : bool := (- 2 ^ 63 <=? k) && (k <? 2 ^ 63).

Definition is_call (p : pc) : bool :=
  match p with
  | AcquireCall _ k | TryAcquireCall k | ReleaseCall k => is_int64 k
  | _ => false
  end.

Definition exec (ev : event) (c : config) : option config :=
  match ev with
  | EvCall p =>
      if is_call p then Some (mkConfig (st c) (ctxs c) (threads c ++ [p])) else None
  | EvCancel ctx e =>
      match ctxs c !! ctx with
      | None => Some (mkConfig (st c) (<[ctx := e]> (ctxs c)) (threads c))
      | Some _ => None
      end
  | EvStep i pick_ready =>
      p ← threads c !! i;
      '(s', p') ← thread_step pick_ready (ctxs c) p (st c);
      Some (mkConfig s' (ctxs c) (<[i := p']> (threads c)))
  end.

Fixpoint run (evs : list event) (c : config) : option config :=
  match evs with
  | [] => Some c
  | ev :: evs' => c' ← exec ev c; run evs' c'
  end.

Definition init (k : Z) : config := mkConfig (new_state k) ∅ [].

Definition reachable (c0 c : config) : Prop := ∃ evs, run evs c0 = Some c.

(** *** Well-formed states *)

(** The allocated weight lies between zero and the capacity. *)
Definition in_range (m : Weighted) : Prop :=
  0 ≤ cur m ≤ size m ∧ size m < 2 ^ 63.

(** ... and the queued requests are not negative. *)
Definition wf (m : Weighted) : Prop :=
  in_range m ∧ Forall (λ w, 0 ≤ n w < 2 ^ 63) (waiters m).

Definition weights (ws : list waiter) : Z := foldr Z.add 0 (n <$> ws).

(** *** Invariants of the queue and of the goroutines waiting in it *)

(** The waiter a goroutine has pushed on the queue. *)
Definition pc_elem (p : pc) : option waiter :=
  match p with
  | AcquireSelect _ w | AcquireCanceled _ w _ => Some w
  | _ => None
  end.

(** The channels of the queued waiters are distinct, were made, and are
    open; the closed channels were made. *)
Record queue_ok (s : state) : Prop := mkQueueOk {
  qo_nodup : NoDup (ready <$> waiters (sem s));
  qo_fresh : ∀ w, w ∈ waiters (sem s) → (ready w < fresh s)%nat;
  qo_open : ∀ w, w ∈ waiters (sem s) → ready w ∉ closed s;
  qo_closed : ∀ r, r ∈ closed s → (r < fresh s)%nat
}.

(** A waiter that a goroutine holds is queued or has been granted. *)
Definition elem_ok (s : state) (w : waiter) : Prop :=
  (ready w < fresh s)%nat ∧ (w ∈ waiters (sem s) ∨ ready w ∈ closed s).

Definition elems_ok (s : state) (ths : list pc) : Prop :=
  ∀ i p w, ths !! i = Some p → pc_elem p = Some w → elem_ok s w.

Definition elems_uniq (ths : list pc) : Prop :=
  ∀ i j p q w w', ths !! i = Some p → ths !! j = Some q →
    pc_elem p = Some w → pc_elem q = Some w' → ready w = ready w' → i = j.

Record sys_inv (c : config) : Prop := mkSysInv {
  si_queue : queue_ok (st c);
  si_elems : elems_ok (st c) (threads c);
  si_uniq : elems_uniq (threads c)
}.

(** *** Well-formedness is an invariant of proper use *)

(** The weight of the call a goroutine is in. *)
Definition pc_weight (p : pc) : Z :=
  match p with
  | AcquireCall _ k | AcquireDoomed _ k | AcquireReturn k _ | TryAcquireCall k
  | TryAcquireReturn k _ | ReleaseCall k | ReleaseReturn k | ReleasePanicked k => k
  | AcquireSelect _ w | AcquireCanceled _ w _ => n w
  end.

(** Proper use: no negative weight, and no [Release] of more than is
    held. *)
Definition pc_fine (p : pc) : Prop :=
  0 ≤ pc_weight p < 2 ^ 63 ∧ ∀ k, p ≠ ReleasePanicked k.

(** Capacity two, all of it acquired by goroutine 0; goroutine 1 asks for
    one unit, is queued, and its context is cancelled. *)
Definition cancel_demo : list event :=
  [EvCall (AcquireCall 0 2); EvStep 0 true; EvCall (AcquireCall 1 1); EvStep 1 true;
   EvCancel 1 "context canceled"%string; EvStep 1 false].

Definition cancel_demo_config : config :=
  mkConfig (mkState (mkWeighted 2 2 [mkWaiter 1 0]) [] 1)
    {[ 1%nat := "context canceled"%string ]}
    [AcquireReturn 2 None; AcquireCanceled 1 (mkWaiter 1 0) "context canceled"].

(** *** The front of the queue, the balance and the order of service *)

(** The waiter at the front of the queue does not fit in the free
    capacity. *)
Definition front_blocked (m : Weighted) : Prop :=
  ∀ w rest, waiters m = w :: rest → size m - cur m < n w.

(** The program points of [Acquire]. *)
Definition is_acquire (p : pc) : bool :=
  match p with
  | AcquireCall _ _ | AcquireDoomed _ _ | AcquireSelect _ _ | AcquireCanceled _ _ _
  | AcquireReturn _ _ => true
  | _ => false
  end.

(** No call of [Acquire] asks for a weight of zero. *)
Definition pc_positive (p : pc) : Prop := is_acquire p = true → 0 < pc_weight p.

(** What a call has taken from the semaphore, or given back, so far: the
    weight of a call of [Acquire] or [TryAcquire] that succeeded, also when
    the goroutine in [Acquire] has not yet seen that its channel is closed;
    the weight, negated, of a call of [Release] that returned. *)
Definition credit (cl : list nat) (p : pc) : Z :=
  match p with
  | AcquireReturn k None | TryAcquireReturn k true => k
  | AcquireSelect _ w | AcquireCanceled _ w _ =>
      if bool_decide (ready w ∈ cl) then n w else 0
  | ReleaseReturn k => - k
  | _ => 0
  end.

Definition total (f : pc → Z) (ths : list pc) : Z := foldr Z.add 0 (f <$> ths).

Definition held (cl : list nat) (ths : list pc) : Z := total (credit cl) ths.

(** Every queued waiter belongs to a goroutine that waits in [Acquire]. *)
Definition all_held (ws : list waiter) (ths : list pc) : Prop :=
  ∀ w, w ∈ ws → ∃ i p, ths !! i = Some p ∧ pc_elem p = Some w.

(** A list of channels in the order they were made. *)
Fixpoint increasing (l : list nat) : Prop :=
  match l with
  | [] => True
  | a :: l' => Forall (λ b, (a < b)%nat) l' ∧ increasing l'
  end.

(** The channels that were closed, in the order they were closed, and then
    the channels of the queued waiters, front first. *)
Definition served (s : state) : list nat := closed s ++ (ready <$> waiters (sem s)).

(** *** The operations on a well-formed semaphore *)

Lemma wrap64_id (z : Z) : int64 z → wrap64 z = z.
Proof. unfold wrap64, int64. intros H. rewrite Z.mod_small; lia. Qed.

Lemma sub64_in_range (m : Weighted) : in_range m → sub64 (size m) (cur m) = size m - cur m.
Proof. intros [H1 H2]. apply wrap64_id. unfold int64. lia. Qed.

Lemma add64_fits (m : Weighted) (k : Z) :
  in_range m → int64 k → k ≤ size m - cur m → add64 (cur m) k = cur m + k.
Proof. intros [H1 H2] Hk Hle. apply wrap64_id. unfold int64 in *. lia. Qed.

(** C7. On a semaphore whose allocated weight lies between zero and the
    capacity, [TryAcquire k] returns [true] exactly when [k] is at most the
    free capacity and nobody is queued; then it adds exactly [k] to the
    allocated weight and changes nothing else; when it returns [false] the
    semaphore is what it was. *)
Theorem TryAcquire_iff_fits_and_no_waiter (m : Weighted) (k : Z) :
  in_range m → int64 k →
  (snd (TryAcquire k m) = true ↔ k ≤ size m - cur m ∧ waiters m = [])
  ∧ (snd (TryAcquire k m) = true →
       fst (TryAcquire k m) = mkWeighted (size m) (cur m + k) (waiters m))
  ∧ (snd (TryAcquire k m) = false → fst (TryAcquire k m) = m).
Proof.
  intros Hm Hk. unfold TryAcquire. simpl. rewrite sub64_in_range by done.
  assert (Hiff : (size m - cur m >=? k) && (length (waiters m) =? 0)%nat = true
                 ↔ k ≤ size m - cur m ∧ waiters m = []).
  { rewrite andb_true_iff, Z.geb_le, Nat.eqb_eq. by rewrite length_zero_iff_nil. }
  split; [done|]. split.
  - intros Hs. rewrite Hs. apply Hiff in Hs as [Hle _].
    by rewrite add64_fits.
  - intros Hs. by rewrite Hs.
Qed.

Lemma TryAcquire_iff_fits_and_no_waiter_witness :
  snd (TryAcquire 2 (mkWeighted 5 3 [])) = true
  ∧ fst (TryAcquire 2 (mkWeighted 5 3 [])) = mkWeighted 5 5 []
  ∧ snd (TryAcquire 1 (mkWeighted 5 3 [mkWaiter 4 0])) = false.
Proof.
  assert (H5 : in_range (mkWeighted 5 3 [])) by (unfold in_range; simpl; lia).
  assert (H2 : int64 2) by (unfold int64; lia).
  pose proof (TryAcquire_iff_fits_and_no_waiter (mkWeighted 5 3 []) 2 H5 H2) as (Hiff & Hyes & _).
  split; [apply Hiff; simpl; split; [lia | reflexivity]|].
  split; [apply Hyes, Hiff; simpl; split; [lia | reflexivity] | reflexivity].
Defined.

(** C10. When the request fits and nobody is queued, the goroutine calling
    [Acquire] returns [nil] in its first step and the weight is allocated,
    whatever the state [cx] of the contexts: the step does not read it, so
    a context that is already done changes nothing. *)
Theorem Acquire_fast_path_ignores_ctx
    (s : state) (ctx : nat) (k : Z) (cx : gmap nat error) (pick_ready : bool) :
  in_range (sem s) → int64 k →
  k ≤ size (sem s) - cur (sem s) → waiters (sem s) = [] →
  thread_step pick_ready cx (AcquireCall ctx k) s
  = Some (mkState (mkWeighted (size (sem s)) (cur (sem s) + k) []) (closed s) (fresh s),
          AcquireReturn k None).
Proof.
  intros Hm Hk Hle Hw. simpl. unfold Acquire_enter.
  rewrite sub64_in_range, Hw by done. simpl.
  replace (size (sem s) - cur (sem s) >=? k) with true
    by (symmetry; by apply Z.geb_le).
  simpl. by rewrite add64_fits.
Qed.

Lemma Acquire_fast_path_ignores_ctx_witness :
  thread_step false {[ 7%nat := "context canceled"%string ]} (AcquireCall 7 2)
    (mkState (mkWeighted 5 3 []) [] 0)
  = Some (mkState (mkWeighted 5 (3 + 2) []) [] 0, AcquireReturn 2 None).
Proof.
  apply (Acquire_fast_path_ignores_ctx (mkState (mkWeighted 5 3 []) [] 0) 7 2).
  - unfold in_range; simpl; lia.
  - unfold int64; lia.
  - simpl; lia.
  - reflexivity.
Defined.

(** C8. A request above the capacity, on a semaphore whose allocated weight
    lies between zero and the capacity: the first step of [Acquire] neither
    grants it nor queues it and leaves the semaphore as it was; from there
    the goroutine cannot move while its context is not done, and when the
    context is done it returns the context's error, again without touching
    the semaphore. *)
Theorem Acquire_over_capacity_waits_for_ctx
    (s : state) (ctx : nat) (k : Z) (cx : gmap nat error) (pick_ready : bool) :
  in_range (sem s) → int64 k → size (sem s) < k →
  thread_step pick_ready cx (AcquireCall ctx k) s = Some (s, AcquireDoomed ctx k)
  ∧ (∀ s' pick', cx !! ctx = None →
       thread_step pick' cx (AcquireDoomed ctx k) s' = None)
  ∧ (∀ s' pick' e, cx !! ctx = Some e →
       thread_step pick' cx (AcquireDoomed ctx k) s'
       = Some (s', AcquireReturn k (Some e))).
Proof.
  intros Hm Hk Hlt. split; [|split].
  - simpl. unfold Acquire_enter. rewrite sub64_in_range by done.
    destruct Hm as [Hc Hs].
    replace (size (sem s) - cur (sem s) >=? k) with false
      by (symmetry; apply not_true_is_false; rewrite Z.geb_le; lia).
    simpl. replace (k >? size (sem s)) with true; [done|].
    symmetry. apply Z.gtb_lt. lia.
  - intros s' pick' Hcx. simpl. by rewrite Hcx.
  - intros s' pick' e Hcx. simpl. by rewrite Hcx.
Qed.

Lemma Acquire_over_capacity_waits_for_ctx_witness :
  thread_step true ∅ (AcquireCall 0 6) (mkState (mkWeighted 5 3 []) [] 0)
  = Some (mkState (mkWeighted 5 3 []) [] 0, AcquireDoomed 0 6).
Proof.
  apply (Acquire_over_capacity_waits_for_ctx (mkState (mkWeighted 5 3 []) [] 0) 0 6).
  - unfold in_range; simpl; lia.
  - unfold int64; lia.
  - simpl; lia.
Defined.

Lemma weights_cons (w : waiter) (ws : list waiter) : weights (w :: ws) = n w + weights ws.
Proof. reflexivity. Qed.

(** The loop hands out a prefix of the queue, whatever the numbers are. *)
Lemma notify_prefix (sz : Z) (ws : list waiter) (c : Z) (cl : list nat) :
  ∃ g, ws = g ++ (notify sz ws c cl).1.2
       ∧ (notify sz ws c cl).2 = cl ++ (ready <$> g).
Proof.
  revert c cl; induction ws as [|w ws IH]; intros c cl; simpl.
  - exists []. simpl. by rewrite app_nil_r.
  - destruct (sub64 sz c <? n w).
    + exists []. simpl. by rewrite app_nil_r.
    + destruct (IH (add64 c (n w)) (cl ++ [ready w])) as (g & Hg & Hcl).
      exists (w :: g). simpl. split; [by f_equal|].
      rewrite Hcl, <- app_assoc. done.
Qed.

(** On a well-formed semaphore no operation of the loop wraps around: the
    prefix handed out is the longest one that fits. *)
Lemma notify_spec (sz : Z) (ws : list waiter) (c : Z) (cl : list nat) :
  0 ≤ c ≤ sz → sz < 2 ^ 63 → Forall (λ w, 0 ≤ n w < 2 ^ 63) ws →
  ∃ g rest, ws = g ++ rest
    ∧ notify sz ws c cl = (c + weights g, rest, cl ++ (ready <$> g))
    ∧ c + weights g ≤ sz ∧ 0 ≤ weights g
    ∧ (∀ g1 w g2, g = g1 ++ w :: g2 → n w ≤ sz - (c + weights g1))
    ∧ (∀ w rest', rest = w :: rest' → sz - (c + weights g) < n w).
Proof.
  intros Hc Hsz Hws. revert c cl Hc.
  induction Hws as [|w ws Hw Hws IH]; intros c cl Hc; simpl.
  - exists [], []. unfold weights; simpl. rewrite app_nil_r, Z.add_0_r.
    repeat split; try done; try lia. intros [|??] ???; done.
  - assert (Hsub : sub64 sz c = sz - c) by (apply wrap64_id; unfold int64; lia).
    rewrite Hsub. destruct (Z.ltb_spec (sz - c) (n w)) as [Hlt|Hge].
    + exists [], (w :: ws). unfold weights; simpl. rewrite app_nil_r, Z.add_0_r.
      repeat split; try done; try lia.
      * intros [|??] ???; done.
      * intros w' rest' [= <- <-]. done.
    + assert (Hadd : add64 c (n w) = c + n w) by (apply wrap64_id; unfold int64; lia).
      rewrite Hadd.
      destruct (IH (c + n w) (cl ++ [ready w])) as (g & rest & -> & Hn & Hle & Hpos & Hfit & Hstop);
        [lia|].
      exists (w :: g), rest. rewrite weights_cons.
      split; [done|]. split.
      { rewrite Hn. simpl. rewrite <- app_assoc. do 2 f_equal. lia. }
      split; [lia|]. split; [lia|]. split.
      * intros [|w1 g1] w' g2 Heq; simplify_eq/=.
        -- unfold weights; simpl. lia.
        -- rewrite weights_cons. specialize (Hfit _ _ _ eq_refl). lia.
      * intros w' rest' ->. specialize (Hstop _ _ eq_refl). lia.
Qed.

Lemma notifyWaiters_prefix (s : state) :
  ∃ g, waiters (sem s) = g ++ waiters (sem (notifyWaiters s))
       ∧ closed (notifyWaiters s) = closed s ++ (ready <$> g)
       ∧ fresh (notifyWaiters s) = fresh s
       ∧ size (sem (notifyWaiters s)) = size (sem s).
Proof.
  destruct (notify_prefix (size (sem s)) (waiters (sem s)) (cur (sem s)) (closed s))
    as (g & Hg & Hcl).
  exists g. unfold notifyWaiters.
  destruct (notify _ _ _ _) as [[c ws] cl]. simpl in *. done.
Qed.

(** C6. Queue re-evaluation on a well-formed semaphore.  [notifyWaiters]
    hands out a prefix [g] of the queue, front first: it closes the channels
    of [g] in queue order, adds the weights of [g] to the allocated weight
    and leaves the rest of the queue in place; each waiter of [g] fitted in
    the capacity that was free when its turn came, and the waiter left at
    the front, if any, does not fit.  With [w1 :: w2 :: w3 :: _] queued,
    [w1] asking for the whole capacity and [w2], [w3] for one unit, and at
    least two units free but less than the capacity, nothing is handed out.
    [Release] runs the re-evaluation after giving the weight back, and the
    cancellation path of [Acquire] runs it exactly when the removed waiter
    was at the front and the capacity exceeds the allocated weight; when
    every queued request is for one unit at least, the cancellation of the
    front waiter leaves the state the re-evaluation gives in every case.
    With distinct channels, a waiter is handed its weight in a pass only if
    every waiter queued before it is handed its weight in that pass. *)
Theorem notifyWaiters_grants_longest_fitting_prefix (s : state) :
  wf (sem s) →
  (∃ g, waiters (sem s) = g ++ waiters (sem (notifyWaiters s))
        ∧ closed (notifyWaiters s) = closed s ++ (ready <$> g)
        ∧ cur (sem (notifyWaiters s)) = cur (sem s) + weights g
        ∧ size (sem (notifyWaiters s)) = size (sem s)
        ∧ fresh (notifyWaiters s) = fresh s
        ∧ (∀ g1 w g2, g = g1 ++ w :: g2 →
             n w ≤ size (sem s) - (cur (sem s) + weights g1))
        ∧ (∀ w rest, waiters (sem (notifyWaiters s)) = w :: rest →
             size (sem s) - cur (sem (notifyWaiters s)) < n w))
  ∧ (∀ w1 w2 w3 rest,
       waiters (sem s) = w1 :: w2 :: w3 :: rest →
       n w1 = size (sem s) → n w2 = 1 → n w3 = 1 →
       2 ≤ size (sem s) - cur (sem s) < size (sem s) →
       notifyWaiters s = s)
  ∧ (∀ k, 0 ≤ k ≤ cur (sem s) →
       Release k s
       = Released (notifyWaiters
           (mkState (mkWeighted (size (sem s)) (cur (sem s) - k) (waiters (sem s)))
              (closed s) (fresh s))))
  ∧ (∀ elem err, ready elem ∉ closed s →
       Acquire_cancel elem err s
       = (let s1 := mkState (mkWeighted (size (sem s)) (cur (sem s))
                               (remove elem (waiters (sem s)))) (closed s) (fresh s) in
          if is_front elem (waiters (sem s)) && (size (sem s) >? cur (sem s))
          then notifyWaiters s1 else s1,
          Some err))
  ∧ (∀ elem err, ready elem ∉ closed s → is_front elem (waiters (sem s)) = true →
       Forall (λ w, 0 < n w) (waiters (sem s)) →
       (Acquire_cancel elem err s).1
       = notifyWaiters (mkState (mkWeighted (size (sem s)) (cur (sem s))
                                   (remove elem (waiters (sem s)))) (closed s) (fresh s)))
  ∧ (∀ l1 w1 l2 w2 l3,
       waiters (sem s) = l1 ++ w1 :: l2 ++ w2 :: l3 →
       NoDup (ready <$> waiters (sem s)) → ready w2 ∉ closed s →
       ready w2 ∈ closed (notifyWaiters s) → ready w1 ∈ closed (notifyWaiters s)).
Proof.
  intros [[Hc Hsz] Hws]. destruct s as [[sz c ws] cl f]; simpl in *.
  split; [|split; [|split; [|split; [|split]]]].
  - destruct (notify_spec sz ws c cl Hc Hsz Hws)
      as (g & rest & -> & Hn & Hle & Hpos & Hfit & Hstop).
    exists g. unfold notifyWaiters. simpl. rewrite Hn. simpl.
    repeat split; try done.
  - intros w1 w2 w3 rest -> H1 H2 H3 Hfree.
    unfold notifyWaiters. cbn [notify sem size cur waiters closed fresh]. unfold sub64.
    rewrite (wrap64_id (sz - c)) by (unfold int64; lia).
    replace (sz - c <? n w1) with true; [done|]. symmetry. apply Z.ltb_lt. lia.
  - intros k Hk. unfold Release. cbn [sem size cur waiters closed fresh]. unfold sub64.
    rewrite (wrap64_id (c - k)) by (unfold int64; lia).
    replace (c - k <? 0) with false; [done|]. symmetry. apply Z.ltb_ge. lia.
  - intros elem err Hopen. unfold Acquire_cancel. simpl.
    by rewrite bool_decide_eq_false_2.
  - intros elem err Hopen Hfront Hpos. unfold Acquire_cancel. simpl.
    rewrite bool_decide_eq_false_2, Hfront by done. simpl.
    destruct (Z.gtb_spec sz c) as [Hgt|Hle]; [done|]. simpl.
    assert (Hpos' : Forall (λ w, 0 < n w) (remove elem ws)).
    { rewrite Forall_forall in Hpos. apply Forall_forall.
      intros w' [_ Hin]%list_elem_of_filter. by apply Hpos. }
    unfold notifyWaiters. simpl. destruct (remove elem ws) as [|w rest]; [done|].
    apply Forall_cons in Hpos' as [Hw _]. simpl. unfold sub64.
    rewrite (wrap64_id (sz - c)) by (unfold int64; lia).
    replace (sz - c <? n w) with true; [done|]. symmetry. apply Z.ltb_lt. lia.
  - intros l1 w1 l2 w2 l3 -> Hnd Hopen Hin.
    destruct (notifyWaiters_prefix (mkState (mkWeighted sz c (l1 ++ w1 :: l2 ++ w2 :: l3)) cl f))
      as (g & Hg & Hcl & _).
    rewrite Hcl in Hin |- *. simpl in *. rewrite elem_of_app in Hin |- *.
    destruct Hin as [Hin|Hin]; [done|]. right.
    apply list_elem_of_lookup in Hin as [j Hj].
    rewrite Hg, fmap_app in Hnd.
    assert (Hj2 : ((ready <$> g) ++ (ready <$> waiters (sem (notifyWaiters
               (mkState (mkWeighted sz c (l1 ++ w1 :: l2 ++ w2 :: l3)) cl f)))))
               !! (length l1 + S (length l2))%nat = Some (ready w2)).
    { rewrite <- fmap_app, <- Hg, list_lookup_fmap.
      rewrite lookup_app_r by lia.
      replace (length l1 + S (length l2) - length l1)%nat with (S (length l2)) by lia.
      simpl. by rewrite list_lookup_middle. }
    assert (j = (length l1 + S (length l2))%nat) as ->.
    { eapply NoDup_lookup; [exact Hnd| |exact Hj2]. by apply lookup_app_l_Some. }
    apply lookup_lt_Some in Hj.
    assert (Hj1 : ((ready <$> g) ++ (ready <$> waiters (sem (notifyWaiters
               (mkState (mkWeighted sz c (l1 ++ w1 :: l2 ++ w2 :: l3)) cl f)))))
               !! length l1 = Some (ready w1)).
    { rewrite <- fmap_app, <- Hg, list_lookup_fmap. by rewrite list_lookup_middle. }
    rewrite lookup_app_l in Hj1 by lia. by eapply list_elem_of_lookup_2.
Qed.

Lemma notifyWaiters_grants_longest_fitting_prefix_witness :
  notifyWaiters
    (mkState (mkWeighted 4 1 [mkWaiter 4 0; mkWaiter 1 1; mkWaiter 1 2]) [] 3)
  = mkState (mkWeighted 4 1 [mkWaiter 4 0; mkWaiter 1 1; mkWaiter 1 2]) [] 3.
Proof.
  refine (proj1 (proj2 (notifyWaiters_grants_longest_fitting_prefix
    (mkState (mkWeighted 4 1 [mkWaiter 4 0; mkWaiter 1 1; mkWaiter 1 2]) [] 3) _))
    _ _ _ _ eq_refl eq_refl eq_refl eq_refl _).
  - split; [unfold in_range; simpl; lia|]. simpl.
    repeat constructor; simpl; lia.
  - simpl; lia.
Defined.

(** *** The queue in every reachable state, and cancellation *)

Lemma queue_ok_ext (s s' : state) :
  queue_ok s →
  waiters (sem s') = waiters (sem s) → closed s' = closed s → fresh s' = fresh s →
  queue_ok s'.
Proof. intros [H1 H2 H3 H4] Hw Hc Hf. split; rewrite ?Hw, ?Hc, ?Hf; done. Qed.

Lemma elem_ok_ext (s s' : state) (w : waiter) :
  elem_ok s w →
  waiters (sem s') = waiters (sem s) → closed s' = closed s → fresh s' = fresh s →
  elem_ok s' w.
Proof. intros H Hw Hc Hf. unfold elem_ok. by rewrite Hw, Hc, Hf. Qed.

Lemma queue_ok_notify (s : state) : queue_ok s → queue_ok (notifyWaiters s).
Proof.
  intros [Hnd Hfr Hop Hcl].
  destruct (notifyWaiters_prefix s) as (g & Hg & Hc & Hf & _).
  rewrite Hg, fmap_app in Hnd. apply NoDup_app in Hnd as (_ & Hdisj & Hnd).
  split; rewrite ?Hc, ?Hf.
  - done.
  - intros w Hw. apply Hfr. rewrite Hg, elem_of_app. by right.
  - intros w Hw. rewrite elem_of_app. intros [Hin|Hin].
    + eapply Hop; [|done]. rewrite Hg, elem_of_app. by right.
    + eapply Hdisj; [done|]. by apply list_elem_of_fmap_2.
  - intros r. rewrite elem_of_app. intros [Hin|Hin]; [by apply Hcl|].
    apply list_elem_of_fmap in Hin as (w & -> & Hw).
    apply Hfr. rewrite Hg, elem_of_app. by left.
Qed.

Lemma elem_ok_notify (s : state) (w : waiter) : elem_ok s w → elem_ok (notifyWaiters s) w.
Proof.
  destruct (notifyWaiters_prefix s) as (g & Hg & Hc & Hf & _).
  unfold elem_ok. rewrite Hc, Hf, Hg. intros [Hlt Hin]. split; [done|].
  rewrite !elem_of_app in *. destruct Hin as [[Hin|Hin]|Hin]; auto.
  right. right. by apply list_elem_of_fmap_2.
Qed.

Lemma queue_ok_remove (s : state) (elem : waiter) (c : Z) :
  queue_ok s →
  queue_ok (mkState (mkWeighted (size (sem s)) c (remove elem (waiters (sem s))))
              (closed s) (fresh s)).
Proof.
  intros [Hnd Hfr Hop Hcl]. split; simpl; [|..|done].
  - eapply sublist_NoDup; [exact Hnd|]. apply fmap_sublist, sublist_filter.
  - intros w [_ Hw]%list_elem_of_filter. by apply Hfr.
  - intros w [_ Hw]%list_elem_of_filter. by apply Hop.
Qed.

Lemma elem_ok_remove (s : state) (elem w : waiter) (c : Z) :
  ready w ≠ ready elem → elem_ok s w →
  elem_ok (mkState (mkWeighted (size (sem s)) c (remove elem (waiters (sem s))))
             (closed s) (fresh s)) w.
Proof.
  intros Hne [Hlt Hin]. split; [done|]. simpl. destruct Hin as [Hin|Hin]; [left|by right].
  by apply list_elem_of_filter.
Qed.

Lemma queue_ok_push (s : state) (k c : Z) :
  queue_ok s →
  queue_ok (mkState (mkWeighted (size (sem s)) c (waiters (sem s) ++ [mkWaiter k (fresh s)]))
              (closed s) (S (fresh s))).
Proof.
  intros [Hnd Hfr Hop Hcl]. split; simpl.
  - rewrite fmap_app. apply NoDup_app. split; [done|]. split; [|apply NoDup_singleton].
    intros r Hr ->%list_elem_of_singleton.
    apply list_elem_of_fmap in Hr as (w & Heq & Hw). apply Hfr in Hw. simpl in *. lia.
  - intros w [Hw| ->%list_elem_of_singleton]%elem_of_app; [apply Hfr in Hw|simpl]; lia.
  - intros w [Hw| ->%list_elem_of_singleton]%elem_of_app; [by apply Hop|].
    simpl. intros Hin%Hcl. lia.
  - intros r Hr%Hcl. lia.
Qed.

Lemma elem_ok_push (s : state) (w w0 : waiter) (c : Z) :
  elem_ok s w →
  elem_ok (mkState (mkWeighted (size (sem s)) c (waiters (sem s) ++ [w0]))
             (closed s) (S (fresh s))) w.
Proof.
  intros [Hlt Hin]. split; simpl; [lia|]. rewrite elem_of_app. tauto.
Qed.

Lemma lookup_insert_cases (ths : list pc) (i j : nat) (p' q : pc) :
  <[i := p']> ths !! j = Some q →
  (j = i ∧ q = p') ∨ (j ≠ i ∧ ths !! j = Some q).
Proof.
  destruct (decide (i = j)) as [->|Hne].
  - intros Hq. left. split; [done|].
    destruct (decide (j < length ths)%nat).
    + rewrite list_lookup_insert_eq in Hq by done. congruence.
    + rewrite list_insert_ge in Hq by lia. apply lookup_lt_Some in Hq. lia.
  - rewrite list_lookup_insert_ne by done. intros Hq. right. split; [congruence | done].
Qed.

(** The goroutine that moves ends up holding no waiter. *)
Lemma elems_insert_none (ths : list pc) (i : nat) (p' : pc) (s' : state) :
  pc_elem p' = None →
  (∀ j q w, j ≠ i → ths !! j = Some q → pc_elem q = Some w → elem_ok s' w) →
  elems_uniq ths →
  elems_ok s' (<[i := p']> ths) ∧ elems_uniq (<[i := p']> ths).
Proof.
  intros Hnone Hothers Huniq. split.
  - intros j q w Hq Hw. apply lookup_insert_cases in Hq as [[-> ->]|[Hne Hq]].
    + congruence.
    + by eapply Hothers.
  - intros j1 j2 q1 q2 w1 w2 Hq1 Hq2 Hw1 Hw2 Heq.
    apply lookup_insert_cases in Hq1 as [[-> ->]|[Hne1 Hq1]]; [congruence|].
    apply lookup_insert_cases in Hq2 as [[-> ->]|[Hne2 Hq2]]; [congruence|].
    by eapply Huniq.
Qed.

(** The goroutine that moves keeps its waiter. *)
Lemma elems_insert_same (ths : list pc) (i : nat) (p p' : pc) (s : state) :
  ths !! i = Some p → pc_elem p' = pc_elem p →
  elems_ok s ths → elems_uniq ths →
  elems_ok s (<[i := p']> ths) ∧ elems_uniq (<[i := p']> ths).
Proof.
  intros Hp Hsame Hok Huniq. split.
  - intros j q w Hq Hw. apply lookup_insert_cases in Hq as [[-> ->]|[Hne Hq]].
    + rewrite Hsame in Hw. by eapply Hok.
    + by eapply Hok.
  - intros j1 j2 q1 q2 w1 w2 Hq1 Hq2 Hw1 Hw2 Heq.
    apply lookup_insert_cases in Hq1 as [[-> ->]|[Hne1 Hq1]];
      apply lookup_insert_cases in Hq2 as [[-> ->]|[Hne2 Hq2]]; try done.
    + rewrite Hsame in Hw1. by eapply (Huniq i j2).
    + rewrite Hsame in Hw2. by eapply (Huniq j1 i).
    + by eapply Huniq.
Qed.

Lemma thread_step_inv (pick_ready : bool) (cx : gmap nat error) (ths : list pc)
    (i : nat) (p p' : pc) (s s' : state) :
  queue_ok s → elems_ok s ths → elems_uniq ths →
  ths !! i = Some p → thread_step pick_ready cx p s = Some (s', p') →
  queue_ok s' ∧ elems_ok s' (<[i := p']> ths) ∧ elems_uniq (<[i := p']> ths).
Proof.
  intros Hq Hok Huniq Hp Hstep.
  destruct p as [ctx k|ctx k|ctx w|ctx w e|k r|k|k ok|k|k|k]; simpl in Hstep; try done.
  - (* Acquire, first critical section *)
    unfold Acquire_enter in Hstep.
    destruct (_ && _) eqn:Hfast; [|destruct (k >? _) eqn:Hbig]; simplify_eq.
    + split; [by apply (queue_ok_ext s)|]. apply elems_insert_none; [done| |done].
      intros j q w _ Hj Hw. eapply elem_ok_ext; [by eapply Hok|done..].
    + split; [done|]. apply elems_insert_none; [done| |done].
      intros j q w _ Hj Hw. by eapply Hok.
    + split; [by apply queue_ok_push|]. split.
      * intros j q w Hj Hw. apply lookup_insert_cases in Hj as [[-> ->]|[Hne Hj]].
        -- simpl in Hw. simplify_eq. split; simpl; [lia|].
           rewrite elem_of_app, list_elem_of_singleton. by left; right.
        -- apply elem_ok_push. by eapply Hok.
      * intros j1 j2 q1 q2 w1 w2 Hq1 Hq2 Hw1 Hw2 Heq.
        apply lookup_insert_cases in Hq1 as [[-> ->]|[Hne1 Hq1]];
          apply lookup_insert_cases in Hq2 as [[-> ->]|[Hne2 Hq2]]; try done.
        -- simpl in Hw1. simplify_eq. destruct (Hok _ _ _ Hq2 Hw2) as [Hlt _].
           simpl in Heq. lia.
        -- simpl in Hw2. simplify_eq. destruct (Hok _ _ _ Hq1 Hw1) as [Hlt _].
           simpl in Heq. lia.
        -- by eapply Huniq.
  - (* Acquire, waiting for the context only *)
    destruct (cx !! ctx); simplify_eq/=.
    split; [done|]. apply elems_insert_none; [done| |done].
    intros j q w _ Hj Hw. by eapply Hok.
  - (* Acquire, the select *)
    destruct pick_ready.
    + destruct (bool_decide _); simplify_eq.
      split; [done|]. apply elems_insert_none; [done| |done].
      intros j q w' _ Hj Hw. by eapply Hok.
    + destruct (cx !! ctx); simplify_eq/=.
      split; [done|]. by eapply elems_insert_same.
  - (* Acquire, second critical section *)
    unfold Acquire_cancel in Hstep. destruct (bool_decide _); simplify_eq.
    + split; [done|]. apply elems_insert_none; [done| |done].
      intros j q w' _ Hj Hw. by eapply Hok.
    + assert (Hothers : ∀ j q w', j ≠ i → ths !! j = Some q → pc_elem q = Some w' →
                 elem_ok (mkState (mkWeighted (size (sem s)) (cur (sem s))
                                     (remove w (waiters (sem s)))) (closed s) (fresh s)) w').
      { intros j q w' Hne Hj Hw. apply elem_ok_remove; [|by eapply Hok].
        intros Heq. apply Hne. by eapply (Huniq j i). }
      destruct (_ && _).
      * split; [by apply queue_ok_notify, queue_ok_remove|].
        apply elems_insert_none; [done| |done].
        intros j q w' Hne Hj Hw. by eapply elem_ok_notify, Hothers.
      * split; [by apply queue_ok_remove|]. by apply elems_insert_none.
  - (* TryAcquire *)
    simplify_eq.
    destruct ((sub64 (size (sem s)) (cur (sem s)) >=? k)
              && (length (waiters (sem s)) =? 0)%nat).
    all: split; [by apply (queue_ok_ext s)|].
    all: apply elems_insert_none; [done| |done].
    all: intros j q w _ Hj Hw; eapply elem_ok_ext; [by eapply Hok|done..].
  - (* Release *)
    unfold Release in Hstep. destruct (_ <? 0); simplify_eq.
    + split; [by apply (queue_ok_ext s)|]. apply elems_insert_none; [done| |done].
      intros j q w _ Hj Hw. eapply elem_ok_ext; [by eapply Hok|done..].
    + split; [apply queue_ok_notify; by apply (queue_ok_ext s)|].
      apply elems_insert_none; [done| |done].
      intros j q w _ Hj Hw. apply elem_ok_notify.
      eapply elem_ok_ext; [by eapply Hok|done..].
Qed.

Lemma sys_inv_init (k : Z) : sys_inv (init k).
Proof.
  split; simpl.
  - split; simpl; [constructor|intros w Hw..|intros r Hr]; by apply elem_of_nil in Hw || apply elem_of_nil in Hr.
  - intros i p w Hp. by rewrite lookup_nil in Hp.
  - intros i j p q w w' Hp. by rewrite lookup_nil in Hp.
Qed.

Lemma is_call_no_elem (p : pc) : is_call p = true → pc_elem p = None.
Proof. by destruct p. Qed.

Lemma sys_inv_exec (ev : event) (c c' : config) :
  sys_inv c → exec ev c = Some c' → sys_inv c'.
Proof.
  intros [Hq Hok Huniq] Hex. destruct ev as [p|ctx e|i pick_ready]; simpl in Hex.
  - destruct (is_call p) eqn:Hcall; simplify_eq.
    apply is_call_no_elem in Hcall. split; simpl; [done|..].
    + intros i q w Hi Hw. apply lookup_app_Some in Hi as [Hi|[_ Hi]]; [by eapply Hok|].
      apply list_lookup_singleton_Some in Hi as [_ <-]. congruence.
    + intros i j q1 q2 w1 w2 Hi Hj Hw1 Hw2 Heq.
      apply lookup_app_Some in Hi as [Hi|[_ Hi]];
        [|apply list_lookup_singleton_Some in Hi as [_ <-]; congruence].
      apply lookup_app_Some in Hj as [Hj|[_ Hj]];
        [|apply list_lookup_singleton_Some in Hj as [_ <-]; congruence].
      by eapply Huniq.
  - destruct (ctxs c !! ctx); simplify_eq. by split.
  - destruct (threads c !! i) as [p|] eqn:Hp; simplify_eq/=.
    destruct (thread_step pick_ready (ctxs c) p (st c)) as [[s' p']|] eqn:Hstep;
      simplify_eq/=.
    destruct (thread_step_inv _ _ _ _ _ _ _ _ Hq Hok Huniq Hp Hstep) as (? & ? & ?).
    by split.
Qed.

Lemma sys_inv_reachable (k : Z) (c : config) : reachable (init k) c → sys_inv c.
Proof.
  intros [evs Hevs]. revert Hevs. generalize (sys_inv_init k).
  generalize (init k). induction evs as [|ev evs IH]; intros c0 H0 Hr.
  - by simplify_eq/=.
  - simpl in Hr. destruct (exec ev c0) as [c1|] eqn:Hex; [|done].
    eapply IH; [|exact Hr]. by eapply sys_inv_exec.
Qed.






(** *** Proper use keeps the semaphore well formed *)

Lemma wf_intro (sz c : Z) (ws : list waiter) :
  0 ≤ c ≤ sz → sz < 2 ^ 63 → Forall (λ w, 0 ≤ n w < 2 ^ 63) ws →
  wf (mkWeighted sz c ws).
Proof. intros. split; [split|]; done. Qed.

Lemma wf_notifyWaiters (s : state) : wf (sem s) → wf (sem (notifyWaiters s)).
Proof.
  intros [[Hc Hsz] Hws]. destruct s as [[sz c ws] cl f]; simpl in *.
  destruct (notify_spec sz ws c cl Hc Hsz Hws)
    as (g & rest & -> & Hn & Hle & Hpos & _).
  unfold notifyWaiters. simpl. rewrite Hn. simpl.
  apply Forall_app in Hws as [_ Hrest]. apply wf_intro; [lia|done..].
Qed.

Lemma thread_step_weight (pick_ready : bool) (cx : gmap nat error) (p p' : pc)
    (s s' : state) :
  thread_step pick_ready cx p s = Some (s', p') →
  pc_weight p' = pc_weight p ∧ ∀ k, p ≠ ReleasePanicked k.
Proof.
  intros Hstep. split; [|by destruct p].
  destruct p as [ctx k|ctx k|ctx w|ctx w e|k r|k|k ok|k|k|k]; simpl in Hstep; try done.
  - unfold Acquire_enter in Hstep.
    destruct (_ && _); [|destruct (k >? _)]; by simplify_eq.
  - destruct (cx !! ctx); by simplify_eq/=.
  - destruct pick_ready; [destruct (bool_decide _)|destruct (cx !! ctx)]; by simplify_eq/=.
  - destruct (Acquire_cancel w e s). by simplify_eq.
  - by simplify_eq.
  - destruct (Release k s); by simplify_eq.
Qed.

Lemma thread_step_wf (pick_ready : bool) (cx : gmap nat error) (p p' : pc) (s s' : state) :
  wf (sem s) → pc_fine p' →
  thread_step pick_ready cx p s = Some (s', p') → wf (sem s').
Proof.
  intros Hwf [Hk' Hnp] Hstep.
  destruct (thread_step_weight _ _ _ _ _ _ Hstep) as [Hw _]. rewrite Hw in Hk'.
  clear Hw. pose proof Hwf as [[Hc Hsz] Hws].
  assert (Hsub : sub64 (size (sem s)) (cur (sem s)) = size (sem s) - cur (sem s))
    by (by apply sub64_in_range).
  assert (Hpush : ∀ k, 0 ≤ k < 2 ^ 63 →
            Forall (λ w, 0 ≤ n w < 2 ^ 63) (waiters (sem s) ++ [mkWaiter k (fresh s)])).
  { intros k Hk. apply Forall_app. split; [done|]. apply Forall_singleton. done. }
  destruct p as [ctx k|ctx k|ctx w|ctx w e|k r|k|k ok|k|k|k]; simpl in *; try done.
  - unfold Acquire_enter in Hstep. rewrite Hsub in Hstep.
    destruct (Z.geb_spec (size (sem s) - cur (sem s)) k) as [Hfit|Hnofit]; simpl in Hstep;
      [destruct (length (waiters (sem s)) =? 0)%nat; simpl in Hstep|].
    + simplify_eq. simpl. unfold add64.
      rewrite (wrap64_id (cur (sem s) + k)) by (unfold int64; lia).
      apply wf_intro; [lia|done..].
    + destruct (k >? size (sem s)); simplify_eq; [done|]. simpl.
      apply wf_intro; [done..|]. by apply Hpush.
    + destruct (k >? size (sem s)); simplify_eq; [done|]. simpl.
      apply wf_intro; [done..|]. by apply Hpush.
  - destruct (cx !! ctx); by simplify_eq/=.
  - destruct pick_ready; [destruct (bool_decide _)|destruct (cx !! ctx)]; by simplify_eq/=.
  - unfold Acquire_cancel in Hstep. destruct (bool_decide _); simplify_eq; [done|].
    assert (Hrm : wf (mkWeighted (size (sem s)) (cur (sem s)) (remove w (waiters (sem s))))).
    { apply wf_intro; [done..|]. rewrite Forall_forall in Hws. apply Forall_forall.
      intros w' [_ Hin]%list_elem_of_filter. by apply Hws. }
    destruct (_ && _); [|done]. by apply (wf_notifyWaiters (mkState _ _ _)).
  - simplify_eq. simpl. rewrite Hsub.
    destruct (Z.geb_spec (size (sem s) - cur (sem s)) k) as [Hfit|Hnofit]; simpl;
      [destruct (length (waiters (sem s)) =? 0)%nat; simpl|]; try done.
    unfold add64. rewrite (wrap64_id (cur (sem s) + k)) by (unfold int64; lia).
    apply wf_intro; [lia|done..].
  - unfold Release, sub64 in Hstep.
    rewrite (wrap64_id (cur (sem s) - k)) in Hstep by (unfold int64; lia).
    destruct (Z.ltb_spec (cur (sem s) - k) 0) as [Hneg|Hpos]; simplify_eq.
    + by destruct (Hnp k).
    + apply (wf_notifyWaiters (mkState _ _ _)). apply wf_intro; [simpl; lia|done..].
Qed.

Lemma exec_fine_back (ev : event) (c c' : config) :
  exec ev c = Some c' → Forall pc_fine (threads c') → Forall pc_fine (threads c).
Proof.
  intros Hex Hf. destruct ev as [p|ctx e|i pick_ready]; simpl in Hex.
  - destruct (is_call p); simplify_eq. simpl in Hf. by apply Forall_app in Hf as [Hf _].
  - destruct (ctxs c !! ctx); by simplify_eq.
  - destruct (threads c !! i) as [p|] eqn:Hp; simplify_eq/=.
    destruct (thread_step pick_ready (ctxs c) p (st c)) as [[s' p']|] eqn:Hstep;
      simplify_eq/=.
    rewrite Forall_lookup in Hf. apply Forall_lookup. intros j q Hj.
    destruct (decide (j = i)) as [->|Hne].
    + simplify_eq. destruct (thread_step_weight _ _ _ _ _ _ Hstep) as [Hw Hnp].
      destruct (Hf i p') as [Hk _].
      { apply list_lookup_insert_eq. by eapply lookup_lt_Some. }
      split; [by rewrite <- Hw | done].
    + apply (Hf j). by rewrite list_lookup_insert_ne.
Qed.

Lemma exec_wf (ev : event) (c c' : config) :
  wf (sem (st c)) → exec ev c = Some c' → Forall pc_fine (threads c') →
  wf (sem (st c')).
Proof.
  intros Hwf Hex Hf. destruct ev as [p|ctx e|i pick_ready]; simpl in Hex.
  - destruct (is_call p); by simplify_eq.
  - destruct (ctxs c !! ctx); by simplify_eq.
  - destruct (threads c !! i) as [p|] eqn:Hp; simplify_eq/=.
    destruct (thread_step pick_ready (ctxs c) p (st c)) as [[s' p']|] eqn:Hstep;
      simplify_eq/=.
    eapply thread_step_wf; [done| |done].
    rewrite Forall_lookup in Hf. apply (Hf i).
    apply list_lookup_insert_eq. by eapply lookup_lt_Some.
Qed.

Lemma run_fine_back (evs : list event) (c c' : config) :
  run evs c = Some c' → Forall pc_fine (threads c') → Forall pc_fine (threads c).
Proof.
  revert c; induction evs as [|ev evs IH]; intros c Hr Hf; [by simplify_eq/=|].
  simpl in Hr. destruct (exec ev c) as [c1|] eqn:Hex; [|done].
  eapply exec_fine_back; [done|]. by eapply IH.
Qed.

(** A semaphore made with a capacity that is not negative, called with
    weights that are not negative and never released beyond what is held,
    is well formed in every state it reaches. *)
Lemma wf_reachable (sz : Z) (c : config) :
  0 ≤ sz < 2 ^ 63 → reachable (init sz) c → Forall pc_fine (threads c) →
  wf (sem (st c)).
Proof.
  intros Hsz [evs Hevs] Hf.
  assert (H0 : wf (sem (st (init sz)))).
  { apply wf_intro; [lia..|constructor]. }
  revert Hevs H0. generalize (init sz).
  induction evs as [|ev evs IH]; intros c0 Hr H0; [by simplify_eq/=|].
  simpl in Hr. destruct (exec ev c0) as [c1|] eqn:Hex; [|done].
  eapply IH; [done|]. eapply exec_wf; [done..|]. by eapply run_fine_back.
Qed.

(** *** More on the operations *)

(** *** Single operations *)

Lemma notify_stable (sz : Z) (ws : list waiter) (c : Z) (cl : list nat) :
  notify sz (notify sz ws c cl).1.2 (notify sz ws c cl).1.1 (notify sz ws c cl).2
  = notify sz ws c cl.
Proof.
  revert c cl; induction ws as [|w ws IH]; intros c cl; simpl; [done|].
  destruct (sub64 sz c <? n w) eqn:Hlt; simpl; [by rewrite Hlt | apply IH].
Qed.

Lemma notifyWaiters_nil (s : state) : waiters (sem s) = [] → notifyWaiters s = s.
Proof. destruct s as [[sz c ws] cl f]; simpl. by intros ->. Qed.

(** X4. On a semaphore whose allocated weight lies between zero and the
    capacity, [Release k] with [k] not negative panics exactly when [k] is
    more than is allocated.  The panic leaves the counter decremented, below
    zero, wakes nobody, and leaves more free capacity than the semaphore
    has. *)
Theorem Release_beyond_held_panics (s : state) (k : Z) :
  in_range (sem s) → 0 ≤ k < 2 ^ 63 →
  ((∃ s1, Release k s = ReleasePanic s1) ↔ cur (sem s) < k)
  ∧ (cur (sem s) < k →
       Release k s
       = ReleasePanic (mkState (mkWeighted (size (sem s)) (cur (sem s) - k) (waiters (sem s)))
                         (closed s) (fresh s)))
  ∧ (∀ s1, Release k s = ReleasePanic s1 →
       cur (sem s1) < 0 ∧ waiters (sem s1) = waiters (sem s) ∧ closed s1 = closed s
       ∧ size (sem s) < size (sem s1) - cur (sem s1)).
Proof.
  intros [Hc Hsz] Hk. unfold Release, sub64.
  rewrite (wrap64_id (cur (sem s) - k)) by (unfold int64; lia).
  destruct (Z.ltb_spec (cur (sem s) - k) 0) as [Hneg|Hpos].
  - split; [split; [lia | by eexists]|]. split; [done|].
    intros s1 [= <-]. simpl. repeat split; try done; lia.
  - split; [split; [by intros [s1 ?] | lia]|]. split; [lia | done].
Qed.

Lemma Release_beyond_held_panics_witness :
  Release 3 (mkState (mkWeighted 5 2 [mkWaiter 4 0]) [] 1)
  = ReleasePanic (mkState (mkWeighted 5 (2 - 3) [mkWaiter 4 0]) [] 1).
Proof.
  refine (proj1 (proj2 (Release_beyond_held_panics
    (mkState (mkWeighted 5 2 [mkWaiter 4 0]) [] 1) 3 _ _)) _).
  - unfold in_range; simpl; lia.
  - lia.
  - simpl; lia.
Defined.

(** X5. With nobody queued and [k] within the free capacity, [Acquire k]
    and [TryAcquire k] both succeed at once, with the same effect, and
    [Release k] then gives back the state from before the call. *)
Theorem Acquire_then_Release_restores (s : state) (k : Z) :
  in_range (sem s) → 0 ≤ k ≤ size (sem s) - cur (sem s) → waiters (sem s) = [] →
  ∃ s1, Acquire_enter k s = (s1, Granted)
        ∧ TryAcquire k (sem s) = (sem s1, true)
        ∧ Release k s1 = Released s.
Proof.
  intros Hm Hk Hw. pose proof Hm as [Hc Hsz].
  unfold Acquire_enter, TryAcquire. rewrite sub64_in_range, Hw by done. simpl.
  replace (size (sem s) - cur (sem s) >=? k) with true
    by (symmetry; apply Z.geb_le; lia).
  simpl. rewrite add64_fits by (done || unfold int64; lia).
  eexists. split; [done|]. split; [done|].
  unfold Release, sub64. simpl.
  rewrite (wrap64_id (cur (sem s) + k - k)) by (unfold int64; lia).
  replace (cur (sem s) + k - k <? 0) with false by (symmetry; apply Z.ltb_ge; lia).
  rewrite notifyWaiters_nil by done.
  destruct s as [[sz c ws] cl f]; simpl in *. subst ws. do 3 f_equal. lia.
Qed.

Lemma Acquire_then_Release_restores_witness :
  ∃ s1, Acquire_enter 2 (mkState (mkWeighted 5 3 []) [7%nat] 8) = (s1, Granted)
        ∧ TryAcquire 2 (mkWeighted 5 3 []) = (sem s1, true)
        ∧ Release 2 s1 = Released (mkState (mkWeighted 5 3 []) [7%nat] 8).
Proof.
  apply (Acquire_then_Release_restores (mkState (mkWeighted 5 3 []) [7%nat] 8) 2).
  - unfold in_range; simpl; lia.
  - simpl; lia.
  - reflexivity.
Defined.

(** X6. Re-evaluating the queue a second time changes nothing, whatever
    the numbers are: the loop of [notifyWaiters] stops only at an empty
    queue or at a waiter that does not fit, and it stops there again. *)
Theorem notifyWaiters_twice_is_once (s : state) :
  notifyWaiters (notifyWaiters s) = notifyWaiters s.
Proof.
  unfold notifyWaiters.
  pose proof (notify_stable (size (sem s)) (waiters (sem s)) (cur (sem s)) (closed s)) as H.
  destruct (notify (size (sem s)) (waiters (sem s)) (cur (sem s)) (closed s))
    as [[c ws] cl]. simpl in *. by rewrite H.
Qed.

(** X7. A request within the capacity that does not fit now, or that
    arrives while others are queued, is pushed at the back of the queue
    with a new channel and nothing else changes; its goroutine cannot move
    while that channel is open and its context is not done, and returns
    [nil] once the channel is closed. *)
Theorem Acquire_queues_behind_waiters
    (s : state) (ctx : nat) (k : Z) (cx : gmap nat error) (pick_ready : bool) :
  in_range (sem s) → int64 k → k ≤ size (sem s) →
  size (sem s) - cur (sem s) < k ∨ waiters (sem s) ≠ [] →
  thread_step pick_ready cx (AcquireCall ctx k) s
  = Some (mkState (mkWeighted (size (sem s)) (cur (sem s))
                     (waiters (sem s) ++ [mkWaiter k (fresh s)]))
            (closed s) (S (fresh s)),
          AcquireSelect ctx (mkWaiter k (fresh s)))
  ∧ (∀ s2 pick, fresh s ∉ closed s2 → cx !! ctx = None →
       thread_step pick cx (AcquireSelect ctx (mkWaiter k (fresh s))) s2 = None)
  ∧ (∀ s2, fresh s ∈ closed s2 →
       thread_step true cx (AcquireSelect ctx (mkWaiter k (fresh s))) s2
       = Some (s2, AcquireReturn k None)).
Proof.
  intros Hm Hk Hle Hwait. split; [|split].
  - simpl. unfold Acquire_enter. rewrite sub64_in_range by done.
    replace ((size (sem s) - cur (sem s) >=? k) && (length (waiters (sem s)) =? 0)%nat)
      with false.
    + replace (k >? size (sem s)) with false; [done|].
      symmetry. apply not_true_is_false. rewrite Z.gtb_lt. lia.
    + symmetry. apply andb_false_iff. destruct Hwait as [Hlt|Hne].
      * left. apply not_true_is_false. rewrite Z.geb_le. lia.
      * right. apply Nat.eqb_neq. by destruct (waiters (sem s)).
  - intros s2 pick Hopen Hcx. simpl. destruct pick.
    + by rewrite bool_decide_eq_false_2.
    + by rewrite Hcx.
  - intros s2 Hcl. simpl. by rewrite bool_decide_eq_true_2.
Qed.

Lemma Acquire_queues_behind_waiters_witness :
  thread_step true ∅ (AcquireCall 0 1) (mkState (mkWeighted 5 3 [mkWaiter 4 0]) [] 1)
  = Some (mkState (mkWeighted 5 3 [mkWaiter 4 0; mkWaiter 1 1]) [] 2,
          AcquireSelect 0 (mkWaiter 1 1)).
Proof.
  refine (proj1 (Acquire_queues_behind_waiters
    (mkState (mkWeighted 5 3 [mkWaiter 4 0]) [] 1) 0 1 ∅ true _ _ _ _)).
  - unfold in_range; simpl; lia.
  - unfold int64; lia.
  - simpl; lia.
  - right. simpl. discriminate.
Defined.

(** X8. When the waiter at the front is cancelled while the semaphore is
    full, the queue is not re-evaluated; a request of weight zero right
    behind it is then at the front and fits, and yet its channel stays
    open. *)
Theorem zero_weight_waiter_can_be_left_waiting
    (s : state) (elem w0 : waiter) (rest : list waiter) (err : error) :
  waiters (sem s) = elem :: w0 :: rest → ready w0 ≠ ready elem →
  ready elem ∉ closed s → ready w0 ∉ closed s →
  n w0 = 0 → cur (sem s) = size (sem s) →
  (Acquire_cancel elem err s).1
  = mkState (mkWeighted (size (sem s)) (cur (sem s)) (w0 :: remove elem rest))
      (closed s) (fresh s)
  ∧ n w0 ≤ size (sem s) - cur (sem s)
  ∧ ready w0 ∉ closed (Acquire_cancel elem err s).1.
Proof.
  intros Hws Hne Hopen Hopen0 Hz Hfull. unfold Acquire_cancel.
  rewrite bool_decide_eq_false_2 by done. rewrite Hws. simpl.
  rewrite bool_decide_eq_true_2 by done. simpl.
  replace (size (sem s) >? cur (sem s)) with false
    by (symmetry; apply not_true_is_false; rewrite Z.gtb_lt; lia).
  simpl. unfold remove. rewrite filter_cons_False by (intros H; by apply H).
  rewrite filter_cons_True by done.
  split; [done|]. simpl. split; [lia | done].
Qed.

Lemma zero_weight_waiter_can_be_left_waiting_witness :
  (Acquire_cancel (mkWaiter 1 0) "context canceled"%string
     (mkState (mkWeighted 1 1 [mkWaiter 1 0; mkWaiter 0 1]) [] 2)).1
  = mkState (mkWeighted 1 1 (mkWaiter 0 1 :: remove (mkWaiter 1 0) [])) [] 2
    ∧ 0 ≤ 1 - 1
    ∧ 1%nat ∉ closed (Acquire_cancel (mkWaiter 1 0) "context canceled"%string
                        (mkState (mkWeighted 1 1 [mkWaiter 1 0; mkWaiter 0 1]) [] 2)).1.
Proof.
  apply (zero_weight_waiter_can_be_left_waiting
    (mkState (mkWeighted 1 1 [mkWaiter 1 0; mkWaiter 0 1]) [] 2)
    (mkWaiter 1 0) (mkWaiter 0 1) [] "context canceled"%string).
  - reflexivity.
  - simpl; lia.
  - simpl. by intros H%elem_of_nil.
  - simpl. by intros H%elem_of_nil.
  - reflexivity.
  - reflexivity.
Defined.

(** *** Invariants of every reachable state *)

Lemma sem_run_snoc (evs : list event) (ev : event) (c : config) :
  run (evs ++ [ev]) c = run evs c ≫= exec ev.
Proof.
  revert c; induction evs as [|e evs IH]; intros c; simpl.
  - by destruct (exec ev c).
  - destruct (exec e c); simpl; [apply IH | done].
Qed.

(** Induction over the states a semaphore reaches. *)
Lemma reachable_inv (P : config → Prop) (k : Z) (c : config) :
  P (init k) →
  (∀ ev c1 c2, reachable (init k) c1 → P c1 → exec ev c1 = Some c2 → P c2) →
  reachable (init k) c → P c.
Proof.
  intros H0 Hstep [evs Hevs]. revert c Hevs.
  induction evs as [|ev evs IH] using rev_ind; intros c Hevs.
  - by simplify_eq/=.
  - rewrite sem_run_snoc in Hevs.
    destruct (run evs (init k)) as [c1|] eqn:Hc1; [|done]. simpl in Hevs.
    eapply Hstep; [by exists evs | by apply IH | done].
Qed.

Lemma notifyWaiters_Forall (P : waiter → Prop) (s : state) :
  Forall P (waiters (sem s)) → Forall P (waiters (sem (notifyWaiters s))).
Proof.
  destruct (notifyWaiters_prefix s) as (g & Hg & _). intros H.
  rewrite Hg in H. by apply Forall_app in H as [_ ?].
Qed.

Lemma remove_Forall (P : waiter → Prop) (elem : waiter) (ws : list waiter) :
  Forall P ws → Forall P (remove elem ws).
Proof.
  rewrite !Forall_forall. intros H w [_ Hin]%list_elem_of_filter. by apply H.
Qed.

Lemma notifyWaiters_front (s : state) : wf (sem s) → front_blocked (sem (notifyWaiters s)).
Proof.
  intros [[Hc Hsz] Hws]. destruct s as [[sz c ws] cl f]; simpl in *.
  destruct (notify_spec sz ws c cl Hc Hsz Hws)
    as (g & rest & -> & Hn & Hle & Hpos & Hfit & Hstop).
  unfold notifyWaiters, front_blocked. simpl. rewrite Hn. simpl.
  intros w rest' ->. by eapply Hstop.
Qed.

Lemma thread_step_kind (pick_ready : bool) (cx : gmap nat error) (p p' : pc)
    (s s' : state) :
  thread_step pick_ready cx p s = Some (s', p') → is_acquire p' = is_acquire p.
Proof.
  intros Hstep.
  destruct p as [ctx k|ctx k|ctx w|ctx w e|k r|k|k ok|k|k|k]; simpl in Hstep; try done.
  - unfold Acquire_enter in Hstep.
    destruct (_ && _); [|destruct (k >? _)]; by simplify_eq.
  - destruct (cx !! ctx); by simplify_eq/=.
  - destruct pick_ready; [destruct (bool_decide _)|destruct (cx !! ctx)]; by simplify_eq/=.
  - destruct (Acquire_cancel w e s). by simplify_eq.
  - by simplify_eq.
  - destruct (Release k s); by simplify_eq.
Qed.

Lemma exec_positive_back (ev : event) (c c' : config) :
  exec ev c = Some c' → Forall pc_positive (threads c') → Forall pc_positive (threads c).
Proof.
  intros Hex Hf. destruct ev as [p|ctx e|i pick_ready]; simpl in Hex.
  - destruct (is_call p); simplify_eq. simpl in Hf. by apply Forall_app in Hf as [Hf _].
  - destruct (ctxs c !! ctx); by simplify_eq.
  - destruct (threads c !! i) as [p|] eqn:Hp; simplify_eq/=.
    destruct (thread_step pick_ready (ctxs c) p (st c)) as [[s' p']|] eqn:Hstep;
      simplify_eq/=.
    rewrite Forall_lookup in Hf. apply Forall_lookup. intros j q Hj.
    destruct (decide (j = i)) as [->|Hne].
    + simplify_eq. destruct (thread_step_weight _ _ _ _ _ _ Hstep) as [Hw _].
      pose proof (thread_step_kind _ _ _ _ _ _ Hstep) as Hk.
      assert (Hpos : pc_positive p').
      { apply (Hf i). apply list_lookup_insert_eq. by eapply lookup_lt_Some. }
      unfold pc_positive in *. by rewrite <- Hw, <- Hk.
    + apply (Hf j). by rewrite list_lookup_insert_ne.
Qed.

(** One step keeps the capacity, and keeps the queued requests within it. *)
Lemma thread_step_bound (pick_ready : bool) (cx : gmap nat error) (p p' : pc)
    (s s' : state) :
  thread_step pick_ready cx p s = Some (s', p') →
  size (sem s') = size (sem s)
  ∧ (Forall (λ w, n w ≤ size (sem s)) (waiters (sem s)) →
     Forall (λ w, n w ≤ size (sem s)) (waiters (sem s'))).
Proof.
  intros Hstep.
  destruct p as [ctx k|ctx k|ctx w|ctx w e|k r|k|k ok|k|k|k]; simpl in Hstep; try done.
  - unfold Acquire_enter in Hstep.
    destruct (_ && _); [|destruct (Z.gtb_spec k (size (sem s)))]; simplify_eq; simpl;
      try done.
    split; [done|]. intros Hws. apply Forall_app. split; [done|].
    by apply Forall_singleton.
  - destruct (cx !! ctx); by simplify_eq/=.
  - destruct pick_ready; [destruct (bool_decide _)|destruct (cx !! ctx)]; by simplify_eq/=.
  - unfold Acquire_cancel in Hstep. destruct (bool_decide _); simplify_eq; [done|].
    destruct (_ && _).
    + match goal with |- context [notifyWaiters ?s1] =>
        destruct (notifyWaiters_prefix s1) as (g & _ & _ & _ & Hsz) end.
      split; [done|]. intros Hws.
      apply (notifyWaiters_Forall _ (mkState _ _ _)). simpl. by apply remove_Forall.
    + split; [done|]. simpl. by apply remove_Forall.
  - simplify_eq. simpl. by destruct (_ && _).
  - unfold Release in Hstep. destruct (_ <? 0); simplify_eq; [done|].
    match goal with |- context [notifyWaiters ?s1] =>
      destruct (notifyWaiters_prefix s1) as (g & _ & _ & _ & Hsz) end.
    split; [done|]. intros Hws. by apply (notifyWaiters_Forall _ (mkState _ _ _)).
Qed.

(** One step of proper use with no request of weight zero keeps the front
    of the queue blocked. *)
Lemma thread_step_front (pick_ready : bool) (cx : gmap nat error) (p p' : pc)
    (s s' : state) :
  wf (sem s) → Forall (λ w, 0 < n w) (waiters (sem s)) → front_blocked (sem s) →
  pc_fine p' → pc_positive p' →
  thread_step pick_ready cx p s = Some (s', p') →
  Forall (λ w, 0 < n w) (waiters (sem s')) ∧ front_blocked (sem s').
Proof.
  intros Hwf Hpos Hfront [Hk' Hnp] Hpp Hstep.
  destruct (thread_step_weight _ _ _ _ _ _ Hstep) as [Hw _]. rewrite Hw in Hk'.
  clear Hw. pose proof Hwf as [[Hc Hsz] Hws].
  assert (Hsub : sub64 (size (sem s)) (cur (sem s)) = size (sem s) - cur (sem s))
    by (by apply sub64_in_range).
  destruct p as [ctx k|ctx k|ctx w|ctx w e|k r|k|k ok|k|k|k]; simpl in Hstep; try done.
  - unfold Acquire_enter in Hstep. rewrite Hsub in Hstep.
    destruct ((size (sem s) - cur (sem s) >=? k) && (length (waiters (sem s)) =? 0)%nat)
      eqn:Hfast.
    + apply andb_true_iff in Hfast as [_ Hnil%Nat.eqb_eq%length_zero_iff_nil].
      simplify_eq. simpl. rewrite Hnil. split; [constructor | by intros w rest].
    + destruct (k >? size (sem s)); simplify_eq; [done|]. simpl. split.
      * apply Forall_app. split; [done|]. apply Forall_singleton. by apply Hpp.
      * intros w rest Heq. simpl in *.
        destruct (waiters (sem s)) as [|w0 ws0] eqn:Hq; simplify_eq/=.
        -- rewrite andb_true_r in Hfast. apply not_true_iff_false in Hfast.
           rewrite Z.geb_le in Hfast. lia.
        -- by eapply Hfront.
  - destruct (cx !! ctx); by simplify_eq/=.
  - destruct pick_ready; [destruct (bool_decide _)|destruct (cx !! ctx)]; by simplify_eq/=.
  - unfold Acquire_cancel in Hstep. destruct (bool_decide _); simplify_eq; [done|].
    assert (Hrm : wf (mkWeighted (size (sem s)) (cur (sem s)) (remove w (waiters (sem s))))).
    { apply wf_intro; [done..|]. by apply remove_Forall. }
    destruct (is_front w (waiters (sem s)) && (size (sem s) >? cur (sem s))) eqn:Hb.
    + split; [|by apply (notifyWaiters_front (mkState _ _ _))].
      apply (notifyWaiters_Forall _ (mkState _ _ _)). simpl. by apply remove_Forall.
    + simpl. split; [by apply remove_Forall|].
      intros w' rest Heq. simpl in *.
      destruct (waiters (sem s)) as [|w0 ws0] eqn:Hq; [done|].
      simpl in Hb. destruct (bool_decide (ready w0 = ready w)) eqn:Hf; simpl in Hb.
      * assert (Hin : w' ∈ remove w (w0 :: ws0)) by (rewrite Heq; left).
        apply list_elem_of_filter in Hin as [_ Hin].
        rewrite Forall_forall in Hpos. specialize (Hpos _ Hin).
        apply not_true_iff_false in Hb. rewrite Z.gtb_lt in Hb. lia.
      * apply bool_decide_eq_false in Hf. unfold remove in Heq.
        rewrite filter_cons_True in Heq by done. simplify_eq. by eapply Hfront.
  - simplify_eq. simpl.
    destruct ((sub64 (size (sem s)) (cur (sem s)) >=? k)
              && (length (waiters (sem s)) =? 0)%nat) eqn:Hfast; [|done].
    apply andb_true_iff in Hfast as [_ Hnil%Nat.eqb_eq%length_zero_iff_nil].
    simpl. rewrite Hnil. split; [constructor | by intros w rest].
  - unfold Release, sub64 in Hstep. simpl in Hk'.
    rewrite (wrap64_id (cur (sem s) - k)) in Hstep by (unfold int64; lia).
    destruct (Z.ltb_spec (cur (sem s) - k) 0) as [Hneg|Hnn]; simplify_eq.
    + by destruct (Hnp k).
    + split; [by apply (notifyWaiters_Forall _ (mkState _ _ _))|].
      apply (notifyWaiters_front (mkState _ _ _)). apply wf_intro; [simpl; lia|done..].
Qed.

Lemma bound_reachable (sz : Z) (c : config) :
  reachable (init sz) c →
  size (sem (st c)) = sz ∧ Forall (λ w, n w ≤ sz) (waiters (sem (st c))).
Proof.
  apply (reachable_inv (λ c, size (sem (st c)) = sz
                             ∧ Forall (λ w, n w ≤ sz) (waiters (sem (st c))))).
  { by split. }
  intros ev c1 c2 _ [Hs Hws] Hex. destruct ev as [p|ctx e|i pick_ready]; simpl in Hex.
  - destruct (is_call p); by simplify_eq.
  - destruct (ctxs c1 !! ctx); by simplify_eq.
  - destruct (threads c1 !! i) as [p|] eqn:Hp; simplify_eq/=.
    destruct (thread_step pick_ready (ctxs c1) p (st c1)) as [[s' p']|] eqn:Hstep;
      simplify_eq/=.
    destruct (thread_step_bound _ _ _ _ _ _ Hstep) as [Hs' Hws']. split; [done|].
    by apply Hws'.
Qed.

(** X9. A semaphore made with a capacity that is not negative, called with
    weights that are not negative and never released beyond what is held:
    in every state it reaches the capacity is the one it was made with, the
    allocated weight lies between zero and the capacity, and every queued
    request lies between zero and the capacity. *)
Theorem semaphore_is_never_overcommitted (sz : Z) (c : config) :
  0 ≤ sz < 2 ^ 63 → reachable (init sz) c → Forall pc_fine (threads c) →
  size (sem (st c)) = sz
  ∧ 0 ≤ cur (sem (st c)) ≤ sz
  ∧ Forall (λ w, 0 ≤ n w ≤ sz) (waiters (sem (st c))).
Proof.
  intros Hsz Hr Hf. destruct (bound_reachable _ _ Hr) as [Hs Hws].
  destruct (wf_reachable sz c Hsz Hr Hf) as [[Hc _] Hpos].
  rewrite Hs in Hc. split; [done|]. split; [done|].
  rewrite Forall_forall in Hws, Hpos. apply Forall_forall. intros w Hw.
  specialize (Hws _ Hw). specialize (Hpos _ Hw). simpl in *. lia.
Qed.

Lemma semaphore_is_never_overcommitted_witness :
  size (sem (st cancel_demo_config)) = 2
  ∧ 0 ≤ cur (sem (st cancel_demo_config)) ≤ 2
  ∧ Forall (λ w, 0 ≤ n w ≤ 2) (waiters (sem (st cancel_demo_config))).
Proof.
  apply (semaphore_is_never_overcommitted 2 cancel_demo_config).
  - lia.
  - exists cancel_demo. reflexivity.
  - repeat constructor; simpl; try lia; by intros k.
Defined.

(** X10. Under the same proper use, when no call of [Acquire] asks for a
    weight of zero: in every state the semaphore reaches, the waiter at the
    front of the queue does not fit in the free capacity.  No wake-up is
    missed. *)
Theorem front_waiter_never_fits (sz : Z) (c : config) :
  0 ≤ sz < 2 ^ 63 → reachable (init sz) c →
  Forall pc_fine (threads c) → Forall pc_positive (threads c) →
  ∀ w rest, waiters (sem (st c)) = w :: rest →
    size (sem (st c)) - cur (sem (st c)) < n w.
Proof.
  intros Hsz Hr Hf Hp.
  cut (Forall (λ w, 0 < n w) (waiters (sem (st c))) ∧ front_blocked (sem (st c))).
  { intros [_ Hfront]. exact Hfront. }
  revert Hf Hp. revert Hr.
  apply (reachable_inv (λ c, Forall pc_fine (threads c) → Forall pc_positive (threads c) →
           Forall (λ w, 0 < n w) (waiters (sem (st c))) ∧ front_blocked (sem (st c)))).
  { intros _ _. split; [constructor | by intros w rest]. }
  intros ev c1 c2 Hr1 IH Hex Hf Hp.
  pose proof (exec_fine_back _ _ _ Hex Hf) as Hf1.
  pose proof (exec_positive_back _ _ _ Hex Hp) as Hp1.
  destruct (IH Hf1 Hp1) as [Hpos Hfront].
  pose proof (wf_reachable sz c1 Hsz Hr1 Hf1) as Hwf.
  destruct ev as [p|ctx e|i pick_ready]; simpl in Hex.
  - destruct (is_call p); by simplify_eq.
  - destruct (ctxs c1 !! ctx); by simplify_eq.
  - destruct (threads c1 !! i) as [p|] eqn:Hi; simplify_eq/=.
    destruct (thread_step pick_ready (ctxs c1) p (st c1)) as [[s' p']|] eqn:Hstep;
      simplify_eq/=.
    assert (Hi' : <[i := p']> (threads c1) !! i = Some p').
    { apply list_lookup_insert_eq. by eapply lookup_lt_Some. }
    rewrite Forall_lookup in Hf, Hp.
    eapply thread_step_front; [done..|by eapply Hf|by eapply Hp|done].
Qed.

Lemma front_waiter_never_fits_witness :
  size (sem (st cancel_demo_config)) - cur (sem (st cancel_demo_config)) < 1.
Proof.
  refine (front_waiter_never_fits 2 cancel_demo_config _ _ _ _ (mkWaiter 1 0) [] eq_refl).
  - lia.
  - exists cancel_demo. reflexivity.
  - repeat constructor; simpl; try lia; by intros k.
  - repeat constructor; simpl; intros _; lia.
Defined.

(** *** The channels are closed once *)

Lemma notifyWaiters_closed_nodup (s : state) :
  queue_ok s → NoDup (closed s) → NoDup (closed (notifyWaiters s)).
Proof.
  intros [Hnd Hfr Hop Hcl] Hc. destruct (notifyWaiters_prefix s) as (g & Hg & Hcl' & _).
  rewrite Hcl'. apply NoDup_app. split; [done|]. split.
  - intros r Hr Hin. apply list_elem_of_fmap in Hin as (w & -> & Hw).
    eapply Hop; [|done]. rewrite Hg, elem_of_app. by left.
  - rewrite Hg, fmap_app in Hnd. by apply NoDup_app in Hnd as (? & _).
Qed.

Lemma thread_step_closed_nodup (pick_ready : bool) (cx : gmap nat error) (p p' : pc)
    (s s' : state) :
  queue_ok s → NoDup (closed s) →
  thread_step pick_ready cx p s = Some (s', p') → NoDup (closed s').
Proof.
  intros Hq Hnd Hstep.
  destruct p as [ctx k|ctx k|ctx w|ctx w e|k r|k|k ok|k|k|k]; simpl in Hstep; try done.
  - unfold Acquire_enter in Hstep.
    destruct (_ && _); [|destruct (k >? _)]; by simplify_eq.
  - destruct (cx !! ctx); by simplify_eq/=.
  - destruct pick_ready; [destruct (bool_decide _)|destruct (cx !! ctx)]; by simplify_eq/=.
  - unfold Acquire_cancel in Hstep. destruct (bool_decide _); simplify_eq; [done|].
    destruct (_ && _); [|done].
    apply notifyWaiters_closed_nodup; [by apply queue_ok_remove | done].
  - by simplify_eq.
  - unfold Release in Hstep. destruct (_ <? 0); simplify_eq; [done|].
    apply notifyWaiters_closed_nodup; [by apply (queue_ok_ext s) | done].
Qed.

(** X11. In every state a semaphore reaches, no channel has been closed
    twice, so [close(w.ready)] never panics; the queued waiters have
    distinct channels, all open; and the waiter of a goroutine that waits
    in [Acquire] is in the queue exactly when its channel is open. *)
Theorem ready_channels_are_closed_once (sz : Z) (c : config) :
  reachable (init sz) c →
  NoDup (closed (st c))
  ∧ NoDup (ready <$> waiters (sem (st c)))
  ∧ (∀ w, w ∈ waiters (sem (st c)) → ready w ∉ closed (st c))
  ∧ (∀ i p w, threads c !! i = Some p → pc_elem p = Some w →
       (w ∈ waiters (sem (st c)) ↔ ready w ∉ closed (st c))).
Proof.
  intros Hr. pose proof (sys_inv_reachable _ _ Hr) as [Hq Hok Huniq].
  split; [|split; [apply Hq|split; [apply Hq|]]].
  - revert Hr. apply (reachable_inv (λ c, NoDup (closed (st c)))); [constructor|].
    intros ev c1 c2 Hr1 IH Hex. pose proof (sys_inv_reachable _ _ Hr1) as [Hq1 _ _].
    destruct ev as [p|ctx e|i pick_ready]; simpl in Hex.
    + destruct (is_call p); by simplify_eq.
    + destruct (ctxs c1 !! ctx); by simplify_eq.
    + destruct (threads c1 !! i) as [p|] eqn:Hp; simplify_eq/=.
      destruct (thread_step pick_ready (ctxs c1) p (st c1)) as [[s' p']|] eqn:Hstep;
        simplify_eq/=.
      by eapply thread_step_closed_nodup.
  - intros i p w Hi Hw. split; [by apply (qo_open _ Hq)|].
    intros Hopen. by destruct (Hok _ _ _ Hi Hw) as [_ [Hin|Hin]].
Qed.

Lemma ready_channels_are_closed_once_witness :
  mkWaiter 1 0 ∈ waiters (sem (st cancel_demo_config))
  ↔ ready (mkWaiter 1 0) ∉ closed (st cancel_demo_config).
Proof.
  refine (proj2 (proj2 (proj2 (ready_channels_are_closed_once 2 cancel_demo_config _)))
            1%nat _ (mkWaiter 1 0) eq_refl eq_refl).
  exists cancel_demo. reflexivity.
Defined.

(** *** What is allocated is what the callers hold *)

Lemma total_app (f : pc → Z) (l1 l2 : list pc) :
  total f (l1 ++ l2) = total f l1 + total f l2.
Proof.
  unfold total. rewrite fmap_app. generalize (f <$> l1) (f <$> l2). intros a b.
  induction a as [|x a IH]; simpl; lia.
Qed.

Lemma total_cons (f : pc → Z) (a : pc) (l : list pc) :
  total f (a :: l) = f a + total f l.
Proof. reflexivity. Qed.

Lemma total_ext (f g : pc → Z) (ths : list pc) :
  (∀ j q, ths !! j = Some q → f q = g q) → total f ths = total g ths.
Proof.
  induction ths as [|a ths IH]; intros Hsame; [done|].
  rewrite !total_cons, (Hsame 0%nat a), IH; [done| |done].
  intros j q Hj. by apply (Hsame (S j)).
Qed.

Lemma total_differ (f g : pc → Z) (ths : list pc) (i : nat) (p : pc) :
  ths !! i = Some p →
  (∀ j q, j ≠ i → ths !! j = Some q → f q = g q) →
  total f ths - f p = total g ths - g p.
Proof.
  revert i; induction ths as [|a ths IH]; intros [|i] Hi Hsame; simpl in Hi;
    simplify_eq; rewrite !total_cons.
  - rewrite (total_ext f g ths); [lia|].
    intros j q Hj. by apply (Hsame (S j)).
  - rewrite (Hsame 0%nat a) by done.
    specialize (IH i Hi). rewrite <- Z.add_sub_assoc, IH; [lia|].
    intros j q Hne Hj. apply (Hsame (S j)); [lia|done].
Qed.

Lemma total_insert (f : pc → Z) (ths : list pc) (i : nat) (p p' : pc) :
  ths !! i = Some p → total f (<[i := p']> ths) = total f ths - f p + f p'.
Proof.
  revert i; induction ths as [|a ths IH]; intros [|i] Hi; simpl in Hi; simplify_eq.
  - change (<[0%nat := p']> (p :: ths)) with (p' :: ths). rewrite !total_cons. lia.
  - change (<[S i := p']> (a :: ths)) with (a :: <[i := p']> ths).
    rewrite !total_cons, (IH _ Hi). lia.
Qed.

(** Closing the channel of a waiter credits its weight to the goroutine
    that waits for it, and to no other. *)
Lemma held_close_one (cl : list nat) (ths : list pc) (i : nat) (p : pc) (w : waiter) :
  elems_uniq ths → ths !! i = Some p → pc_elem p = Some w → ready w ∉ cl →
  held (cl ++ [ready w]) ths = held cl ths + n w.
Proof.
  intros Huniq Hi Hp Hopen. unfold held.
  pose proof (total_differ (credit (cl ++ [ready w])) (credit cl) ths i p Hi) as Hd.
  assert (Hcp : credit (cl ++ [ready w]) p = n w ∧ credit cl p = 0).
  { destruct p; simplify_eq/=.
    all: rewrite bool_decide_eq_true_2 by (apply elem_of_app; right; left).
    all: by rewrite bool_decide_eq_false_2. }
  destruct Hcp as [Hc1 Hc0]. rewrite Hc1, Hc0 in Hd.
  rewrite <- (Z.sub_0_r (total (credit cl) ths)), <- Hd; [lia|].
  intros j q Hne Hj.
  assert (Hother : ∀ w', pc_elem q = Some w' →
            bool_decide (ready w' ∈ cl ++ [ready w]) = bool_decide (ready w' ∈ cl)).
  { intros w' Hq. apply bool_decide_ext. rewrite elem_of_app, list_elem_of_singleton.
    split; [|by left]. intros [?|Heq]; [done|]. exfalso. apply Hne.
    by eapply (Huniq j i). }
  destruct q; simpl; try done; by rewrite Hother.
Qed.

Lemma held_close_list (g : list waiter) (cl : list nat) (ths : list pc) :
  elems_uniq ths → NoDup (ready <$> g) → (∀ w, w ∈ g → ready w ∉ cl) →
  all_held g ths →
  held (cl ++ (ready <$> g)) ths = held cl ths + weights g.
Proof.
  intros Huniq. revert cl; induction g as [|w g IH]; intros cl Hnd Hopen Hheld.
  - simpl. rewrite app_nil_r. unfold weights. simpl. lia.
  - rewrite fmap_cons in Hnd. apply NoDup_cons in Hnd as [Hnotin Hnd].
    destruct (Hheld w) as (i & p & Hi & Hp); [left|].
    rewrite fmap_cons, (cons_middle (ready w)), app_assoc, IH; [|done|..].
    + rewrite (held_close_one cl ths i p w) by (done || apply Hopen; left).
      rewrite weights_cons. lia.
    + intros w' Hw'. rewrite elem_of_app, list_elem_of_singleton. intros [Hin|Heq].
      * eapply Hopen; [|done]. by right.
      * apply Hnotin. rewrite <- Heq. by apply list_elem_of_fmap_2.
    + intros w' Hw'. apply Hheld. by right.
Qed.

(** The re-evaluation of the queue keeps the balance. *)
Lemma notifyWaiters_held (s : state) (ths : list pc) :
  wf (sem s) → queue_ok s → elems_uniq ths → all_held (waiters (sem s)) ths →
  cur (sem (notifyWaiters s)) - held (closed (notifyWaiters s)) ths
  = cur (sem s) - held (closed s) ths.
Proof.
  intros [[Hc Hsz] Hws] [Hnd Hfr Hop Hcl] Huniq Hheld.
  destruct s as [[sz c ws] cl f]; simpl in *.
  destruct (notify_spec sz ws c cl Hc Hsz Hws)
    as (g & rest & -> & Hn & Hle & Hpos & _).
  unfold notifyWaiters. simpl. rewrite Hn. simpl.
  rewrite held_close_list; [lia|done|..].
  - rewrite fmap_app in Hnd. by apply NoDup_app in Hnd as (? & _).
  - intros w Hw. apply Hop. rewrite elem_of_app. by left.
  - intros w Hw. apply Hheld. rewrite elem_of_app. by left.
Qed.

Lemma all_held_insert (ws : list waiter) (ths : list pc) (i : nat) (p p' : pc) :
  all_held ws ths → ths !! i = Some p → (∀ w, pc_elem p = Some w → w ∉ ws) →
  all_held ws (<[i := p']> ths).
Proof.
  intros Hheld Hi Hnot w Hw. destruct (Hheld w Hw) as (j & q & Hj & Hq).
  exists j, q. split; [|done]. rewrite list_lookup_insert_ne; [done|].
  intros ->. simplify_eq. by eapply Hnot.
Qed.

Lemma all_held_sub (ws ws' : list waiter) (ths : list pc) :
  (∀ w, w ∈ ws' → w ∈ ws) → all_held ws ths → all_held ws' ths.
Proof. intros Hsub Hheld w Hw. apply Hheld. by apply Hsub. Qed.

Lemma all_held_notify (s : state) (ths : list pc) :
  all_held (waiters (sem s)) ths → all_held (waiters (sem (notifyWaiters s))) ths.
Proof.
  destruct (notifyWaiters_prefix s) as (g & Hg & _). apply all_held_sub.
  intros w Hw. rewrite Hg, elem_of_app. by right.
Qed.

(** What a step does to the queue and to the balance. *)
Lemma thread_step_held (pick_ready : bool) (cx : gmap nat error) (ths : list pc)
    (i : nat) (p p' : pc) (s s' : state) :
  wf (sem s) → queue_ok s → elems_ok s ths → elems_uniq ths →
  all_held (waiters (sem s)) ths →
  ths !! i = Some p → pc_fine p' →
  thread_step pick_ready cx p s = Some (s', p') →
  all_held (waiters (sem s')) (<[i := p']> ths)
  ∧ cur (sem s') - held (closed s') (<[i := p']> ths)
    = cur (sem s) - held (closed s) ths.
Proof.
  intros Hwf Hq Hok Huniq Hheld Hp [Hk' Hnp] Hstep.
  destruct (thread_step_weight _ _ _ _ _ _ Hstep) as [Hw _]. rewrite Hw in Hk'.
  clear Hw. pose proof Hwf as [[Hc Hsz] Hws].
  destruct (thread_step_inv _ _ _ _ _ _ _ _ Hq Hok Huniq Hp Hstep) as (_ & _ & Huniq').
  assert (Hins : ∀ cl, held cl (<[i := p']> ths) = held cl ths - credit cl p + credit cl p').
  { intros cl. by apply total_insert. }
  assert (Hsub : sub64 (size (sem s)) (cur (sem s)) = size (sem s) - cur (sem s))
    by (by apply sub64_in_range).
  destruct p as [ctx k|ctx k|ctx w|ctx w e|k r|k|k ok|k|k|k]; simpl in Hstep; try done.
  - (* Acquire, first critical section *)
    unfold Acquire_enter in Hstep. rewrite Hsub in Hstep.
    destruct ((size (sem s) - cur (sem s) >=? k) && (length (waiters (sem s)) =? 0)%nat)
      eqn:Hfast; [|destruct (k >? size (sem s))]; simplify_eq; simpl.
    + apply andb_true_iff in Hfast as [Hfit%Z.geb_le _].
      split; [by eapply all_held_insert|]. rewrite Hins. simpl.
      unfold add64. rewrite (wrap64_id (cur (sem s) + k)) by (unfold int64; simpl in *; lia).
      lia.
    + split; [by eapply all_held_insert|]. rewrite Hins. simpl. lia.
    + split.
      * intros w [Hw| ->%list_elem_of_singleton]%elem_of_app.
        -- eapply all_held_insert; [done..| |done]. done.
        -- exists i, (AcquireSelect ctx (mkWaiter k (fresh s))). split; [|done].
           apply list_lookup_insert_eq. by eapply lookup_lt_Some.
      * rewrite Hins. simpl. rewrite bool_decide_eq_false_2; [lia|].
        intros Hin%(qo_closed _ Hq). lia.
  - (* Acquire, waiting for the context only *)
    destruct (cx !! ctx); simplify_eq/=.
    split; [by eapply all_held_insert|]. rewrite Hins. simpl. lia.
  - (* Acquire, the select *)
    destruct pick_ready.
    + destruct (bool_decide (ready w ∈ closed s)) eqn:Hcl; simplify_eq.
      apply bool_decide_eq_true in Hcl. split.
      * eapply all_held_insert; [done..|]. intros w' [= <-] Hin.
        by apply (qo_open _ Hq _ Hin).
      * rewrite Hins. simpl. rewrite bool_decide_eq_true_2 by done. lia.
    + destruct (cx !! ctx); simplify_eq/=. split.
      * intros w' Hw'. destruct (Hheld w' Hw') as (j & q & Hj & Hq').
        destruct (decide (j = i)) as [->|Hne].
        -- simplify_eq/=. eexists i, _.
           split; [apply list_lookup_insert_eq; by eapply lookup_lt_Some | done].
        -- exists j, q. by rewrite list_lookup_insert_ne.
      * rewrite Hins. simpl. lia.
  - (* Acquire, second critical section *)
    unfold Acquire_cancel in Hstep.
    destruct (bool_decide (ready w ∈ closed s)) eqn:Hcl; simplify_eq.
    + apply bool_decide_eq_true in Hcl. split.
      * eapply all_held_insert; [done..|]. intros w' [= <-] Hin.
        by apply (qo_open _ Hq _ Hin).
      * rewrite Hins. simpl. rewrite bool_decide_eq_true_2 by done. lia.
    + apply bool_decide_eq_false in Hcl.
      assert (Hheld1 : all_held (remove w (waiters (sem s)))
                         (<[i := AcquireReturn (n w) (Some e)]> ths)).
      { intros w' [Hne Hin]%list_elem_of_filter. destruct (Hheld w' Hin) as (j & q & Hj & Hq').
        exists j, q. split; [|done]. rewrite list_lookup_insert_ne; [done|].
        intros ->. by simplify_eq/=. }
      assert (Hbal : cur (sem s) - held (closed s) (<[i := AcquireReturn (n w) (Some e)]> ths)
                     = cur (sem s) - held (closed s) ths).
      { rewrite Hins. simpl. rewrite bool_decide_eq_false_2 by done. lia. }
      destruct (_ && _); [|by split].
      split; [by apply (all_held_notify (mkState _ _ _))|].
      rewrite (notifyWaiters_held (mkState _ _ _)); simpl; [done| |by apply queue_ok_remove|done..].
      apply wf_intro; [done..|]. by apply remove_Forall.
  - (* TryAcquire *)
    simplify_eq. simpl. rewrite Hsub in Hins |- *.
    destruct ((size (sem s) - cur (sem s) >=? k) && (length (waiters (sem s)) =? 0)%nat)
      eqn:Hfast; simpl.
    + apply andb_true_iff in Hfast as [Hfit%Z.geb_le _].
      split; [by eapply all_held_insert|]. rewrite Hins. simpl.
      unfold add64. rewrite (wrap64_id (cur (sem s) + k)) by (unfold int64; simpl in *; lia).
      lia.
    + split; [by eapply all_held_insert|]. rewrite Hins. simpl. lia.
  - (* Release *)
    unfold Release, sub64 in Hstep. simpl in Hk'.
    rewrite (wrap64_id (cur (sem s) - k)) in Hstep by (unfold int64; lia).
    destruct (Z.ltb_spec (cur (sem s) - k) 0) as [Hneg|Hnn]; simplify_eq.
    { by destruct (Hnp k). }
    assert (Hheld1 : all_held (waiters (sem s)) (<[i := ReleaseReturn k]> ths))
      by (by eapply all_held_insert).
    split; [by apply (all_held_notify (mkState _ _ _))|].
    rewrite (notifyWaiters_held (mkState _ _ _)); simpl;
      [|by apply wf_intro; [lia|..]|by apply (queue_ok_ext s)|done..].
    rewrite Hins. simpl. lia.
Qed.

(** X12. Under proper use, in every state the semaphore reaches, the
    allocated weight is the sum of the weights of the calls of [Acquire]
    and [TryAcquire] that succeeded, less the weights of the calls of
    [Release] that returned; so that sum lies between zero and the
    capacity. *)
Theorem cur_is_the_weight_held (sz : Z) (c : config) :
  0 ≤ sz < 2 ^ 63 → reachable (init sz) c → Forall pc_fine (threads c) →
  cur (sem (st c)) = held (closed (st c)) (threads c)
  ∧ 0 ≤ held (closed (st c)) (threads c) ≤ sz.
Proof.
  intros Hsz Hr Hf.
  assert (Hbal : all_held (waiters (sem (st c))) (threads c)
                 ∧ cur (sem (st c)) - held (closed (st c)) (threads c) = 0).
  { revert Hf. revert Hr.
    apply (reachable_inv (λ c, Forall pc_fine (threads c) →
             all_held (waiters (sem (st c))) (threads c)
             ∧ cur (sem (st c)) - held (closed (st c)) (threads c) = 0)).
    { intros _. split; [|done]. intros w Hw. by apply elem_of_nil in Hw. }
    intros ev c1 c2 Hr1 IH Hex Hf.
    pose proof (exec_fine_back _ _ _ Hex Hf) as Hf1.
    destruct (IH Hf1) as [Hheld Hbal].
    pose proof (wf_reachable sz c1 Hsz Hr1 Hf1) as Hwf.
    pose proof (sys_inv_reachable _ _ Hr1) as [Hq Hok Huniq].
    destruct ev as [p|ctx e|i pick_ready]; simpl in Hex.
    - destruct (is_call p) eqn:Hcall; simplify_eq. simpl. split.
      + intros w Hw. destruct (Hheld w Hw) as (j & q & Hj & Hq').
        exists j, q. split; [by apply lookup_app_l_Some|done].
      + unfold held in *. rewrite total_app. unfold total at 2. simpl.
        destruct p; simpl in *; try done; lia.
    - destruct (ctxs c1 !! ctx); by simplify_eq.
    - destruct (threads c1 !! i) as [p|] eqn:Hi; simplify_eq/=.
      destruct (thread_step pick_ready (ctxs c1) p (st c1)) as [[s' p']|] eqn:Hstep;
        simplify_eq/=.
      assert (Hfp : pc_fine p').
      { rewrite Forall_lookup in Hf. apply (Hf i).
        apply list_lookup_insert_eq. by eapply lookup_lt_Some. }
      destruct (thread_step_held _ _ _ _ _ _ _ _ Hwf Hq Hok Huniq Hheld Hi Hfp Hstep)
        as [Hheld' Hbal'].
      split; [done|]. lia. }
  destruct Hbal as [_ Hbal]. destruct (bound_reachable _ _ Hr) as [Hs _].
  destruct (wf_reachable sz c Hsz Hr Hf) as [[Hc _] _]. lia.
Qed.

Lemma cur_is_the_weight_held_witness :
  cur (sem (st cancel_demo_config)) = held (closed (st cancel_demo_config))
                                        (threads cancel_demo_config).
Proof.
  refine (proj1 (cur_is_the_weight_held 2 cancel_demo_config _ _ _)).
  - lia.
  - exists cancel_demo. reflexivity.
  - repeat constructor; simpl; try lia; by intros k.
Defined.

(** *** First come, first served *)

Lemma increasing_sublist (l1 l2 : list nat) :
  l1 `sublist_of` l2 → increasing l2 → increasing l1.
Proof.
  induction 1 as [|x l1 l2 Hsub IH|x l1 l2 Hsub IH]; simpl; [done|..].
  - intros [Hall Hinc]. split; [|by apply IH].
    rewrite Forall_forall in Hall. apply Forall_forall.
    intros b Hb. apply Hall. by eapply elem_of_sublist.
  - intros [_ Hinc]. by apply IH.
Qed.

Lemma increasing_snoc (l : list nat) (b : nat) :
  increasing l → Forall (λ a, (a < b)%nat) l → increasing (l ++ [b]).
Proof.
  induction l as [|a l IH]; simpl; [done|].
  intros [Hall Hinc] [Hab Hlt]%Forall_cons. split; [|by apply IH].
  apply Forall_app. split; [done|]. by apply Forall_singleton.
Qed.

Lemma increasing_lookup (l : list nat) (i j a b : nat) :
  increasing l → l !! i = Some a → l !! j = Some b → (i < j)%nat → (a < b)%nat.
Proof.
  revert i j; induction l as [|x l IH]; intros i j Hinc Hi Hj Hlt; [done|].
  destruct Hinc as [Hall Hinc]. destruct j as [|j]; [lia|]. simpl in Hj.
  destruct i as [|i]; simpl in Hi.
  - simplify_eq. rewrite Forall_forall in Hall. apply Hall.
    by eapply list_elem_of_lookup_2.
  - eapply (IH i j); [done..|lia].
Qed.

(** The re-evaluation of the queue closes the channels at the front: what
    was served and what waits, in this order, is the same list. *)
Lemma served_notifyWaiters (s : state) : served (notifyWaiters s) = served s.
Proof.
  unfold served. destruct (notifyWaiters_prefix s) as (g & Hg & Hcl & _).
  by rewrite Hcl, Hg, fmap_app, app_assoc.
Qed.

Lemma thread_step_served (pick_ready : bool) (cx : gmap nat error) (p p' : pc)
    (s s' : state) :
  queue_ok s → increasing (served s) →
  thread_step pick_ready cx p s = Some (s', p') → increasing (served s').
Proof.
  intros Hq Hinc Hstep.
  assert (Hrm : ∀ w c, increasing (served (mkState (mkWeighted (size (sem s)) c
                                     (remove w (waiters (sem s)))) (closed s) (fresh s)))).
  { intros w c. eapply increasing_sublist; [|exact Hinc].
    unfold served. simpl. apply sublist_app; [done|].
    apply fmap_sublist, sublist_filter. }
  destruct p as [ctx k|ctx k|ctx w|ctx w e|k r|k|k ok|k|k|k]; simpl in Hstep; try done.
  - unfold Acquire_enter in Hstep.
    destruct (_ && _); [|destruct (k >? _)]; simplify_eq; try done.
    unfold served. simpl. rewrite fmap_app, app_assoc. simpl.
    apply increasing_snoc; [done|]. apply Forall_app. split.
    + apply Forall_forall. intros r Hr. by apply (qo_closed _ Hq).
    + apply Forall_forall. intros r (w & -> & Hw)%list_elem_of_fmap.
      by apply (qo_fresh _ Hq).
  - destruct (cx !! ctx); by simplify_eq/=.
  - destruct pick_ready; [destruct (bool_decide _)|destruct (cx !! ctx)]; by simplify_eq/=.
  - unfold Acquire_cancel in Hstep. destruct (bool_decide _); simplify_eq; [done|].
    destruct (_ && _); [|done]. rewrite served_notifyWaiters. apply Hrm.
  - simplify_eq. by destruct (_ && _).
  - unfold Release in Hstep. destruct (_ <? 0); simplify_eq; [done|].
    by rewrite served_notifyWaiters.
Qed.

(** X13. Channels are numbered in the order they are made, and [Acquire]
    makes one when it pushes a waiter at the back of the queue.  In every
    state a semaphore reaches, the channels that were closed, in the order
    they were closed, followed by the channels of the queued waiters, front
    first, are in that order: waiters are served in the order they arrived,
    over the whole run. *)
Theorem waiters_are_served_in_arrival_order (sz : Z) (c : config) :
  reachable (init sz) c →
  (∀ i j a b, served (st c) !! i = Some a → served (st c) !! j = Some b →
     (i < j)%nat → (a < b)%nat)
  ∧ (∀ a, a ∈ served (st c) → (a < fresh (st c))%nat)
  ∧ (∀ k s1 w, Acquire_enter k (st c) = (s1, Queued w) →
       ready w = fresh (st c) ∧ fresh s1 = S (fresh (st c))
       ∧ served s1 = served (st c) ++ [ready w]).
Proof.
  intros Hr. pose proof (sys_inv_reachable _ _ Hr) as [Hq _ _].
  split; [|split].
  - assert (Hinc : increasing (served (st c))).
    { revert Hr. apply (reachable_inv (λ c, increasing (served (st c)))); [done|].
      intros ev c1 c2 Hr1 IH Hex. pose proof (sys_inv_reachable _ _ Hr1) as [Hq1 _ _].
      destruct ev as [p|ctx e|i pick_ready]; simpl in Hex.
      - destruct (is_call p); by simplify_eq.
      - destruct (ctxs c1 !! ctx); by simplify_eq.
      - destruct (threads c1 !! i) as [p|] eqn:Hp; simplify_eq/=.
        destruct (thread_step pick_ready (ctxs c1) p (st c1)) as [[s' p']|] eqn:Hstep;
          simplify_eq/=.
        by eapply thread_step_served. }
    intros i j a b. by apply increasing_lookup.
  - intros a [Ha|(w & -> & Hw)%list_elem_of_fmap]%elem_of_app.
    + by apply (qo_closed _ Hq).
    + by apply (qo_fresh _ Hq).
  - intros k s1 w Hen. unfold Acquire_enter in Hen.
    destruct (_ && _); [done|]. destruct (k >? _); simplify_eq.
    unfold served. simpl. by rewrite fmap_app, app_assoc.
Qed.

Lemma waiters_are_served_in_arrival_order_witness :
  (0 < fresh (st cancel_demo_config))%nat.
Proof.
  refine (proj1 (proj2 (waiters_are_served_in_arrival_order 2 cancel_demo_config _))
            0%nat _).
  - exists cancel_demo. reflexivity.
  - unfold served. simpl. left.
Defined.

End Semaphore.

(** ** Singleflight: [src/errgroup/errgroup.go], lines 72-327 *)

Module SingleFlight.

Local Open Scope string_scope.
Local Open Scope list_scope.
Local Open Scope Z_scope.

(** An [interface{}] value; [nil] is [None]. *)
Definition value := string.

(** The errors the package tells apart: the package variable [errGoexit],
    a [*panicError] with the recovered value and the stack, and every other
    error. *)
Inductive error :=
  | errGoexit
  | panicError (v : value) (stack : string)
  | otherError (msg : string).

Global Instance error_eq_dec : EqDecision error.
Proof. solve_decision. Defined.

(** The type assertion of [c.err] to [*panicError]. *)
Definition as_panicError (e : option error) : option error :=
  match e with
  | Some (panicError v st) => Some (panicError v st)
  | _ => None
  end.

(** [stack[line+1:]] when [line := bytes.IndexByte(stack, '\n')] is not
    negative. *)
Fixpoint after_newline (s : string) : option string :=
  match s with
  | EmptyString => None
  | String a s' =>
      if Ascii.eqb a (Ascii.ascii_of_nat 10) then Some s' else after_newline s'
  end.

(** [newPanicError], with [stack] what [debug.Stack()] returns. *)
Definition newPanicError (v : value) (stack : string) : error :=
  panicError v (default stack (after_newline stack)).

(** [int] arithmetic of [c.dups++], on 64 bits. *)
Definition wrap64 (z : Z) : Z := (z + 2 ^ 63) mod 2 ^ 64 - 2 ^ 63.

(** [type Result struct { Val interface{}; Err error; Shared bool }] *)
Record Result := mkResult {
  Val : option value;
  Err : option error;
  Shared : bool
}.

(** [type call struct].  [wg] is the counter of the wait group; channels
    are numbers, as calls are. *)
Record call := mkCall {
  wg : nat;
  val : option value;
  err : option error;
  forgotten : bool;
  dups : Z;
  chans : list nat
}.

(** The [Group] ([m] is [None] while the map is [nil]) with the calls and
    the channels that were allocated: a [*call] is an index in [calls], a
    [chan Result] of capacity one an index in [chan_heap], holding at most
    one [Result].  [crashed] is set by [go panic(e)]: a panic nobody can
    recover. *)
Record state := mkState {
  m : option (gmap string nat);
  calls : list call;
  chan_heap : list (option Result);
  crashed : option error
}.

(** [var g Group] *)
Definition zeroGroup : state := mkState None [] [] None.

(** What the user function does when it is called: return, panic (with
    [r] what [recover()] yields and [stack] what [debug.Stack()] yields in
    the deferred function), or call [runtime.Goexit]. *)
Inductive fn_result :=
  | Returns (v : option value) (e : option error)
  | Panics (r : option value) (stack : string)
  | Goexits.

Inductive entry :=
  | Joined (cid : nat)
  | Started (cid : nat).

Definition incr_dups (c : call) : call :=
  mkCall (wg c) (val c) (err c) (forgotten c) (wrap64 (dups c + 1)) (chans c).

Definition add_chan (ch : nat) (c : call) : call :=
  mkCall (wg c) (val c) (err c) (forgotten c) (dups c) (chans c ++ [ch]).

Definition set_forgotten (c : call) : call :=
  mkCall (wg c) (val c) (err c) true (dups c) (chans c).

(** [c := new(call); c.wg.Add(1)], or [&call{chans: ...}] *)
Definition new_call (chs : list nat) : call := mkCall 1 None None false 0 chs.

(** The critical section of [Do], lines 159-191. *)
Definition Do_enter (key : string) (s : state) : state * entry :=
  let mm := default ∅ (m s) in
  match mm !! key with
  | Some cid =>
      (mkState (Some mm) (alter incr_dups cid (calls s)) (chan_heap s) (crashed s),
       Joined cid)
  | None =>
      let cid := length (calls s) in
      (mkState (Some (<[key := cid]> mm)) (calls s ++ [new_call []]) (chan_heap s)
         (crashed s),
       Started cid)
  end.

(** [DoChan] up to its [return ch], lines 202-221; the new channel is the
    second component. *)
Definition DoChan_enter (key : string) (s : state) : state * nat * entry :=
  let ch := length (chan_heap s) in
  let mm := default ∅ (m s) in
  match mm !! key with
  | Some cid =>
      (mkState (Some mm) (alter (λ c, add_chan ch (incr_dups c)) cid (calls s))
         (chan_heap s ++ [None]) (crashed s),
       ch, Joined cid)
  | None =>
      let cid := length (calls s) in
      (mkState (Some (<[key := cid]> mm)) (calls s ++ [new_call [ch]])
         (chan_heap s ++ [None]) (crashed s),
       ch, Started cid)
  end.

(** [Forget], lines 318-327. *)
Definition Forget (key : string) (s : state) : state :=
  let calls' :=
    match default ∅ (m s) !! key with
    | Some cid => alter set_forgotten cid (calls s)
    | None => calls s
    end in
  mkState (delete key <$> m s) calls' (chan_heap s) (crashed s).

(** [doCall] from the call of [fn] to [c.wg.Done()]: lines 287-310 and
    242-246.  The second component is [!normalReturn && !recovered]: the
    goroutine is inside [runtime.Goexit]. *)
Definition doCall_run (res : fn_result) (c : call) : call * bool :=
  let '(c1, normalReturn, recovered) :=
    match res with
    | Returns v e =>
        (mkCall (wg c) v e (forgotten c) (dups c) (chans c), true, false)
    | Panics (Some r) stack =>
        (mkCall (wg c) (val c) (Some (newPanicError r stack)) (forgotten c) (dups c)
           (chans c), false, true)
    | Panics None _ => (c, false, true)
    | Goexits => (c, false, false)
    end in
  let goexit := negb normalReturn && negb recovered in
  let c2 := if goexit
            then mkCall (wg c1) (val c1) (Some errGoexit) (forgotten c1) (dups c1) (chans c1)
            else c1 in
  (mkCall (pred (wg c2)) (val c2) (err c2) (forgotten c2) (dups c2) (chans c2), goexit).

(** [ch <- r] on a channel of capacity one: [None] when it would block. *)
Definition send (r : Result) (ch : nat) (h : list (option Result))
  : option (list (option Result)) :=
  match h !! ch with
  | Some None => Some (<[ch := Some r]> h)
  | _ => None
  end.

Fixpoint send_all (r : Result) (chs : list nat) (h : list (option Result))
  : option (list (option Result)) :=
  match chs with
  | [] => Some h
  | ch :: chs' => h' ← send r ch h; send_all r chs' h'
  end.

(** How the deferred function of [doCall] ends. *)
Inductive doCall_exit :=
  | ExitNormal              (* it returns *)
  | ExitPanic (e : error)   (* panic(e) *)
  | ExitCrash (e : error).  (* go panic(e); select {} *)

(** The deferred function of [doCall] from [g.mu.Lock()] on, lines 247-283. *)
Definition doCall_locked (cid : nat) (key : string) (s : state)
  : option (state * doCall_exit) :=
  c ← calls s !! cid;
  let m1 := if forgotten c then m s else delete key <$> m s in
  match as_panicError (err c) with
  | Some e =>
      if (0 <? length (chans c))%nat
      then Some (mkState m1 (calls s) (chan_heap s) (Some e), ExitCrash e)
      else Some (mkState m1 (calls s) (chan_heap s) (crashed s), ExitPanic e)
  | None =>
      if bool_decide (err c = Some errGoexit)
      then Some (mkState m1 (calls s) (chan_heap s) (crashed s), ExitNormal)
      else
        h ← send_all (mkResult (val c) (err c) (0 <? dups c)) (chans c) (chan_heap s);
        Some (mkState m1 (calls s) h (crashed s), ExitNormal)
  end.

(** How a call of [Do] ends for its caller. *)
Inductive outcome :=
  | Return (v : option value) (e : option error) (shared : bool)
  | Panic (e : error)
  | Goexit.

(** [Do] after [c.wg.Wait()], lines 176-182. *)
Definition Do_joined (c : call) : outcome :=
  match as_panicError (err c) with
  | Some e => Panic e
  | None =>
      if bool_decide (err c = Some errGoexit) then Goexit
      else Return (val c) (err c) true
  end.

(** [return c.val, c.err, c.dups > 0], line 194. *)
Definition Do_started (c : call) : outcome :=
  Return (val c) (err c) (0 <? dups c).

(** *** Goroutines calling the group *)

(** A goroutine, by program point.  [DoWait]: a duplicate at
    [c.wg.Wait()].  [Running]: inside [doCall], [fn] is executing ([sync]
    tells [Do]'s own goroutine from the one [DoChan] starts).  [Deferred]:
    in the deferred function of [doCall], after [c.wg.Done()] and before
    [g.mu.Lock()]; [goexit] is [!normalReturn && !recovered].
    [DoReturning]: [doCall] has returned to [Do], line 194 is next.  The
    other points are final: [DoDone] is a call of [Do] that ended ([dup]
    tells the duplicates from the caller that started the call), [Parked]
    the [select {}] after [go panic(e)], [Finished] the end of the
    goroutine of [DoChan] and [Died] its end by a panic, which nobody
    recovers, [DoChanReturned] a caller of [DoChan] holding its channel
    ([joined]: it found the call in the map). *)
Inductive pc :=
  | DoCall (key : string) (fn : fn_result)
  | DoWait (cid : nat)
  | DoChanCall (key : string) (fn : fn_result)
  | DoChanReturned (ch : nat) (cid : nat) (joined : bool)
  | ForgetCall (key : string)
  | ForgetReturned
  | Running (cid : nat) (key : string) (fn : fn_result) (sync : bool)
  | Deferred (cid : nat) (key : string) (goexit : bool) (sync : bool)
  | DoReturning (cid : nat)
  | DoDone (dup : bool) (cid : nat) (o : outcome)
  | Parked (cid : nat) (e : error)
  | Died (cid : nat) (e : error)
  | Finished (cid : nat) (goexit : bool).

(** Where the goroutine goes when the deferred function of [doCall] has
    ended in [x]: a panic unwinds into the caller of [Do], or kills the
    goroutine [DoChan] started and with it the process; [runtime.Goexit]
    goes on ending the goroutine; otherwise [doCall] returns. *)
Definition after_locked (cid : nat) (goexit sync : bool) (s' : state) (x : doCall_exit)
  : state * pc :=
  match x with
  | ExitCrash e => (s', Parked cid e)
  | ExitPanic e =>
      if sync then (s', DoDone false cid (Panic e))
      else (mkState (m s') (calls s') (chan_heap s') (Some e), Died cid e)
  | ExitNormal =>
      (s', if goexit then
             if sync then DoDone false cid Goexit else Finished cid true
           else
             if sync then DoReturning cid else Finished cid false)
  end.

(** One step of a goroutine: the new state, its next program point and the
    goroutines it started.  [None]: it cannot move. *)
Definition thread_step (p : pc) (s : state) : option (state * pc * list pc) :=
  match p with
  | DoCall key fn =>
      let '(s', r) := Do_enter key s in
      Some (s', match r with
                | Joined cid => DoWait cid
                | Started cid => Running cid key fn true
                end, [])
  | DoWait cid =>
      c ← calls s !! cid;
      match wg c with
      | O => Some (s, DoDone true cid (Do_joined c), [])
      | S _ => None
      end
  | DoChanCall key fn =>
      let '(s', ch, r) := DoChan_enter key s in
      Some (match r with
            | Joined cid => (s', DoChanReturned ch cid true, [])
            | Started cid => (s', DoChanReturned ch cid false, [Running cid key fn false])
            end)
  | ForgetCall key => Some (Forget key s, ForgetReturned, [])
  | Running cid key fn sync =>
      c ← calls s !! cid;
      Some (mkState (m s) (<[cid := (doCall_run fn c).1]> (calls s)) (chan_heap s)
              (crashed s),
            Deferred cid key (doCall_run fn c).2 sync, [])
  | Deferred cid key goexit sync =>
      '(s', x) ← doCall_locked cid key s;
      Some (after_locked cid goexit sync s' x, [])
  | DoReturning cid =>
      c ← calls s !! cid;
      Some (s, DoDone false cid (Do_started c), [])
  | _ => None
  end.

Record config := mkConfig {
  st : state;
  threads : list pc
}.

Inductive event :=
  | EvCall (p : pc)     (* a goroutine calls Do, DoChan or Forget *)
  | EvStep (i : nat).

Definition is_call (p : pc) : bool :=
  match p with
  | DoCall _ _ | DoChanCall _ _ | ForgetCall _ => true
  | _ => false
  end.

Definition exec (ev : event) (c : config) : option config :=
  match ev with
  | EvCall p =>
      if is_call p then Some (mkConfig (st c) (threads c ++ [p])) else None
  | EvStep i =>
      p ← threads c !! i;
      '(s', p', new) ← thread_step p (st c);
      Some (mkConfig s' (<[i := p']> (threads c) ++ new))
  end.

Fixpoint run (evs : list event) (c : config) : option config :=
  match evs with
  | [] => Some c
  | ev :: evs' => c' ← exec ev c; run evs' c'
  end.

Definition init : config := mkConfig zeroGroup [].

Definition reachable (c : config) : Prop := ∃ evs, run evs init = Some c.

(** *** Invariants *)

(** The call a goroutine works on or waits for. *)
Definition pc_cid (p : pc) : option nat :=
  match p with
  | DoWait cid | DoChanReturned _ cid _ | Running cid _ _ _ | Deferred cid _ _ _
  | DoReturning cid | DoDone _ cid _ | Parked cid _ | Died cid _ | Finished cid _ =>
      Some cid
  | _ => None
  end.

(** The call whose [doCall] a goroutine executes or has executed. *)
Definition runner_of (p : pc) : option nat :=
  match p with
  | Running cid _ _ _ | Deferred cid _ _ _ | DoReturning cid | DoDone false cid _
  | Parked cid _ | Died cid _ | Finished cid _ => Some cid
  | _ => None
  end.

(** ... and has not yet reached [g.mu.Lock()] in the deferred function. *)
Definition pre_lock (p : pc) : option (nat * string) :=
  match p with
  | Running cid key _ _ | Deferred cid key _ _ => Some (cid, key)
  | _ => None
  end.

Definition is_running (p : pc) : bool :=
  match p with
  | Running _ _ _ _ => true
  | _ => false
  end.

(** The call a goroutine found in the map and joined. *)
Definition joined_of (p : pc) : option nat :=
  match p with
  | DoWait cid | DoDone true cid _ | DoChanReturned _ cid true => Some cid
  | _ => None
  end.

Definition count_joined (cid : nat) (ths : list pc) : nat :=
  length (filter (λ p, joined_of p = Some cid) ths).

(** What a goroutine knows about its call once it is past [fn]. *)
Definition pc_ok (s : state) (p : pc) : Prop :=
  match p with
  | Deferred cid _ goexit _ =>
      ∃ k, calls s !! cid = Some k ∧ (goexit = true → err k = Some errGoexit)
  | DoDone true cid o =>
      ∃ k, calls s !! cid = Some k ∧ wg k = 0%nat ∧ o = Do_joined k
  | DoDone false cid (Return v e sh) =>
      ∃ k, calls s !! cid = Some k ∧ Return v e sh = Do_started k
  | DoDone false cid (Panic e) =>
      ∃ k, calls s !! cid = Some k ∧ as_panicError (err k) = Some e ∧ chans k = []
  | DoDone false cid Goexit | Finished cid true =>
      ∃ k, calls s !! cid = Some k ∧ err k = Some errGoexit
  | Parked cid e =>
      ∃ k, calls s !! cid = Some k ∧ as_panicError (err k) = Some e ∧ chans k ≠ []
           ∧ is_Some (crashed s)
  | _ => True
  end.

Record inv (c : config) : Prop := mkInv {
  v_map : ∀ key cid, default ∅ (m (st c)) !! key = Some cid →
            ∃ j q, threads c !! j = Some q ∧ pre_lock q = Some (cid, key);
  v_unforgotten : ∀ key cid k, default ∅ (m (st c)) !! key = Some cid →
            calls (st c) !! cid = Some k → forgotten k = false;
  v_cid : ∀ j q cid, threads c !! j = Some q → pc_cid q = Some cid →
            (cid < length (calls (st c)))%nat;
  v_runner_uniq : ∀ i j p q cid, threads c !! i = Some p → threads c !! j = Some q →
            runner_of p = Some cid → runner_of q = Some cid → i = j;
  v_wg : ∀ j q cid k, threads c !! j = Some q → runner_of q = Some cid →
            calls (st c) !! cid = Some k →
            wg k = if is_running q then 1%nat else 0%nat;
  v_done : ∀ j q, threads c !! j = Some q → pc_ok (st c) q;
  v_dups : ∀ cid k, calls (st c) !! cid = Some k →
            dups k = wrap64 (Z.of_nat (count_joined cid (threads c)))
}.

(** The channels: the channels registered on a call were made; no channel
    is registered on two calls; and a channel that holds a result is
    registered on a call that is done, whose stored error is neither a
    recorded panic nor [errGoexit], and the result is the stored one. *)
Record ch_inv (s : state) : Prop := mkChInv {
  ci_fresh : ∀ cid k ch, calls s !! cid = Some k → ch ∈ chans k →
               (ch < length (chan_heap s))%nat;
  ci_uniq : ∀ cid1 cid2 k1 k2 ch, calls s !! cid1 = Some k1 → calls s !! cid2 = Some k2 →
               ch ∈ chans k1 → ch ∈ chans k2 → cid1 = cid2;
  ci_sent : ∀ ch r, chan_heap s !! ch = Some (Some r) →
               ∃ cid k, calls s !! cid = Some k ∧ ch ∈ chans k ∧ wg k = 0%nat
                        ∧ Val r = val k ∧ Err r = err k
                        ∧ as_panicError (err k) = None ∧ err k ≠ Some errGoexit
}.

(** The steps of a goroutine, one case each. *)
Inductive tstep (s : state) : pc → state → pc → list pc → Prop :=
  | ts_do_join key fn cid :
      default ∅ (m s) !! key = Some cid →
      tstep s (DoCall key fn)
        (mkState (Some (default ∅ (m s))) (alter incr_dups cid (calls s)) (chan_heap s)
           (crashed s))
        (DoWait cid) []
  | ts_do_start key fn :
      default ∅ (m s) !! key = None →
      tstep s (DoCall key fn)
        (mkState (Some (<[key := length (calls s)]> (default ∅ (m s))))
           (calls s ++ [new_call []]) (chan_heap s) (crashed s))
        (Running (length (calls s)) key fn true) []
  | ts_wait cid k :
      calls s !! cid = Some k → wg k = 0%nat →
      tstep s (DoWait cid) s (DoDone true cid (Do_joined k)) []
  | ts_chan_join key fn cid :
      default ∅ (m s) !! key = Some cid →
      tstep s (DoChanCall key fn)
        (mkState (Some (default ∅ (m s)))
           (alter (λ c, add_chan (length (chan_heap s)) (incr_dups c)) cid (calls s))
           (chan_heap s ++ [None]) (crashed s))
        (DoChanReturned (length (chan_heap s)) cid true) []
  | ts_chan_start key fn :
      default ∅ (m s) !! key = None →
      tstep s (DoChanCall key fn)
        (mkState (Some (<[key := length (calls s)]> (default ∅ (m s))))
           (calls s ++ [new_call [length (chan_heap s)]]) (chan_heap s ++ [None])
           (crashed s))
        (DoChanReturned (length (chan_heap s)) (length (calls s)) false)
        [Running (length (calls s)) key fn false]
  | ts_forget key :
      tstep s (ForgetCall key) (Forget key s) ForgetReturned []
  | ts_run cid key fn sync k :
      calls s !! cid = Some k →
      tstep s (Running cid key fn sync)
        (mkState (m s) (<[cid := (doCall_run fn k).1]> (calls s)) (chan_heap s) (crashed s))
        (Deferred cid key (doCall_run fn k).2 sync) []
  | ts_locked cid key goexit sync s1 x :
      doCall_locked cid key s = Some (s1, x) →
      tstep s (Deferred cid key goexit sync)
        (after_locked cid goexit sync s1 x).1 (after_locked cid goexit sync s1 x).2 []
  | ts_returning cid k :
      calls s !! cid = Some k →
      tstep s (DoReturning cid) s (DoDone false cid (Do_started k)) [].

(** What a step does to the call [cid]: nothing; a goroutine joins it; it
    is forgotten; its function ends; or it is new. *)
Inductive call_change (s : state) (p p' : pc) (cid : nat) (k' : call) : Prop :=
  | cc_same :
      calls s !! cid = Some k' → (joined_of p = Some cid ↔ joined_of p' = Some cid) →
      call_change s p p' cid k'
  | cc_joined k key :
      calls s !! cid = Some k → default ∅ (m s) !! key = Some cid →
      joined_of p = None → joined_of p' = Some cid →
      wg k' = wg k → val k' = val k → err k' = err k → forgotten k' = forgotten k →
      dups k' = wrap64 (dups k + 1) →
      (chans k' = chans k ∨ chans k' = chans k ++ [length (chan_heap s)]) →
      call_change s p p' cid k'
  | cc_forgotten k key :
      calls s !! cid = Some k → p = ForgetCall key →
      default ∅ (m s) !! key = Some cid → k' = set_forgotten k →
      call_change s p p' cid k'
  | cc_ran k key fn sync :
      calls s !! cid = Some k → p = Running cid key fn sync →
      k' = (doCall_run fn k).1 →
      call_change s p p' cid k'
  | cc_new chs :
      cid = length (calls s) → k' = new_call chs → joined_of p' = None →
      call_change s p p' cid k'.

Definition joins (cid : nat) (q : pc) : nat :=
  if decide (joined_of q = Some cid) then 1%nat else 0%nat.

(** Two callers of [Do] with the same key, the second arriving while the
    function of the first is running. *)
Definition share_demo : list event :=
  [EvCall (DoCall "k" (Returns (Some "bar") None)); EvStep 0;
   EvCall (DoCall "k" (Returns (Some "baz") None)); EvStep 1;
   EvStep 0; EvStep 0; EvStep 0; EvStep 1].

Definition share_demo_config : config :=
  mkConfig (mkState (Some ∅) [mkCall 0 (Some "bar") None false 1 []] [] None)
    [DoDone false 0 (Return (Some "bar") None true);
     DoDone true 0 (Return (Some "bar") None true)].

(** [Do] is called for ["k"]; while its function runs, [Forget] is called
    for ["k"]; then [Do] is called for ["k"] again. *)
Definition forget_demo : list event :=
  [EvCall (DoCall "k" (Returns (Some "1") None)); EvStep 0;
   EvCall (ForgetCall "k"); EvStep 1;
   EvCall (DoCall "k" (Returns (Some "2") None)); EvStep 2].

(** The function of a call of [Do] calls [runtime.Goexit]; a caller of
    [DoChan] and a second caller of [Do] have joined the call. *)
Definition goexit_demo : list event :=
  [EvCall (DoCall "k" Goexits); EvStep 0;
   EvCall (DoChanCall "k" (Returns (Some "bar") None)); EvStep 1;
   EvCall (DoCall "k" (Returns (Some "bar") None)); EvStep 2;
   EvStep 0; EvStep 0; EvStep 2].

Definition goexit_waiting_config : config :=
  mkConfig (mkState (Some ∅) [mkCall 0 None (Some errGoexit) false 2 [0%nat]] [None] None)
    [DoDone false 0 Goexit; DoChanReturned 0 0 true; DoWait 0].

(** The function of a call of [Do] panics while a caller of [DoChan] has
    joined the call. *)
Definition panic_demo : list event :=
  [EvCall (DoCall "k" (Panics (Some "boom") "main.f()")); EvStep 0;
   EvCall (DoChanCall "k" (Returns (Some "bar") None)); EvStep 1;
   EvStep 0; EvStep 0].

Definition panic_waiting_config : config :=
  mkConfig (mkState (Some {[ "k" := 0%nat ]})
              [mkCall 0 None (Some (panicError "boom" "main.f()")) false 1 []] [] None)
    [Deferred 0 "k" false true; DoWait 0].

(** *** The calls in flight, the channels and the panics *)

(** A call whose [doCall] has not reached the critical section of its
    deferred function, and that was not forgotten, is in the map under its
    key. *)
Definition inflight_inv (c : config) : Prop :=
  ∀ j q cid key k, threads c !! j = Some q → pre_lock q = Some (cid, key) →
    calls (st c) !! cid = Some k → forgotten k = false →
    default ∅ (m (st c)) !! key = Some cid.

(** The channels of [DoChan] in a state of the group with its goroutines:
    every call has the goroutine that runs or ran its [doCall]; no channel
    is registered twice on a call; while that goroutine has not reached the
    critical section of the deferred function, the channels of the call are
    empty; once it is past it, and the stored error is neither a recorded
    panic nor [errGoexit], each of them holds the stored result; and the
    channel a caller of [DoChan] got is registered on its call. *)
Record deliv_inv (c : config) : Prop := mkDelivInv {
  d_runner : ∀ cid, (cid < length (calls (st c)))%nat →
               ∃ j q, threads c !! j = Some q ∧ runner_of q = Some cid;
  d_nodup : ∀ cid k, calls (st c) !! cid = Some k → NoDup (chans k);
  d_empty : ∀ j q cid key k ch, threads c !! j = Some q → pre_lock q = Some (cid, key) →
               calls (st c) !! cid = Some k → ch ∈ chans k →
               chan_heap (st c) !! ch = Some None;
  d_sent : ∀ j q cid k ch, threads c !! j = Some q → runner_of q = Some cid →
               pre_lock q = None → calls (st c) !! cid = Some k →
               as_panicError (err k) = None → err k ≠ Some errGoexit → ch ∈ chans k →
               chan_heap (st c) !! ch
               = Some (Some (mkResult (val k) (err k) (0 <? dups k)));
  d_caller : ∀ j ch cid joined, threads c !! j = Some (DoChanReturned ch cid joined) →
               ∃ k, calls (st c) !! cid = Some k ∧ ch ∈ chans k
}.

(** The call that a goroutine started by [DoChan] runs. *)
Definition async_of (p : pc) : option nat :=
  match p with
  | Running cid _ _ false | Deferred cid _ _ false => Some cid
  | _ => None
  end.

(** A call that [DoChan] started has a channel registered on it; no
    goroutine has died of a panic; and when [go panic(e)] has run, a
    goroutine is parked with [e]. *)
Record crash_inv (c : config) : Prop := mkCrashInv {
  cr_async : ∀ j q cid, threads c !! j = Some q → async_of q = Some cid →
               ∃ k, calls (st c) !! cid = Some k ∧ chans k ≠ [];
  cr_died : ∀ j cid e, threads c !! j ≠ Some (Died cid e);
  cr_crashed : ∀ e, crashed (st c) = Some e →
               ∃ j cid, threads c !! j = Some (Parked cid e)
}.

(** *** Every step keeps the invariant *)

Lemma sf_lookup_step (ths new : list pc) (i j : nat) (p' q : pc) :
  (i < length ths)%nat →
  (<[i := p']> ths ++ new) !! j = Some q →
  (j = i ∧ q = p') ∨ (j ≠ i ∧ ths !! j = Some q)
  ∨ (∃ n, new !! n = Some q ∧ j = (length ths + n)%nat).
Proof.
  intros Hi Hq. apply lookup_app_Some in Hq as [Hq|[Hlen Hq]].
  - destruct (decide (i = j)) as [->|Hne].
    + rewrite list_lookup_insert_eq in Hq by done. left. split; congruence.
    + rewrite list_lookup_insert_ne in Hq by done. right. left. done.
  - rewrite length_insert in Hlen, Hq. right. right.
    exists (j - length ths)%nat. split; [done | lia].
Qed.

Lemma doCall_locked_effect (cid : nat) (key : string) (s s' : state) (x : doCall_exit) :
  doCall_locked cid key s = Some (s', x) →
  ∃ k, calls s !! cid = Some k ∧ calls s' = calls s
    ∧ m s' = (if forgotten k then m s else delete key <$> m s)
    ∧ match x with
      | ExitCrash e =>
          as_panicError (err k) = Some e ∧ chans k ≠ [] ∧ crashed s' = Some e
          ∧ chan_heap s' = chan_heap s
      | ExitPanic e =>
          as_panicError (err k) = Some e ∧ chans k = [] ∧ crashed s' = crashed s
          ∧ chan_heap s' = chan_heap s
      | ExitNormal =>
          as_panicError (err k) = None ∧ crashed s' = crashed s
          ∧ ((err k = Some errGoexit ∧ chan_heap s' = chan_heap s)
             ∨ (err k ≠ Some errGoexit
                ∧ send_all (mkResult (val k) (err k) (0 <? dups k)) (chans k) (chan_heap s)
                  = Some (chan_heap s')))
      end.
Proof.
  unfold doCall_locked. intros H.
  destruct (calls s !! cid) as [k|] eqn:Hk; simplify_eq/=. exists k. split; [done|].
  destruct (as_panicError (err k)) as [e|] eqn:He.
  - destruct (chans k) as [|ch chs] eqn:Hch; simplify_eq/=; by repeat split.
  - destruct (bool_decide (err k = Some errGoexit)) eqn:Hg; simplify_eq/=.
    + apply bool_decide_eq_true in Hg. repeat split; try done. by left.
    + apply bool_decide_eq_false in Hg.
      destruct (send_all _ _ _) as [h|] eqn:Hs; simplify_eq/=.
      repeat split; try done. by right.
Qed.

Lemma thread_step_tstep (p p' : pc) (s s' : state) (new : list pc) :
  thread_step p s = Some (s', p', new) → tstep s p s' p' new.
Proof.
  intros H. destruct p; simpl in H; try done.
  - unfold Do_enter in H. destruct (default ∅ (m s) !! key) eqn:Hk; simplify_eq.
    + by constructor.
    + by constructor.
  - destruct (calls s !! cid) as [k|] eqn:Hk; simplify_eq/=.
    destruct (wg k) eqn:Hw; simplify_eq. by constructor.
  - unfold DoChan_enter in H. destruct (default ∅ (m s) !! key) eqn:Hk; simplify_eq.
    + by constructor.
    + by constructor.
  - simplify_eq. constructor.
  - destruct (calls s !! cid) as [k|] eqn:Hk; simplify_eq/=. by constructor.
  - destruct (doCall_locked cid key s) as [[s1 x]|] eqn:Hl; simplify_eq/=.
    destruct (after_locked cid goexit sync s1 x) as [s2 p2] eqn:Ha. simplify_eq.
    replace s' with (after_locked cid goexit sync s1 x).1 by (by rewrite Ha).
    replace p' with (after_locked cid goexit sync s1 x).2 by (by rewrite Ha).
    by constructor.
  - destruct (calls s !! cid) as [k|] eqn:Hk; simplify_eq/=. by constructor.
Qed.

Lemma after_locked_pc (cid : nat) (goexit sync : bool) (s1 : state) (x : doCall_exit) :
  let p' := (after_locked cid goexit sync s1 x).2 in
  pc_cid p' = Some cid ∧ runner_of p' = Some cid ∧ pre_lock p' = None
  ∧ is_running p' = false ∧ joined_of p' = None.
Proof. destruct x, goexit, sync; simpl; done. Qed.

Lemma after_locked_state (cid : nat) (goexit sync : bool) (s1 : state) (x : doCall_exit) :
  let s' := (after_locked cid goexit sync s1 x).1 in
  m s' = m s1 ∧ calls s' = calls s1 ∧ chan_heap s' = chan_heap s1
  ∧ (is_Some (crashed s1) → is_Some (crashed s')).
Proof. destruct x, goexit, sync; simpl; repeat split; eauto. Qed.

Lemma tstep_length (s s' : state) (p p' : pc) (new : list pc) :
  tstep s p s' p' new → (length (calls s) ≤ length (calls s'))%nat.
Proof.
  destruct 1; simpl; rewrite ?length_alter, ?length_app, ?length_insert; try lia.
  - unfold Forget. simpl. destruct (default ∅ (m s) !! key); rewrite ?length_alter; lia.
  - destruct (doCall_locked_effect _ _ _ _ _ H) as (k & _ & Hc & _).
    destruct (after_locked_state cid goexit sync s1 x) as (_ & -> & _). rewrite Hc. lia.
Qed.

Lemma runner_pc_cid (q : pc) (cid : nat) : runner_of q = Some cid → pc_cid q = Some cid.
Proof. destruct q as [| | | | | | | | |[]| | |]; simpl; congruence. Qed.

Lemma joined_pc_cid (q : pc) (cid : nat) : joined_of q = Some cid → pc_cid q = Some cid.
Proof. destruct q as [| | |??[]| | | | | |[]| | |]; simpl; congruence. Qed.

Lemma pre_lock_runner (q : pc) (cid : nat) (key : string) :
  pre_lock q = Some (cid, key) → runner_of q = Some cid.
Proof. destruct q; simpl; congruence. Qed.

(** A goroutine becomes the runner of a new call only. *)
Lemma tstep_runner (s s' : state) (p p' : pc) (new : list pc) (cid : nat) :
  tstep s p s' p' new → runner_of p' = Some cid →
  runner_of p = Some cid ∨ cid = length (calls s).
Proof.
  destruct 1; simpl; intros Hr; simplify_eq; auto.
  destruct (after_locked_pc cid0 goexit sync s1 x) as (_ & Hc & _).
  simpl in Hc. rewrite Hc in Hr. by left.
Qed.

(** The goroutine a step starts runs a new call, and the one that started
    it runs none. *)
Lemma tstep_new (s s' : state) (p p' : pc) (new : list pc) (n : nat) (q : pc) :
  tstep s p s' p' new → new !! n = Some q →
  n = 0%nat ∧ runner_of p' = None ∧ joined_of p' = None ∧ joined_of q = None
  ∧ ∃ key fn, q = Running (length (calls s)) key fn false
              ∧ m s' = Some (<[key := length (calls s)]> (default ∅ (m s)))
              ∧ calls s' = calls s ++ [new_call [length (chan_heap s)]].
Proof.
  destruct 1; simpl; intros Hn; try (by rewrite lookup_nil in Hn).
  apply list_lookup_singleton_Some in Hn as [-> <-]. repeat split; eauto.
Qed.

Lemma lookup_alter_cases (f : call → call) (l : list call) (i j : nat) (k' : call) :
  alter f i l !! j = Some k' →
  (j ≠ i ∧ l !! j = Some k') ∨ (j = i ∧ ∃ k, l !! i = Some k ∧ k' = f k).
Proof.
  destruct (decide (i = j)) as [->|Hne].
  - rewrite list_lookup_alter_eq. destruct (l !! j) as [k|]; simpl; [|done].
    intros [= <-]. right. eauto.
  - rewrite list_lookup_alter_ne by done. intros H. left. split; [congruence | done].
Qed.

Lemma tstep_calls (s s' : state) (p p' : pc) (new : list pc) (cid : nat) (k' : call) :
  tstep s p s' p' new → calls s' !! cid = Some k' → call_change s p p' cid k'.
Proof.
  destruct 1; simpl; intros Hk.
  - apply lookup_alter_cases in Hk as [[Hne Hk]|[-> (k & Hk & ->)]].
    + apply cc_same; [done|]. simpl. split; intros; simplify_eq.
    + eapply cc_joined; eauto.
  - apply lookup_app_Some in Hk as [Hk|[Hlen Hk]]; [by apply cc_same|].
    apply list_lookup_singleton_Some in Hk as [Hz <-].
    eapply cc_new; [lia|done..].
  - by apply cc_same.
  - apply lookup_alter_cases in Hk as [[Hne Hk]|[-> (k & Hk & ->)]].
    + apply cc_same; [done|]. simpl. split; intros; simplify_eq.
    + eapply cc_joined; eauto.
  - apply lookup_app_Some in Hk as [Hk|[Hlen Hk]]; [by apply cc_same|].
    apply list_lookup_singleton_Some in Hk as [Hz <-].
    eapply cc_new; [lia|done..].
  - unfold Forget in Hk. simpl in Hk.
    destruct (default ∅ (m s) !! key) as [cid0|] eqn:Hm; [|by apply cc_same].
    apply lookup_alter_cases in Hk as [[Hne Hk]|[-> (k & Hk & ->)]].
    + by apply cc_same.
    + by eapply cc_forgotten.
  - destruct (decide (cid0 = cid)) as [->|Hne].
    + rewrite list_lookup_insert_eq in Hk by (by eapply lookup_lt_Some).
      simplify_eq. by eapply cc_ran.
    + rewrite list_lookup_insert_ne in Hk by done. by apply cc_same.
  - destruct (doCall_locked_effect _ _ _ _ _ H) as (k & _ & Hc & _).
    destruct (after_locked_state cid0 goexit sync s1 x) as (_ & Hc' & _).
    destruct (after_locked_pc cid0 goexit sync s1 x) as (_ & _ & _ & _ & Hj).
    simpl in Hc', Hj. rewrite Hc', Hc in Hk. apply cc_same; [done|].
    rewrite Hj. simpl. split; intros; simplify_eq.
  - apply cc_same; [done|]. simpl. split; intros; simplify_eq.
Qed.

Lemma doCall_run_fields (fn : fn_result) (k : call) :
  let k' := (doCall_run fn k).1 in
  wg k' = pred (wg k) ∧ forgotten k' = forgotten k ∧ dups k' = dups k
  ∧ chans k' = chans k
  ∧ ((doCall_run fn k).2 = true → err k' = Some errGoexit).
Proof. destruct fn as [v e|[r|] stack|]; simpl; repeat split; done. Qed.

Lemma default_delete (key : string) (mo : option (gmap string nat)) :
  default ∅ (delete key <$> mo) = delete key (default ∅ mo).
Proof. destruct mo; simpl; [done|]. by rewrite delete_empty. Qed.

(** A step leaves in the map old entries, not the one [Forget] is called
    for, and the new call. *)
Lemma tstep_map (s s' : state) (p p' : pc) (new : list pc) (key : string) (cid : nat) :
  tstep s p s' p' new → default ∅ (m s') !! key = Some cid →
  (default ∅ (m s) !! key = Some cid ∧ p ≠ ForgetCall key)
  ∨ cid = length (calls s).
Proof.
  destruct 1; simpl; intros Hk; try (by left).
  - apply lookup_insert_Some in Hk as [[-> <-]|[Hne Hk]]; [by right | by left].
  - apply lookup_insert_Some in Hk as [[-> <-]|[Hne Hk]]; [by right | by left].
  - rewrite default_delete in Hk. apply lookup_delete_Some in Hk as [Hne Hk].
    left. split; [done | congruence].
  - destruct (doCall_locked_effect _ _ _ _ _ H) as (k & _ & _ & Hm & _).
    destruct (after_locked_state cid0 goexit sync s1 x) as (Hm' & _).
    simpl in Hm'. rewrite Hm', Hm in Hk. left. split; [|done].
    destruct (forgotten k); [done|].
    rewrite default_delete in Hk. by apply lookup_delete_Some in Hk as [_ Hk].
Qed.

Lemma tstep_calls_fwd (s s' : state) (p p' : pc) (new : list pc) (cid : nat) :
  tstep s p s' p' new → is_Some (calls s !! cid) → is_Some (calls s' !! cid).
Proof.
  intros Hst Hk. apply lookup_lt_is_Some in Hk. apply lookup_lt_is_Some.
  pose proof (tstep_length _ _ _ _ _ Hst). lia.
Qed.

Lemma tstep_crashed (s s' : state) (p p' : pc) (new : list pc) :
  tstep s p s' p' new → is_Some (crashed s) → is_Some (crashed s').
Proof.
  destruct 1; simpl; try done.
  destruct (doCall_locked_effect _ _ _ _ _ H) as (k & _ & _ & _ & Hx).
  intros Hc. apply after_locked_state.
  destruct x; destruct Hx as (_ & Hx); [by destruct Hx as [-> _]|..].
  - destruct Hx as (_ & -> & _). done.
  - destruct Hx as (_ & -> & _). done.
Qed.

Lemma Do_joined_ext (k k' : call) :
  val k' = val k → err k' = err k → Do_joined k' = Do_joined k.
Proof. unfold Do_joined. by intros -> ->. Qed.

Lemma count_joined_cons (cid : nat) (q : pc) (ths : list pc) :
  count_joined cid (q :: ths) = (joins cid q + count_joined cid ths)%nat.
Proof.
  unfold count_joined, joins. rewrite filter_cons. by destruct (decide _).
Qed.

Lemma count_joined_app (cid : nat) (ths1 ths2 : list pc) :
  count_joined cid (ths1 ++ ths2) = (count_joined cid ths1 + count_joined cid ths2)%nat.
Proof. unfold count_joined. by rewrite filter_app, length_app. Qed.

Lemma count_joined_insert (cid : nat) (ths : list pc) (i : nat) (p p' : pc) :
  ths !! i = Some p →
  (count_joined cid (<[i := p']> ths) + joins cid p
   = count_joined cid ths + joins cid p')%nat.
Proof.
  revert i; induction ths as [|q ths IH]; intros [|i] Hi; simplify_eq/=.
  - rewrite !count_joined_cons. lia.
  - rewrite !count_joined_cons. specialize (IH _ Hi). lia.
Qed.

Lemma count_joined_zero (cid : nat) (ths : list pc) :
  (∀ j q, ths !! j = Some q → joined_of q ≠ Some cid) → count_joined cid ths = 0%nat.
Proof.
  induction ths as [|q ths IH]; intros Hall; [done|].
  rewrite count_joined_cons, IH by (intros j q' Hj; by apply (Hall (S j))).
  unfold joins. rewrite decide_False; [done|]. by apply (Hall 0%nat).
Qed.

Lemma count_joined_pos (cid : nat) (ths : list pc) :
  (0 < count_joined cid ths)%nat ↔ ∃ j q, ths !! j = Some q ∧ joined_of q = Some cid.
Proof.
  split.
  - intros Hpos. destruct (filter (λ p, joined_of p = Some cid) ths) as [|q l] eqn:Hf.
    + unfold count_joined in Hpos. rewrite Hf in Hpos. simpl in Hpos. lia.
    + assert (Hq : q ∈ filter (λ p, joined_of p = Some cid) ths) by (rewrite Hf; left).
      apply list_elem_of_filter in Hq as [Hq Hin].
      apply list_elem_of_lookup in Hin as [j Hj]. eauto.
  - intros (j & q & Hj & Hq). unfold count_joined.
    assert (Hin : q ∈ filter (λ p, joined_of p = Some cid) ths).
    { apply list_elem_of_filter. split; [done|]. by eapply list_elem_of_lookup_2. }
    destruct (filter _ ths); [by apply elem_of_nil in Hin|]. simpl. lia.
Qed.

Lemma wrap64_idemp (a b : Z) : wrap64 (wrap64 a + b) = wrap64 (a + b).
Proof.
  unfold wrap64.
  replace ((a + 2 ^ 63) mod 2 ^ 64 - 2 ^ 63 + b + 2 ^ 63)
    with ((a + 2 ^ 63) mod 2 ^ 64 + b) by lia.
  rewrite Zplus_mod_idemp_l. f_equal. f_equal. lia.
Qed.

Lemma wrap64_small (z : Z) : - 2 ^ 63 ≤ z < 2 ^ 63 → wrap64 z = z.
Proof. unfold wrap64. intros H. rewrite Z.mod_small; lia. Qed.

Section step.
Context (c : config) (i : nat) (p p' : pc) (s' : state) (new : list pc).
Context (Hinv : inv c) (Hp : threads c !! i = Some p).
Context (Hstep : tstep (st c) p s' p' new).

Let c' := mkConfig s' (<[i := p']> (threads c) ++ new).

Lemma step_lookup (j : nat) (q : pc) :
  threads c' !! j = Some q →
  (j = i ∧ q = p') ∨ (j ≠ i ∧ threads c !! j = Some q)
  ∨ (∃ n, new !! n = Some q ∧ j = (length (threads c) + n)%nat).
Proof. apply sf_lookup_step. by eapply lookup_lt_Some. Qed.

(** A key in the map leads to a call that was allocated. *)
Lemma map_cid (key : string) (cid : nat) :
  default ∅ (m (st c)) !! key = Some cid → (cid < length (calls (st c)))%nat.
Proof.
  intros Hk. destruct (v_map _ Hinv _ _ Hk) as (j & q & Hj & Hq).
  eapply (v_cid _ Hinv); [done|]. by destruct q; simplify_eq/=.
Qed.

Lemma step_v_cid (j : nat) (q : pc) (cid : nat) :
  threads c' !! j = Some q → pc_cid q = Some cid → (cid < length (calls s'))%nat.
Proof.
  intros Hj Hq. pose proof (tstep_length _ _ _ _ _ Hstep) as Hlen.
  apply step_lookup in Hj as [[-> ->]|[[Hne Hj]|(n & Hn & ->)]].
  - pose proof (v_cid _ Hinv _ _ cid Hp) as Hold.
    destruct Hstep; simplify_eq/=; rewrite ?length_alter, ?length_app, ?length_insert;
      simpl; try (by apply Hold); try lia; try (by eapply map_cid).
    destruct (after_locked_pc cid0 goexit sync s1 x) as (Hc & _).
    simpl in Hc. rewrite Hc in Hq. simplify_eq. eapply Nat.lt_le_trans; [by apply Hold|done].
  - eapply Nat.lt_le_trans; [by eapply (v_cid _ Hinv)|done].
  - destruct Hstep; simplify_eq/=; try (by rewrite lookup_nil in Hn).
    apply list_lookup_singleton_Some in Hn as [_ <-]. simplify_eq/=.
    rewrite length_app. simpl. lia.
Qed.

Lemma step_v_runner_uniq (j1 j2 : nat) (q1 q2 : pc) (cid : nat) :
  threads c' !! j1 = Some q1 → threads c' !! j2 = Some q2 →
  runner_of q1 = Some cid → runner_of q2 = Some cid → j1 = j2.
Proof.
  intros H1 H2 Hr1 Hr2.
  assert (Hfresh : ∀ j q, threads c !! j = Some q → runner_of q = Some cid →
                          cid ≠ length (calls (st c))).
  { intros j q Hj Hq%runner_pc_cid. pose proof (v_cid _ Hinv _ _ _ Hj Hq). lia. }
  apply step_lookup in H1 as [[-> ->]|[[Hne1 H1]|(n1 & Hn1 & ->)]];
    apply step_lookup in H2 as [[-> ->]|[[Hne2 H2]|(n2 & Hn2 & ->)]]; try done.
  - destruct (tstep_runner _ _ _ _ _ _ Hstep Hr1) as [Hr|Hr].
    + by eapply (v_runner_uniq _ Hinv).
    + exfalso. by eapply Hfresh.
  - destruct (tstep_new _ _ _ _ _ _ _ Hstep Hn2) as (_ & Hnone & _). congruence.
  - destruct (tstep_runner _ _ _ _ _ _ Hstep Hr2) as [Hr|Hr].
    + by eapply (v_runner_uniq _ Hinv).
    + exfalso. by eapply Hfresh.
  - by eapply (v_runner_uniq _ Hinv).
  - destruct (tstep_new _ _ _ _ _ _ _ Hstep Hn2) as (_ & _ & _ & _ & key & fn & -> & _).
    simpl in Hr2. simplify_eq. exfalso. by eapply Hfresh.
  - destruct (tstep_new _ _ _ _ _ _ _ Hstep Hn1) as (_ & Hnone & _). congruence.
  - destruct (tstep_new _ _ _ _ _ _ _ Hstep Hn1) as (_ & _ & _ & _ & key & fn & -> & _).
    simpl in Hr1. simplify_eq. exfalso. by eapply Hfresh.
  - destruct (tstep_new _ _ _ _ _ _ _ Hstep Hn1) as (-> & _).
    destruct (tstep_new _ _ _ _ _ _ _ Hstep Hn2) as (-> & _). done.
Qed.

Lemma step_v_wg (j : nat) (q : pc) (cid : nat) (k' : call) :
  threads c' !! j = Some q → runner_of q = Some cid → calls s' !! cid = Some k' →
  wg k' = if is_running q then 1%nat else 0%nat.
Proof.
  intros Hj Hq Hk.
  assert (Hold : ∀ j q, threads c !! j = Some q → runner_of q = Some cid →
                        cid ≠ length (calls (st c))).
  { intros j0 q0 Hj0 Hq0%runner_pc_cid. pose proof (v_cid _ Hinv _ _ _ Hj0 Hq0). lia. }
  pose proof (tstep_calls _ _ _ _ _ _ _ Hstep Hk) as Hcc.
  apply step_lookup in Hj as [[-> ->]|[[Hne Hj]|(n & Hn & ->)]].
  - destruct (tstep_runner _ _ _ _ _ _ Hstep Hq) as [Hr|Hr].
    + assert (Hw : ∀ k, calls (st c) !! cid = Some k →
                        wg k = if is_running p then 1%nat else 0%nat)
        by (intros; by eapply (v_wg _ Hinv)).
      clear Hcc. inversion Hstep; subst; simpl in *; simplify_eq.
      * rewrite list_lookup_insert_eq in Hk by (by eapply lookup_lt_Some).
        simplify_eq. destruct (doCall_run_fields fn k) as (-> & _).
        by rewrite (Hw _ H).
      * match goal with
        | H : doCall_locked ?cid0 _ _ = Some (?s1, ?x) |- context [after_locked _ ?g ?sy _ _] =>
            destruct (after_locked_pc cid0 g sy s1 x) as (_ & _ & _ & -> & _);
            destruct (doCall_locked_effect _ _ _ _ _ H) as (k & _ & Hc & _);
            destruct (after_locked_state cid0 g sy s1 x) as (_ & Hc' & _)
        end.
        simpl in Hc'. rewrite Hc', Hc in Hk. by apply Hw.
      * by apply Hw.
    + subst cid. clear Hcc. inversion Hstep; subst; simpl in *; simplify_eq.
      * rewrite lookup_app_r, Nat.sub_diag in Hk by lia. by simplify_eq/=.
      * match goal with H : calls _ !! _ = Some _ |- _ => apply lookup_lt_Some in H; lia end.
      * match goal with
        | H : doCall_locked ?cid0 _ _ = Some (?s1, ?x) |- context [after_locked _ ?g ?sy _ _] =>
            destruct (after_locked_pc cid0 g sy s1 x) as (_ & Hc & _);
            destruct (doCall_locked_effect _ _ _ _ _ H) as (k & Hk0 & _)
        end.
        simpl in Hc. rewrite Hc in Hq. simplify_eq. apply lookup_lt_Some in Hk0. lia.
      * match goal with H : calls _ !! _ = Some _ |- _ => apply lookup_lt_Some in H; lia end.
  - assert (Hw : ∀ k, calls (st c) !! cid = Some k →
                      wg k = if is_running q then 1%nat else 0%nat)
      by (intros; by eapply (v_wg _ Hinv)).
    destruct Hcc as [Hk0 _|k key Hk0 _ Hj0 Hj1 -> _ _ _ _ _|k key Hk0 -> _ ->|k key fn sync Hk0 -> ->|chs -> -> _].
    + by apply Hw.
    + by apply Hw.
    + by apply (Hw _ Hk0).
    + exfalso. apply Hne. by eapply (v_runner_uniq _ Hinv).
    + exfalso. by eapply Hold.
  - destruct (tstep_new _ _ _ _ _ _ _ Hstep Hn) as (_ & _ & _ & _ & key & fn & -> & _ & Hc).
    simpl in Hq. simplify_eq. rewrite Hc in Hk.
    rewrite lookup_app_r, Nat.sub_diag in Hk by lia. by simplify_eq/=.
Qed.

Lemma step_other (j : nat) (q : pc) :
  j ≠ i → threads c !! j = Some q → threads c' !! j = Some q.
Proof.
  intros Hne Hj. simpl. apply lookup_app_l_Some. by rewrite list_lookup_insert_ne.
Qed.

Lemma step_self : threads c' !! i = Some p'.
Proof.
  simpl. apply lookup_app_l_Some. rewrite list_lookup_insert_eq; [done|].
  by eapply lookup_lt_Some.
Qed.

Lemma step_new (n : nat) (q : pc) :
  new !! n = Some q → threads c' !! (length (threads c) + n)%nat = Some q.
Proof.
  intros Hn. simpl. rewrite lookup_app_r by (rewrite length_insert; lia).
  rewrite length_insert. by replace (length (threads c) + n - length (threads c))%nat with n by lia.
Qed.

(** A call is in the map under one key only. *)
Lemma map_key_uniq (key1 key2 : string) (cid : nat) :
  default ∅ (m (st c)) !! key1 = Some cid → default ∅ (m (st c)) !! key2 = Some cid →
  key1 = key2.
Proof.
  intros (j1 & q1 & Hj1 & Hq1)%(v_map _ Hinv) (j2 & q2 & Hj2 & Hq2)%(v_map _ Hinv).
  assert (j1 = j2).
  { eapply (v_runner_uniq _ Hinv); eauto using pre_lock_runner. }
  subst j2. congruence.
Qed.

Lemma step_v_map (key : string) (cid : nat) :
  default ∅ (m s') !! key = Some cid →
  ∃ j q, threads c' !! j = Some q ∧ pre_lock q = Some (cid, key).
Proof.
  intros Hk.
  assert (Hkeep : ∀ q, p ≠ q → pre_lock q = Some (cid, key) → (∃ j, threads c !! j = Some q) →
            (∀ j, threads c !! j = Some q → j ≠ i) →
            ∃ j q, threads c' !! j = Some q ∧ pre_lock q = Some (cid, key)).
  { intros q _ Hq [j Hj] Hne. exists j, q. split; [|done]. apply step_other; eauto. }
  destruct (tstep_map _ _ _ _ _ _ _ Hstep Hk) as [[Hold Hnf]| ->].
  - destruct (v_map _ Hinv _ _ Hold) as (j & q & Hj & Hq).
    destruct (decide (j = i)) as [->|Hne]; [|exists j, q; split; [by apply step_other|done]].
    simplify_eq. exists i, p'. split; [apply step_self|].
    inversion Hstep; subst; simpl in *; simplify_eq; try done.
    exfalso.
    match goal with
    | H : doCall_locked ?cid0 ?key0 _ = Some (?s1, ?x) |- _ =>
        destruct (doCall_locked_effect _ _ _ _ _ H) as (k & Hk0 & _ & Hm & _);
        destruct (after_locked_state cid0 goexit sync s1 x) as (Hm' & _)
    end.
    simpl in Hm'. rewrite Hm', Hm in Hk.
    destruct (forgotten k) eqn:Hf.
    + by rewrite (v_unforgotten _ Hinv _ _ _ Hold Hk0) in Hf.
    + rewrite default_delete, lookup_delete_eq in Hk. done.
  - pose proof step_self as Hself. pose proof step_new as Hnew.
    inversion Hstep; subst; simpl in *.
    all: try (apply map_cid in Hk; lia).
    + apply lookup_insert_Some in Hk as [[-> _]|[Hne Hk]].
      * by exists i, (Running (length (calls (st c))) key fn true).
      * apply map_cid in Hk. lia.
    + apply lookup_insert_Some in Hk as [[-> _]|[Hne Hk]].
      * exists (length (threads c) + 0)%nat, (Running (length (calls (st c))) key fn false).
        split; [by apply Hnew|done].
      * apply map_cid in Hk. lia.
    + rewrite default_delete in Hk. apply lookup_delete_Some in Hk as [_ Hk].
      apply map_cid in Hk. lia.
    + match goal with
      | H : doCall_locked ?cid0 ?key0 _ = Some (?s1, ?x) |- _ =>
          destruct (doCall_locked_effect _ _ _ _ _ H) as (k & Hk0 & _ & Hm & _);
          destruct (after_locked_state cid0 goexit sync s1 x) as (Hm' & _)
      end.
      simpl in Hm'. rewrite Hm', Hm in Hk.
      assert (default ∅ (m (st c)) !! key = Some (length (calls (st c)))) as Hk'.
      { destruct (forgotten k); [done|]. rewrite default_delete in Hk.
        by apply lookup_delete_Some in Hk as [_ Hk]. }
      apply map_cid in Hk'. lia.
Qed.

Lemma step_v_unforgotten (key : string) (cid : nat) (k' : call) :
  default ∅ (m s') !! key = Some cid → calls s' !! cid = Some k' → forgotten k' = false.
Proof.
  intros Hm Hk.
  destruct (tstep_calls _ _ _ _ _ _ _ Hstep Hk)
    as [Hk0 _|k key1 Hk0 Hm1 _ _ _ _ _ Hf _ _|k key0 Hk0 -> Hm0 ->|k key0 fn sync Hk0 -> ->|chs -> -> _].
  - destruct (tstep_map _ _ _ _ _ _ _ Hstep Hm) as [[Hold _]| ->].
    + by eapply (v_unforgotten _ Hinv).
    + apply lookup_lt_Some in Hk0. lia.
  - rewrite Hf. by eapply (v_unforgotten _ Hinv).
  - exfalso. destruct (tstep_map _ _ _ _ _ _ _ Hstep Hm) as [[Hold Hne]| ->].
    + apply Hne. f_equal. by eapply map_key_uniq.
    + apply lookup_lt_Some in Hk0. lia.
  - destruct (doCall_run_fields fn k) as (_ & -> & _).
    destruct (tstep_map _ _ _ _ _ _ _ Hstep Hm) as [[Hold _]| ->].
    + by eapply (v_unforgotten _ Hinv).
    + apply lookup_lt_Some in Hk0. lia.
  - done.
Qed.

(** Once the wait group of a call is done its result is never written
    again. *)
Lemma step_done_stable (cid : nat) (k : call) :
  calls (st c) !! cid = Some k → wg k = 0%nat →
  ∃ k', calls s' !! cid = Some k' ∧ wg k' = 0%nat ∧ val k' = val k ∧ err k' = err k.
Proof.
  intros Hk Hw.
  destruct (tstep_calls_fwd _ _ _ _ _ cid Hstep) as [k' Hk']; [by eexists|].
  exists k'. split; [done|].
  destruct (tstep_calls _ _ _ _ _ _ _ Hstep Hk')
    as [Hk0 _|k0 key1 Hk0 _ _ _ Hw' Hv He _ _ _|k0 key0 Hk0 _ _ ->|k0 key0 fn sync Hk0 -> ->|chs -> _ _];
    simplify_eq; try done.
  - by rewrite Hw', Hv, He.
  - pose proof (v_wg _ Hinv _ _ _ _ Hp eq_refl Hk) as Hw1. simpl in Hw1. lia.
  - apply lookup_lt_Some in Hk. lia.
Qed.

(** Once the goroutine that ran a call is past the critical section of the
    deferred function, nobody joins the call. *)
Lemma step_post_lock_stable (j : nat) (q : pc) (cid : nat) (k k' : call) :
  threads c !! j = Some q → runner_of q = Some cid → pre_lock q = None →
  calls (st c) !! cid = Some k → calls s' !! cid = Some k' →
  dups k' = dups k ∧ chans k' = chans k.
Proof.
  intros Hj Hr Hpre Hk Hk'.
  destruct (tstep_calls _ _ _ _ _ _ _ Hstep Hk')
    as [Hk0 _|k0 key1 Hk0 Hm _ _ _ _ _ _ _ _|k0 key0 Hk0 _ _ ->|k0 key0 fn sync Hk0 -> ->|chs -> _ _];
    simplify_eq; try done.
  - exfalso. destruct (v_map _ Hinv _ _ Hm) as (j' & q' & Hj' & Hq').
    assert (j' = j) as -> by (eapply (v_runner_uniq _ Hinv); eauto using pre_lock_runner).
    congruence.
  - exfalso. assert (i = j) as -> by (by eapply (v_runner_uniq _ Hinv)).
    by simplify_eq.
  - apply lookup_lt_Some in Hk. lia.
Qed.

Lemma step_v_done (j : nat) (q : pc) : threads c' !! j = Some q → pc_ok s' q.
Proof.
  intros Hj. apply step_lookup in Hj as [[-> ->]|[[Hne Hj]|(n & Hn & ->)]].
  - pose proof (v_done _ Hinv _ _ Hp) as Hold. clear c'.
    inversion Hstep; subst; simpl in *; try done.
    + eauto.
    + eexists. split; [apply list_lookup_insert_eq; by eapply lookup_lt_Some|].
      apply doCall_run_fields.
    + match goal with
      | H : doCall_locked ?cid0 ?key0 _ = Some (?s1, ?x) |- _ =>
          destruct (doCall_locked_effect _ _ _ _ _ H) as (k & Hk0 & Hc & _ & Hx);
          destruct (after_locked_state cid0 goexit sync s1 x) as (_ & Hc' & _ & Hcr)
      end.
      destruct Hold as (k0 & Hk1 & Hg). assert (k0 = k) as -> by congruence.
      destruct x as [|e|e]; simpl in *.
      * destruct goexit, sync; simpl; try done; exists k; rewrite Hc; auto.
      * destruct Hx as (He & Hch & _). destruct sync; simpl; [|done].
        exists k. by rewrite Hc.
      * destruct Hx as (He & Hch & Hcrash & _). exists k. rewrite Hc.
        repeat split; try done.
    + eauto.
  - pose proof (v_done _ Hinv _ _ Hj) as Hold.
    pose proof (tstep_crashed _ _ _ _ _ Hstep) as Hcr.
    destruct q as [| | | | | | |cid key goexit sync| |[] cid [v e sh|e|]|cid e| |cid []];
      simpl in *; try done.
    + destruct Hold as (k & Hk & Hg).
      pose proof (v_wg _ Hinv _ _ _ _ Hj eq_refl Hk) as Hw. simpl in Hw.
      destruct (step_done_stable _ _ Hk Hw) as (k' & Hk' & _ & _ & He).
      exists k'. rewrite He. done.
    + destruct Hold as (k & Hk & Hw & ->).
      destruct (step_done_stable _ _ Hk Hw) as (k' & Hk' & Hw' & Hv & He).
      exists k'. repeat split; try done. symmetry. by apply Do_joined_ext.
    + destruct Hold as (k & Hk & Hw & ->).
      destruct (step_done_stable _ _ Hk Hw) as (k' & Hk' & Hw' & Hv & He).
      exists k'. repeat split; try done. symmetry. by apply Do_joined_ext.
    + destruct Hold as (k & Hk & Hw & ->).
      destruct (step_done_stable _ _ Hk Hw) as (k' & Hk' & Hw' & Hv & He).
      exists k'. repeat split; try done. symmetry. by apply Do_joined_ext.
    + destruct Hold as (k & Hk & Hret).
      pose proof (v_wg _ Hinv _ _ _ _ Hj eq_refl Hk) as Hw. simpl in Hw.
      destruct (step_done_stable _ _ Hk Hw) as (k' & Hk' & _ & Hv & He).
      destruct (step_post_lock_stable _ _ _ _ _ Hj eq_refl eq_refl Hk Hk') as [Hd Hch].
      exists k'. split; [done|]. unfold Do_started in *. by rewrite Hv, He, Hd.
    + destruct Hold as (k & Hk & Hpe & Hch0).
      pose proof (v_wg _ Hinv _ _ _ _ Hj eq_refl Hk) as Hw. simpl in Hw.
      destruct (step_done_stable _ _ Hk Hw) as (k' & Hk' & _ & Hv & He).
      destruct (step_post_lock_stable _ _ _ _ _ Hj eq_refl eq_refl Hk Hk') as [Hd Hch].
      exists k'. by rewrite He, Hch.
    + destruct Hold as (k & Hk & Hge).
      pose proof (v_wg _ Hinv _ _ _ _ Hj eq_refl Hk) as Hw. simpl in Hw.
      destruct (step_done_stable _ _ Hk Hw) as (k' & Hk' & _ & Hv & He).
      exists k'. by rewrite He.
    + destruct Hold as (k & Hk & Hpe & Hch0 & Hcrash).
      pose proof (v_wg _ Hinv _ _ _ _ Hj eq_refl Hk) as Hw. simpl in Hw.
      destruct (step_done_stable _ _ Hk Hw) as (k' & Hk' & _ & Hv & He).
      destruct (step_post_lock_stable _ _ _ _ _ Hj eq_refl eq_refl Hk Hk') as [Hd Hch].
      exists k'. rewrite He, Hch. auto.
    + destruct Hold as (k & Hk & Hge).
      pose proof (v_wg _ Hinv _ _ _ _ Hj eq_refl Hk) as Hw. simpl in Hw.
      destruct (step_done_stable _ _ Hk Hw) as (k' & Hk' & _ & Hv & He).
      exists k'. by rewrite He.
  - destruct (tstep_new _ _ _ _ _ _ _ Hstep Hn) as (_ & _ & _ & _ & key & fn & -> & _).
    done.
Qed.

Lemma step_v_dups (cid : nat) (k' : call) :
  calls s' !! cid = Some k' →
  dups k' = wrap64 (Z.of_nat (count_joined cid (threads c'))).
Proof.
  intros Hk. simpl. rewrite count_joined_app.
  pose proof (count_joined_insert cid _ _ _ p' Hp) as Hins.
  assert (Hnew : count_joined cid new = 0%nat).
  { apply count_joined_zero. intros n q Hn.
    destruct (tstep_new _ _ _ _ _ _ _ Hstep Hn) as (_ & _ & _ & -> & _). done. }
  rewrite Hnew, Nat.add_0_r.
  destruct (tstep_calls _ _ _ _ _ _ _ Hstep Hk)
    as [Hk0 Hjj|k key1 Hk0 _ Hj0 Hj1 _ _ _ _ Hd _|k key0 Hk0 -> _ ->|k key0 fn sync Hk0 -> ->|chs -> -> Hj1].
  - rewrite (v_dups _ Hinv _ _ Hk0). do 2 f_equal.
    unfold joins in Hins. destruct (decide (joined_of p = Some cid)) as [Hy|Hn].
    + rewrite decide_True in Hins by (by apply Hjj). lia.
    + rewrite decide_False in Hins by (by rewrite <- Hjj). lia.
  - rewrite Hd, (v_dups _ Hinv _ _ Hk0), wrap64_idemp. f_equal.
    unfold joins in Hins. rewrite decide_False in Hins by congruence.
    rewrite decide_True in Hins by done. lia.
  - simpl. rewrite (v_dups _ Hinv _ _ Hk0). do 2 f_equal.
    inversion Hstep; subst. unfold joins in Hins. simpl in Hins.
    rewrite ?decide_False in Hins by done. lia.
  - destruct (doCall_run_fields fn k) as (_ & _ & -> & _).
    rewrite (v_dups _ Hinv _ _ Hk0). do 2 f_equal.
    inversion Hstep; subst. unfold joins in Hins. simpl in Hins.
    rewrite ?decide_False in Hins by done. lia.
  - simpl. unfold joins in Hins. rewrite (decide_False (P := joined_of p' = _)) in Hins
      by congruence.
    assert (Hold : count_joined (length (calls (st c))) (threads c) = 0%nat).
    { apply count_joined_zero. intros j q Hj Hq%joined_pc_cid.
      pose proof (v_cid _ Hinv _ _ _ Hj Hq). lia. }
    rewrite Hold in Hins.
    replace (count_joined (length (calls (st c))) (<[i:=p']> (threads c))) with 0%nat by lia.
    done.
Qed.

End step.

Lemma sf_inv_init : inv init.
Proof.
  split; simpl; intros; by rewrite ?lookup_nil in *.
Qed.

Lemma sf_inv_exec (ev : event) (c c' : config) : inv c → exec ev c = Some c' → inv c'.
Proof.
  intros Hinv Hex. destruct ev as [p|i]; simpl in Hex.
  - destruct (is_call p) eqn:Hcall; simplify_eq.
    assert (Hp : pc_cid p = None ∧ runner_of p = None ∧ pre_lock p = None
                 ∧ joined_of p = None ∧ ∀ s, pc_ok s p) by (by destruct p).
    destruct Hp as (Hp1 & Hp2 & Hp3 & Hp4 & Hp5).
    assert (Hlk : ∀ j q, (threads c ++ [p]) !! j = Some q →
                         threads c !! j = Some q ∨ (j = length (threads c) ∧ q = p)).
    { intros j q [Hj|[Hlen Hj]]%lookup_app_Some; [by left|].
      apply list_lookup_singleton_Some in Hj as [Hz <-]. right. split; [lia|done]. }
    destruct Hinv as [Hmap Hunf Hcid Huniq Hwg Hdone Hdups]. split; simpl.
    + intros key cid Hk. destruct (Hmap _ _ Hk) as (j & q & Hj & Hq).
      exists j, q. split; [by apply lookup_app_l_Some|done].
    + done.
    + intros j q cid [Hj|[-> ->]]%Hlk Hq; [by eapply Hcid | congruence].
    + intros j1 j2 q1 q2 cid [H1|[-> ->]]%Hlk [H2|[-> ->]]%Hlk Hr1 Hr2;
        try congruence. by eapply Huniq.
    + intros j q cid k [Hj|[-> ->]]%Hlk Hq; [by eapply Hwg | congruence].
    + intros j q [Hj|[-> ->]]%Hlk; [by eapply Hdone | done].
    + intros cid k Hk. rewrite count_joined_app, (Hdups _ _ Hk).
      rewrite (count_joined_zero cid [p]), Nat.add_0_r; [done|].
      intros j q Hj. apply list_lookup_singleton_Some in Hj as [_ <-]. congruence.
  - destruct (threads c !! i) as [p|] eqn:Hp; simplify_eq/=.
    destruct (thread_step p (st c)) as [[[s' p'] new]|] eqn:Hstep; simplify_eq/=.
    apply thread_step_tstep in Hstep. split; simpl.
    + by eapply step_v_map.
    + by eapply step_v_unforgotten.
    + by eapply step_v_cid.
    + by eapply step_v_runner_uniq.
    + by eapply step_v_wg.
    + by eapply step_v_done.
    + by eapply step_v_dups.
Qed.

Lemma sf_inv_reachable (c : config) : reachable c → inv c.
Proof.
  intros [evs Hevs]. revert Hevs. generalize sf_inv_init.
  generalize init. induction evs as [|ev evs IH]; intros c0 H0 Hr.
  - by simplify_eq/=.
  - simpl in Hr. destruct (exec ev c0) as [c1|] eqn:Hex; [|done].
    eapply IH; [|exact Hr]. by eapply sf_inv_exec.
Qed.

(** *** The channels *)

Lemma send_effect (r : Result) (ch : nat) (h h' : list (option Result)) :
  send r ch h = Some h' →
  length h' = length h
  ∧ ∀ ch' x, h' !! ch' = Some (Some x) → h !! ch' = Some (Some x) ∨ (ch' = ch ∧ x = r).
Proof.
  unfold send. destruct (h !! ch) as [[x0|]|] eqn:Hch; try done. intros [= <-].
  split; [by rewrite length_insert|]. intros ch' x Hx.
  destruct (decide (ch = ch')) as [->|Hne].
  - rewrite list_lookup_insert_eq in Hx by (by eapply lookup_lt_Some).
    right. split; congruence.
  - rewrite list_lookup_insert_ne in Hx by done. by left.
Qed.

Lemma send_all_effect (r : Result) (chs : list nat) (h h' : list (option Result)) :
  send_all r chs h = Some h' →
  length h' = length h
  ∧ ∀ ch' x, h' !! ch' = Some (Some x) → h !! ch' = Some (Some x) ∨ (ch' ∈ chs ∧ x = r).
Proof.
  revert h; induction chs as [|ch chs IH]; intros h Hs; simpl in Hs.
  - simplify_eq. split; [done|]. intros ch' x Hx. by left.
  - destruct (send r ch h) as [h1|] eqn:H1; [|done]. simpl in Hs.
    destruct (send_effect _ _ _ _ H1) as [Hl1 Hx1].
    destruct (IH _ Hs) as [Hl Hx]. split; [congruence|].
    intros ch' x Hin. destruct (Hx _ _ Hin) as [Hold|[Hin' ->]].
    + destruct (Hx1 _ _ Hold) as [Hold'|[-> ->]]; [by left|].
      right. split; [left | done].
    + right. split; [by right | done].
Qed.

Lemma ch_inv_init : ch_inv (st init).
Proof. split; simpl; intros; by rewrite ?lookup_nil in *. Qed.

(** A step that changes the fields of one call but not its channels, and
    leaves the results of the calls that are done. *)
Lemma ch_inv_update (s : state) (cl : list call) (mo : option (gmap string nat))
    (cr : option error) (cid0 : nat) (k0 k0' : call) :
  ch_inv s → calls s !! cid0 = Some k0 →
  chans k0' = chans k0 →
  (wg k0 = 0%nat → wg k0' = 0%nat ∧ val k0' = val k0 ∧ err k0' = err k0) →
  cl = <[cid0 := k0']> (calls s) →
  ch_inv (mkState mo cl (chan_heap s) cr).
Proof.
  intros [Hf Hu Hs] Hk0 Hch Hres ->.
  assert (Hlt : (cid0 < length (calls s))%nat) by (by eapply lookup_lt_Some).
  assert (Hback : ∀ j kj', <[cid0 := k0']> (calls s) !! j = Some kj' →
            ∃ kj, calls s !! j = Some kj ∧ chans kj' = chans kj).
  { intros j kj' Hj. destruct (decide (cid0 = j)) as [->|Hne].
    - rewrite list_lookup_insert_eq in Hj by done. simplify_eq. eauto.
    - rewrite list_lookup_insert_ne in Hj by done. eauto. }
  split; simpl.
  - intros cid k ch (kj & Hj & Hc)%Hback. rewrite Hc. by eapply Hf.
  - intros cid1 cid2 k1 k2 ch (kj1 & Hj1 & Hc1)%Hback (kj2 & Hj2 & Hc2)%Hback.
    rewrite Hc1, Hc2. by eapply Hu.
  - intros ch r (cid & k & Hk & Hin & Hw & Hv & He & Hp & Hg)%Hs.
    destruct (decide (cid0 = cid)) as [->|Hne].
    + simplify_eq. destruct (Hres Hw) as (Hw' & Hv' & He').
      exists cid, k0'. rewrite list_lookup_insert_eq by done.
      rewrite Hch, Hw', Hv', He'. done.
    + exists cid, k. rewrite list_lookup_insert_ne by done. done.
Qed.

Lemma alter_insert (f : call → call) (l : list call) (i : nat) (k : call) :
  l !! i = Some k → alter f i l = <[i := f k]> l.
Proof.
  intros Hk. apply list_eq. intros j. destruct (decide (i = j)) as [->|Hne].
  - rewrite list_lookup_alter_eq, Hk, list_lookup_insert_eq; [done|].
    by eapply lookup_lt_Some.
  - by rewrite list_lookup_alter_ne, list_lookup_insert_ne.
Qed.

(** A step that makes a channel and registers it on a call. *)
Lemma ch_inv_add_chan (s : state) (mo : option (gmap string nat)) (cid0 : nat) (k0 : call) :
  ch_inv s → calls s !! cid0 = Some k0 →
  ch_inv (mkState mo
            (<[cid0 := add_chan (length (chan_heap s)) (incr_dups k0)]> (calls s))
            (chan_heap s ++ [None]) (crashed s)).
Proof.
  intros [Hf Hu Hs] Hk0.
  assert (Hlt : (cid0 < length (calls s))%nat) by (by eapply lookup_lt_Some).
  assert (Hback : ∀ j kj' ch, <[cid0 := add_chan (length (chan_heap s)) (incr_dups k0)]>
                                (calls s) !! j = Some kj' → ch ∈ chans kj' →
            (∃ kj, calls s !! j = Some kj ∧ ch ∈ chans kj)
            ∨ (j = cid0 ∧ ch = length (chan_heap s))).
  { intros j kj' ch Hj Hin. destruct (decide (cid0 = j)) as [->|Hne].
    - rewrite list_lookup_insert_eq in Hj by done. simplify_eq. simpl in Hin.
      apply elem_of_app in Hin as [Hin| ->%list_elem_of_singleton]; eauto.
    - rewrite list_lookup_insert_ne in Hj by done. eauto. }
  split; simpl.
  - intros cid k ch Hk Hin. rewrite length_app. simpl.
    destruct (Hback _ _ _ Hk Hin) as [(kj & Hj & Hin')|[-> ->]]; [|lia].
    pose proof (Hf _ _ _ Hj Hin'). lia.
  - intros cid1 cid2 k1 k2 ch Hk1 Hk2 Hin1 Hin2.
    destruct (Hback _ _ _ Hk1 Hin1) as [(kj1 & Hj1 & Hin1')|[-> ->]];
      destruct (Hback _ _ _ Hk2 Hin2) as [(kj2 & Hj2 & Hin2')|[-> Heq]]; try done.
    + by eapply Hu.
    + subst ch. pose proof (Hf _ _ _ Hj1 Hin1'). lia.
    + pose proof (Hf _ _ _ Hj2 Hin2'). lia.
  - intros ch r [Hr|[_ Hr]]%lookup_app_Some;
      [|by apply list_lookup_singleton_Some in Hr as [_ ?]].
    destruct (Hs _ _ Hr) as (cid & k & Hk & Hin & Hrest).
    destruct (decide (cid0 = cid)) as [->|Hne].
    + simplify_eq. eexists cid, _. rewrite list_lookup_insert_eq by done.
      split; [done|]. simpl. split; [apply elem_of_app; by left | done].
    + exists cid, k. rewrite list_lookup_insert_ne by done. done.
Qed.

(** A step that allocates a call, with a new channel or with none. *)
Lemma ch_inv_new_call (s : state) (mo : option (gmap string nat)) (with_chan : bool) :
  ch_inv s →
  ch_inv (mkState mo
            (calls s ++ [new_call (if with_chan then [length (chan_heap s)] else [])])
            (if with_chan then chan_heap s ++ [None] else chan_heap s) (crashed s)).
Proof.
  intros [Hf Hu Hs].
  assert (Hback : ∀ j kj' ch,
            (calls s ++ [new_call (if with_chan then [length (chan_heap s)] else [])])
              !! j = Some kj' → ch ∈ chans kj' →
            (calls s !! j = Some kj')
            ∨ (j = length (calls s) ∧ ch = length (chan_heap s) ∧ with_chan = true)).
  { intros j kj' ch [Hj|[Hlen Hj]]%lookup_app_Some Hin; [by left|].
    apply list_lookup_singleton_Some in Hj as [Hz <-]. right.
    destruct with_chan; simpl in Hin; [|by apply elem_of_nil in Hin].
    apply list_elem_of_singleton in Hin. split; [lia|done]. }
  assert (Hlen : (length (chan_heap s)
                  ≤ length (if with_chan then chan_heap s ++ [None] else chan_heap s))%nat).
  { destruct with_chan; rewrite ?length_app; simpl; lia. }
  split; simpl.
  - intros cid k ch Hk Hin.
    destruct (Hback _ _ _ Hk Hin) as [Hj|(-> & -> & ->)].
    + pose proof (Hf _ _ _ Hj Hin). lia.
    + rewrite length_app. simpl. lia.
  - intros cid1 cid2 k1 k2 ch Hk1 Hk2 Hin1 Hin2.
    destruct (Hback _ _ _ Hk1 Hin1) as [Hj1|(-> & -> & _)];
      destruct (Hback _ _ _ Hk2 Hin2) as [Hj2|(-> & Heq & _)]; try done.
    + by eapply Hu.
    + subst ch. pose proof (Hf _ _ _ Hj1 Hin1). lia.
    + pose proof (Hf _ _ _ Hj2 Hin2). lia.
  - intros ch r Hr.
    assert (Hr' : chan_heap s !! ch = Some (Some r)).
    { destruct with_chan; [|done].
      apply lookup_app_Some in Hr as [Hr|[_ Hr]]; [done|].
      by apply list_lookup_singleton_Some in Hr as [_ ?]. }
    destruct (Hs _ _ Hr') as (cid & k & Hk & Hrest).
    exists cid, k. split; [by apply lookup_app_l_Some | done].
Qed.

Lemma ch_inv_ext (s s' : state) :
  ch_inv s → calls s' = calls s → chan_heap s' = chan_heap s → ch_inv s'.
Proof. intros [Hf Hu Hs] Hc Hh. split; rewrite ?Hc, ?Hh; done. Qed.

(** The deferred function of [doCall] sends the stored result. *)
Lemma ch_inv_send (s s' : state) (cid : nat) (k : call) (b : bool) :
  ch_inv s → calls s !! cid = Some k → wg k = 0%nat →
  as_panicError (err k) = None → err k ≠ Some errGoexit →
  calls s' = calls s →
  send_all (mkResult (val k) (err k) b) (chans k) (chan_heap s) = Some (chan_heap s') →
  ch_inv s'.
Proof.
  intros [Hf Hu Hs] Hk Hw Hp Hg Hc Hsend.
  destruct (send_all_effect _ _ _ _ Hsend) as [Hlen Hx].
  split; rewrite ?Hc, ?Hlen; try done.
  intros ch r Hr. destruct (Hx _ _ Hr) as [Hold|[Hin ->]]; [by apply Hs|].
  by exists cid, k.
Qed.

Lemma ch_inv_tstep (c : config) (i : nat) (p p' : pc) (s' : state) (new : list pc) :
  inv c → ch_inv (st c) → threads c !! i = Some p → tstep (st c) p s' p' new →
  ch_inv s'.
Proof.
  intros Hinv Hch Hp Hstep.
  assert (Hmap : ∀ key cid, default ∅ (m (st c)) !! key = Some cid →
                   is_Some (calls (st c) !! cid)).
  { intros key cid Hk. apply lookup_lt_is_Some. by eapply map_cid. }
  destruct Hstep as [key fn cid Hk|key fn Hk|cid k Hk Hw|key fn cid Hk|key fn Hk|key
                    |cid key fn sync k Hk|cid key goexit sync s1 x Hl|cid k Hk].
  - destruct (Hmap _ _ Hk) as [k Hk']. rewrite (alter_insert _ _ _ _ Hk').
    by apply (ch_inv_update _ _ _ _ cid k (incr_dups k)).
  - by apply (ch_inv_new_call _ _ false).
  - done.
  - destruct (Hmap _ _ Hk) as [k Hk']. rewrite (alter_insert _ _ _ _ Hk').
    by apply ch_inv_add_chan.
  - by apply (ch_inv_new_call _ _ true).
  - unfold Forget. destruct (default ∅ (m (st c)) !! key) as [cid|] eqn:Hk.
    + destruct (Hmap _ _ Hk) as [k Hk']. rewrite (alter_insert _ _ _ _ Hk').
      by apply (ch_inv_update _ _ _ _ cid k (set_forgotten k)).
    + by eapply ch_inv_ext.
  - destruct (doCall_run_fields fn k) as (_ & _ & _ & Hchans & _).
    apply (ch_inv_update _ _ _ _ cid k (doCall_run fn k).1); [done..| |done].
    intros Hw. pose proof (v_wg _ Hinv _ _ _ _ Hp eq_refl Hk) as Hw1. simpl in Hw1. lia.
  - destruct (doCall_locked_effect _ _ _ _ _ Hl) as (k & Hk & Hc & _ & Hx).
    destruct (after_locked_state cid goexit sync s1 x) as (_ & Hc' & Hh' & _).
    pose proof (v_wg _ Hinv _ _ _ _ Hp eq_refl Hk) as Hw. simpl in Hw.
    destruct x as [|e|e].
    + destruct Hx as (Hpe & _ & [[Hg Hh]|[Hg Hsend]]).
      * eapply ch_inv_ext; [done|congruence..].
      * eapply ch_inv_send; [done..|congruence|]. by rewrite Hh'.
    + destruct Hx as (_ & _ & _ & Hh). eapply ch_inv_ext; [done|congruence..].
    + destruct Hx as (_ & _ & _ & Hh). eapply ch_inv_ext; [done|congruence..].
  - done.
Qed.

Lemma ch_inv_exec (ev : event) (c c' : config) :
  inv c → ch_inv (st c) → exec ev c = Some c' → ch_inv (st c').
Proof.
  intros Hinv Hch Hex. destruct ev as [p|i]; simpl in Hex.
  - destruct (is_call p); by simplify_eq.
  - destruct (threads c !! i) as [p|] eqn:Hp; simplify_eq/=.
    destruct (thread_step p (st c)) as [[[s' p'] new]|] eqn:Hstep; simplify_eq/=.
    apply thread_step_tstep in Hstep. by eapply ch_inv_tstep.
Qed.

Lemma ch_inv_reachable (c : config) : reachable c → ch_inv (st c).
Proof.
  intros [evs Hevs]. revert Hevs. generalize sf_inv_init ch_inv_init.
  generalize init. induction evs as [|ev evs IH]; intros c0 H0 H1 Hr.
  - by simplify_eq/=.
  - simpl in Hr. destruct (exec ev c0) as [c1|] eqn:Hex; [|done].
    eapply IH; [| |exact Hr]; [by eapply sf_inv_exec | by eapply ch_inv_exec].
Qed.

(** *** Results of [Do], [Forget], [runtime.Goexit] and panics *)

Lemma done_stable (ev : event) (c c' : config) (cid : nat) (k : call) :
  inv c → exec ev c = Some c' → calls (st c) !! cid = Some k → wg k = 0%nat →
  ∃ k', calls (st c') !! cid = Some k' ∧ wg k' = 0%nat ∧ val k' = val k ∧ err k' = err k.
Proof.
  intros Hinv Hex Hk Hw. destruct ev as [p|i]; simpl in Hex.
  - destruct (is_call p); simplify_eq. by exists k.
  - destruct (threads c !! i) as [p|] eqn:Hp; simplify_eq/=.
    destruct (thread_step p (st c)) as [[[s' p'] new]|] eqn:Hstep; simplify_eq/=.
    apply thread_step_tstep in Hstep. by eapply step_done_stable.
Qed.

Lemma Do_joined_Return (k : call) (v : option value) (e : option error) (sh : bool) :
  Do_joined k = Return v e sh → v = val k ∧ e = err k ∧ sh = true.
Proof.
  unfold Do_joined. destruct (as_panicError (err k)); [done|].
  destruct (bool_decide _); [done|]. by intros [= <- <- <-].
Qed.

(** C2. In every state the group can reach: a caller of [Do] that found
    the key in the map cannot move while the wait group of that call is not
    done, and when it is done the caller ends as [Do_joined] says, which for
    a stored error that is neither a recorded panic nor [errGoexit] is the
    return of the stored value and error with [shared = true]; every such
    caller that has returned got exactly the stored value and error of its
    call and [shared = true]; the caller that started the call, when it has
    returned, got the stored value and error and [shared = (dups > 0)],
    where [dups] counts (on 64 bits) the goroutines that joined the call, so
    that [shared] holds exactly when some goroutine joined; one goroutine at
    most executes the function of a call, and once the wait group of a call
    is done no step changes its stored value and error. *)
Theorem Do_duplicates_share_one_execution (c : config) :
  reachable c →
  (∀ i cid, threads c !! i = Some (DoWait cid) →
     ∃ k, calls (st c) !! cid = Some k
          ∧ (wg k ≠ 0%nat → thread_step (DoWait cid) (st c) = None)
          ∧ (wg k = 0%nat →
               thread_step (DoWait cid) (st c)
               = Some (st c, DoDone true cid (Do_joined k), []))
          ∧ (as_panicError (err k) = None → err k ≠ Some errGoexit →
               Do_joined k = Return (val k) (err k) true))
  ∧ (∀ i cid v e sh, threads c !! i = Some (DoDone true cid (Return v e sh)) →
       ∃ k, calls (st c) !! cid = Some k ∧ wg k = 0%nat
            ∧ v = val k ∧ e = err k ∧ sh = true)
  ∧ (∀ i cid v e sh, threads c !! i = Some (DoDone false cid (Return v e sh)) →
       ∃ k, calls (st c) !! cid = Some k ∧ wg k = 0%nat
            ∧ v = val k ∧ e = err k ∧ sh = (0 <? dups k)
            ∧ dups k = wrap64 (Z.of_nat (count_joined cid (threads c)))
            ∧ (Z.of_nat (count_joined cid (threads c)) < 2 ^ 63 →
                 (sh = true ↔ ∃ j q, threads c !! j = Some q ∧ joined_of q = Some cid)))
  ∧ (∀ i j p q cid, threads c !! i = Some p → threads c !! j = Some q →
       runner_of p = Some cid → runner_of q = Some cid → i = j)
  ∧ (∀ ev c' cid k, exec ev c = Some c' → calls (st c) !! cid = Some k → wg k = 0%nat →
       ∃ k', calls (st c') !! cid = Some k' ∧ wg k' = 0%nat
             ∧ val k' = val k ∧ err k' = err k).
Proof.
  intros Hinv%sf_inv_reachable. split; [|split; [|split; [|split]]].
  - intros i cid Hi.
    destruct (lookup_lt_is_Some_2 (calls (st c)) cid) as [k Hk];
      [by eapply (v_cid _ Hinv)|].
    exists k. split; [done|]. simpl. rewrite Hk. simpl. repeat split.
    + intros Hw. by destruct (wg k).
    + by intros ->.
    + intros Hp Hg. unfold Do_joined. rewrite Hp. by rewrite bool_decide_eq_false_2.
  - intros i cid v e sh Hi. destruct (v_done _ Hinv _ _ Hi) as (k & Hk & Hw & Ho).
    symmetry in Ho. apply Do_joined_Return in Ho as (-> & -> & ->). by exists k.
  - intros i cid v e sh Hi. destruct (v_done _ Hinv _ _ Hi) as (k & Hk & Ho).
    unfold Do_started in Ho. simplify_eq. exists k.
    pose proof (v_wg _ Hinv _ _ _ _ Hi eq_refl Hk) as Hw. simpl in Hw.
    pose proof (v_dups _ Hinv _ _ Hk) as Hd.
    repeat split; try done.
    + intros Hpos%Z.ltb_lt. apply count_joined_pos.
      rewrite Hd, wrap64_small in Hpos by lia. lia.
    + intros Hex%count_joined_pos. apply Z.ltb_lt.
      rewrite Hd, wrap64_small by lia. lia.
  - apply (v_runner_uniq _ Hinv).
  - intros ev c' cid k. by apply done_stable.
Qed.

Lemma Do_duplicates_share_one_execution_witness :
  ∃ k, calls (st share_demo_config) !! 0%nat = Some k ∧ wg k = 0%nat
       ∧ Some "bar" = val k ∧ None = err k ∧ true = true.
Proof.
  assert (Hr : reachable share_demo_config) by (exists share_demo; reflexivity).
  exact (proj1 (proj2 (Do_duplicates_share_one_execution share_demo_config Hr))
           1%nat 0%nat (Some "bar") None true eq_refl).
Defined.

(** The flag [forgotten] of the first call is set while the call is in the
    map, and yet the call is no longer in the map and the next caller does
    not wait for it: it starts a call of its own. *)
Lemma Forget_entry_is_not_reused :
  ∃ c, run forget_demo init = Some c
       ∧ forgotten <$> calls (st c) !! 0%nat = Some true
       ∧ default ∅ (m (st c)) !! "k" ≠ Some 0%nat
       ∧ threads c !! 2%nat ≠ Some (DoWait 0)
       ∧ threads c !! 2%nat = Some (Running 1 "k" (Returns (Some "2") None) true).
Proof. eexists. split; [reflexivity|]. repeat split; done. Qed.

(** C3, amended.  [Forget key], when the map has a call for [key], sets the
    flag [forgotten] of that call and takes it out of the map at once, so
    that the next caller of [Do] for [key] starts a new call; the deferred
    function of a call whose flag is set leaves the map as it is, whichever
    call the map holds for the key by then; and when the map has no call for
    [key], [Forget key] changes nothing. *)
Theorem Forget_removes_entry_and_completion_keeps_newer (s : state) (key : string) :
  (∀ cid k, default ∅ (m s) !! key = Some cid → calls s !! cid = Some k →
     default ∅ (m (Forget key s)) !! key = None
     ∧ calls (Forget key s) !! cid = Some (set_forgotten k)
     ∧ (Do_enter key (Forget key s)).2 = Started (length (calls s)))
  ∧ (∀ cid k s1 x, calls s !! cid = Some k → forgotten k = true →
       doCall_locked cid key s = Some (s1, x) → m s1 = m s)
  ∧ (default ∅ (m s) !! key = None → Forget key s = s).
Proof.
  split; [|split].
  - intros cid k Hm Hk. unfold Forget, Do_enter. simpl.
    rewrite default_delete, lookup_delete_eq, Hm. simpl.
    rewrite list_lookup_alter_eq, Hk, length_alter. done.
  - intros cid k s1 x Hk Hf Hl.
    destruct (doCall_locked_effect _ _ _ _ _ Hl) as (k' & Hk' & _ & Hm & _).
    simplify_eq. by rewrite Hf in Hm.
  - intros Hm. unfold Forget. rewrite Hm. destruct s as [[mm|] cs h cr]; simpl in *.
    + by rewrite delete_id.
    + done.
Qed.

(** No joiner is handed an error: the second caller of [Do] does not
    return, its goroutine is ended by [runtime.Goexit]; the channel of the
    caller of [DoChan] is empty, and stays empty, for no goroutine can move
    any more. *)
Lemma Goexit_is_not_reported_to_joiners :
  ∃ c, run goexit_demo init = Some c
       ∧ err <$> calls (st c) !! 0%nat = Some (Some errGoexit)
       ∧ threads c !! 1%nat = Some (DoChanReturned 0 0 true)
       ∧ chan_heap (st c) !! 0%nat = Some None
       ∧ threads c !! 2%nat = Some (DoDone true 0 Goexit)
       ∧ (∀ v sh, threads c !! 2%nat ≠ Some (DoDone true 0 (Return v (Some errGoexit) sh)))
       ∧ (∀ i, exec (EvStep i) c = None).
Proof.
  eexists. split; [reflexivity|]. repeat split; try done.
  intros [|[|[|i]]]; reflexivity.
Qed.

(** C4, amended.  A function that ends by [runtime.Goexit] leaves
    [errGoexit] as the stored error of its call, which is no recorded
    panic.  In every state the group can reach, for a call whose stored
    error is [errGoexit]: a caller of [Do] waiting for the call, once the
    wait group is done, ends by [runtime.Goexit] itself, it neither returns
    nor panics; the deferred function of [doCall] returns without panicking
    and without sending on any channel; no channel registered on the call
    by [DoChan] holds a result; and every call of [Do] that ended by
    [runtime.Goexit] belongs to a call that stores [errGoexit]. *)
Theorem Goexit_stores_errGoexit_and_ends_joiners (c : config) :
  reachable c →
  (∀ k, err (doCall_run Goexits k).1 = Some errGoexit
        ∧ (doCall_run Goexits k).2 = true
        ∧ as_panicError (Some errGoexit) = None)
  ∧ (∀ i cid k, threads c !! i = Some (DoWait cid) →
       calls (st c) !! cid = Some k → wg k = 0%nat → err k = Some errGoexit →
       thread_step (DoWait cid) (st c) = Some (st c, DoDone true cid Goexit, []))
  ∧ (∀ cid key k, calls (st c) !! cid = Some k → err k = Some errGoexit →
       ∃ s1, doCall_locked cid key (st c) = Some (s1, ExitNormal)
             ∧ chan_heap s1 = chan_heap (st c) ∧ crashed s1 = crashed (st c))
  ∧ (∀ cid k ch, calls (st c) !! cid = Some k → err k = Some errGoexit →
       ch ∈ chans k → chan_heap (st c) !! ch = Some None)
  ∧ (∀ i dup cid, threads c !! i = Some (DoDone dup cid Goexit) →
       ∃ k, calls (st c) !! cid = Some k ∧ wg k = 0%nat ∧ err k = Some errGoexit).
Proof.
  intros Hr. pose proof (ch_inv_reachable _ Hr) as Hch.
  apply sf_inv_reachable in Hr as Hinv. split; [|split; [|split; [|split]]].
  - intros k. by destruct k.
  - intros i cid k Hi Hk Hw He. simpl. rewrite Hk. simpl. rewrite Hw.
    unfold Do_joined. by rewrite He.
  - intros cid key k Hk He. unfold doCall_locked. rewrite Hk. simpl. rewrite He. simpl.
    eexists. split; [done|]. done.
  - intros cid k ch Hk He Hin.
    destruct (lookup_lt_is_Some_2 (chan_heap (st c)) ch) as [[r|] Hx];
      [by eapply (ci_fresh _ Hch)| |done].
    destruct (ci_sent _ Hch _ _ Hx) as (cid' & k' & Hk' & Hin' & _ & _ & _ & _ & Hg).
    assert (cid' = cid) as -> by (by eapply (ci_uniq _ Hch)).
    by simplify_eq.
  - intros i dup cid Hi. pose proof (v_done _ Hinv _ _ Hi) as Hok.
    destruct dup; simpl in Hok.
    + destruct Hok as (k & Hk & Hw & Ho). exists k. repeat split; try done.
      unfold Do_joined in Ho. destruct (as_panicError (err k)); [done|].
      destruct (bool_decide (err k = Some errGoexit)) eqn:Hb; [|done].
      by apply bool_decide_eq_true in Hb.
    + destruct Hok as (k & Hk & He). exists k.
      pose proof (v_wg _ Hinv _ _ _ _ Hi eq_refl Hk) as Hw. done.
Qed.

Lemma Goexit_stores_errGoexit_and_ends_joiners_witness :
  thread_step (DoWait 0) (st goexit_waiting_config)
  = Some (st goexit_waiting_config, DoDone true 0 Goexit, []).
Proof.
  assert (Hr : reachable goexit_waiting_config).
  { exists (take 8 goexit_demo). reflexivity. }
  exact (proj1 (proj2 (Goexit_stores_errGoexit_and_ends_joiners goexit_waiting_config Hr))
           2%nat 0%nat _ eq_refl eq_refl eq_refl eq_refl).
Defined.

(** The panic is not raised on the goroutine of the caller of [Do]: that
    goroutine is parked in [select {}], and the panic is raised on a
    goroutine started for it. *)
Lemma panic_not_raised_on_caller_with_DoChan_joiner :
  ∃ c, run panic_demo init = Some c
       ∧ threads c !! 0%nat = Some (Parked 0 (panicError "boom" "main.f()"))
       ∧ threads c !! 0%nat ≠ Some (DoDone false 0 (Panic (panicError "boom" "main.f()")))
       ∧ crashed (st c) = Some (panicError "boom" "main.f()").
Proof. eexists. split; [reflexivity|]. repeat split; done. Qed.

(** C5, amended.  A function that panics with a value [r] leaves the
    [panicError] made of [r] and the stack as the stored error of its call.
    In every state the group can reach, for a call with such a stored
    error: a caller of [Do] waiting for the call panics with that very
    error once the wait group is done; the caller of [Do] that started the
    call panics with it too when no channel is registered on the call; when
    one is, the panic is raised on a goroutine of its own, which nobody can
    recover from, and the caller is parked for ever.  Every call of [Do]
    that ended in a panic raised the stored error of its call. *)
Theorem panic_is_raised_again_on_Do_callers (c : config) :
  reachable c →
  (∀ r stack k,
     err (doCall_run (Panics (Some r) stack) k).1 = Some (newPanicError r stack)
     ∧ (doCall_run (Panics (Some r) stack) k).2 = false)
  ∧ (∀ i cid k v stack, threads c !! i = Some (DoWait cid) →
       calls (st c) !! cid = Some k → wg k = 0%nat → err k = Some (panicError v stack) →
       thread_step (DoWait cid) (st c)
       = Some (st c, DoDone true cid (Panic (panicError v stack)), []))
  ∧ (∀ i cid key goexit k v stack,
       threads c !! i = Some (Deferred cid key goexit true) →
       calls (st c) !! cid = Some k → err k = Some (panicError v stack) →
       (chans k = [] →
          ∃ s', thread_step (Deferred cid key goexit true) (st c)
                = Some (s', DoDone false cid (Panic (panicError v stack)), [])
                ∧ crashed s' = crashed (st c))
       ∧ (chans k ≠ [] →
          ∃ s', thread_step (Deferred cid key goexit true) (st c)
                = Some (s', Parked cid (panicError v stack), [])
                ∧ crashed s' = Some (panicError v stack)))
  ∧ (∀ i dup cid e, threads c !! i = Some (DoDone dup cid (Panic e)) →
       ∃ k, calls (st c) !! cid = Some k ∧ wg k = 0%nat ∧ as_panicError (err k) = Some e
            ∧ (dup = false → chans k = [])).
Proof.
  intros Hinv%sf_inv_reachable. split; [|split; [|split]].
  - intros r stack k. by destruct k.
  - intros i cid k v stack Hi Hk Hw He. simpl. rewrite Hk. simpl. rewrite Hw.
    unfold Do_joined. by rewrite He.
  - intros i cid key goexit k v stack Hi Hk He. split; intros Hch.
    + simpl. unfold doCall_locked. rewrite Hk. simpl. rewrite He, Hch. simpl.
      eexists. split; done.
    + simpl. unfold doCall_locked. rewrite Hk. simpl. rewrite He. simpl.
      destruct (chans k); [done|]. simpl. eexists. split; done.
  - intros i dup cid e Hi. pose proof (v_done _ Hinv _ _ Hi) as Hok.
    destruct dup; simpl in Hok.
    + destruct Hok as (k & Hk & Hw & Ho). exists k. repeat split; try done.
      unfold Do_joined in Ho. destruct (as_panicError (err k)); [by simplify_eq|].
      by destruct (bool_decide _).
    + destruct Hok as (k & Hk & He & Hch). exists k.
      pose proof (v_wg _ Hinv _ _ _ _ Hi eq_refl Hk) as Hw. done.
Qed.

Lemma panic_is_raised_again_on_Do_callers_witness :
  thread_step (DoWait 0) (st panic_waiting_config)
  = Some (st panic_waiting_config, DoDone true 0 (Panic (panicError "boom" "main.f()")), []).
Proof.
  assert (Hr : reachable panic_waiting_config).
  { exists [EvCall (DoCall "k" (Panics (Some "boom") "main.f()")); EvStep 0;
            EvCall (DoCall "k" (Returns None None)); EvStep 1; EvStep 0].
    reflexivity. }
  exact (proj1 (proj2 (panic_is_raised_again_on_Do_callers panic_waiting_config Hr))
           1%nat 0%nat _ "boom" "main.f()" eq_refl eq_refl eq_refl eq_refl).
Defined.

(** *** Induction over the states a group reaches *)

Lemma sf_run_snoc (evs : list event) (ev : event) (c : config) :
  run (evs ++ [ev]) c = run evs c ≫= exec ev.
Proof.
  revert c; induction evs as [|e evs IH]; intros c; simpl.
  - by destruct (exec ev c).
  - destruct (exec e c); simpl; [apply IH | done].
Qed.

Lemma sf_reachable_inv (P : config → Prop) (c : config) :
  P init →
  (∀ ev c1 c2, reachable c1 → P c1 → exec ev c1 = Some c2 → P c2) →
  reachable c → P c.
Proof.
  intros H0 Hstep [evs Hevs]. revert c Hevs.
  induction evs as [|ev evs IH] using rev_ind; intros c Hevs.
  - by simplify_eq/=.
  - rewrite sf_run_snoc in Hevs.
    destruct (run evs init) as [c1|] eqn:Hc1; [|done]. simpl in Hevs.
    eapply Hstep; [by exists evs | by apply IH | done].
Qed.


(** An event is a call, which adds a goroutine, or a step of a goroutine. *)
Lemma exec_cases (ev : event) (c c' : config) :
  exec ev c = Some c' →
  (∃ p, is_call p = true ∧ c' = mkConfig (st c) (threads c ++ [p]))
  ∨ (∃ i p p' s' new, threads c !! i = Some p ∧ tstep (st c) p s' p' new
       ∧ c' = mkConfig s' (<[i := p']> (threads c) ++ new)).
Proof.
  intros Hex. destruct ev as [p|i]; simpl in Hex.
  - destruct (is_call p) eqn:Hcall; simplify_eq. left. eauto.
  - destruct (threads c !! i) as [p|] eqn:Hp; simplify_eq/=.
    destruct (thread_step p (st c)) as [[[s' p'] new]|] eqn:Hstep; simplify_eq/=.
    apply thread_step_tstep in Hstep. right. by exists i, p, p', s', new.
Qed.

Lemma call_lookup (ths : list pc) (p : pc) (j : nat) (q : pc) :
  (ths ++ [p]) !! j = Some q → ths !! j = Some q ∨ (j = length ths ∧ q = p).
Proof.
  intros [Hj|[Hlen Hj]]%lookup_app_Some; [by left|].
  apply list_lookup_singleton_Some in Hj as [Hz <-]. right. split; [lia|done].
Qed.

(** *** The map and the calls in flight *)

Lemma tstep_pre_lock (s s' : state) (p p' : pc) (new : list pc) (cid : nat) (key : string) :
  tstep s p s' p' new → pre_lock p' = Some (cid, key) →
  pre_lock p = Some (cid, key)
  ∨ (cid = length (calls s) ∧ m s' = Some (<[key := cid]> (default ∅ (m s)))).
Proof.
  destruct 1; simpl; intros Hr; simplify_eq; auto.
  destruct (after_locked_pc cid0 goexit sync s1 x) as (_ & _ & Hc & _).
  simpl in Hc. congruence.
Qed.

Lemma inflight_step (c : config) (i : nat) (p p' : pc) (s' : state) (new : list pc) :
  inv c → inflight_inv c → threads c !! i = Some p → tstep (st c) p s' p' new →
  inflight_inv (mkConfig s' (<[i := p']> (threads c) ++ new)).
Proof.
  intros Hinv Hfl Hp Hstep j q cid key k' Hj Hq Hk' Hunf. simpl in *.
  assert (Hmapc : ∀ key0 cid0, default ∅ (m (st c)) !! key0 = Some cid0 →
                    (cid0 < length (calls (st c)))%nat) by (by apply map_cid).
  (* the goroutine was before the critical section already, or the call is new *)
  assert (Hold : (∃ j0 q0, threads c !! j0 = Some q0 ∧ pre_lock q0 = Some (cid, key)
                           ∧ (j0 = i → q0 = p) ∧ (j0 ≠ i → j0 = j))
                 ∨ (cid = length (calls (st c))
                    ∧ m s' = Some (<[key := cid]> (default ∅ (m (st c)))))).
  { apply (step_lookup c i p p' s' new Hp) in Hj as [[-> ->]|[[Hne Hj]|(n & Hn & ->)]].
    - destruct (tstep_pre_lock _ _ _ _ _ _ _ Hstep Hq) as [Hpre|Hnew]; [|by right].
      left. exists i, p. repeat split; try done.
    - left. exists j, q. repeat split; try done.
    - destruct (tstep_new _ _ _ _ _ _ _ Hstep Hn) as (_ & _ & _ & _ & key0 & fn & -> & Hm & _).
      simpl in Hq. simplify_eq. by right. }
  destruct Hold as [(j0 & q0 & Hj0 & Hq0 & Hji & Hjn)|[-> Hm]];
    [|rewrite Hm; simpl; by rewrite lookup_insert_eq].
  assert (Hr0 : runner_of q0 = Some cid) by (by eapply pre_lock_runner).
  (* the call was not forgotten before the step *)
  assert (Hk : ∃ k, calls (st c) !! cid = Some k ∧ forgotten k = false).
  { destruct (tstep_calls _ _ _ _ _ _ _ Hstep Hk')
      as [Hk0 _|k key1 Hk0 _ _ _ _ _ _ Hf _ _|k key0 Hk0 _ _ ->|k key0 fn sync Hk0 -> ->|chs -> _ _].
    - eauto.
    - exists k. by rewrite <- Hf.
    - done.
    - exists k. destruct (doCall_run_fields fn k) as (_ & <- & _). done.
    - apply runner_pc_cid in Hr0. pose proof (v_cid _ Hinv _ _ _ Hj0 Hr0). lia. }
  destruct Hk as (k & Hk & Hf).
  pose proof (Hfl _ _ _ _ _ Hj0 Hq0 Hk Hf) as Hmap.
  (* and the step leaves it in the map *)
  pose proof (step_lookup c i p p' s' new Hp j q Hj) as Hjc.
  inversion Hstep; subst; simpl in *; try done.
  - rewrite lookup_insert_ne; [done|]. intros ->. congruence.
  - rewrite lookup_insert_ne; [done|]. intros ->. congruence.
  - rewrite default_delete. destruct (decide (key0 = key)) as [->|Hne].
    + exfalso. unfold Forget in Hk'. simpl in Hk'. rewrite Hmap in Hk'.
      rewrite list_lookup_alter_eq, Hk in Hk'. simpl in Hk'. by simplify_eq.
    + by rewrite lookup_delete_ne.
  - match goal with
    | H : doCall_locked ?cid0 ?key0 _ = Some (?s1, ?x) |- _ =>
        destruct (doCall_locked_effect _ _ _ _ _ H) as (k0 & Hk0 & _ & Hm & _);
        destruct (after_locked_state cid0 goexit sync s1 x) as (Hm' & _)
    end.
    simpl in Hm'. rewrite Hm', Hm. destruct (forgotten k0) eqn:Hf0; [done|].
    rewrite default_delete. destruct (decide (key0 = key)) as [->|Hne];
      [|by rewrite lookup_delete_ne].
    exfalso. pose proof (Hfl _ _ _ _ _ Hp eq_refl Hk0 Hf0) as Hmap0.
    assert (cid0 = cid) as -> by congruence.
    assert (j0 = i) as -> by (by eapply (v_runner_uniq _ Hinv)).
    specialize (Hji eq_refl). subst q0.
    destruct Hjc as [[-> ->]|[[Hne Hj']|(n & Hn & ->)]].
    + match goal with
      | H : doCall_locked _ _ _ = Some (?s1, ?x) |- _ =>
          destruct (after_locked_pc cid goexit sync s1 x) as (_ & _ & Hc & _)
      end.
      simpl in Hc. congruence.
    + apply Hne. by eapply (v_runner_uniq _ Hinv); [done..|eapply pre_lock_runner|].
    + by rewrite lookup_nil in Hn.
Qed.

Lemma inflight_reachable (c : config) : reachable c → inflight_inv c.
Proof.
  apply sf_reachable_inv.
  { intros j q cid key k Hj. simpl in Hj. by rewrite lookup_nil in Hj. }
  intros ev c1 c2 Hr1 IH Hex. pose proof (sf_inv_reachable _ Hr1) as Hinv.
  apply exec_cases in Hex as [(p & Hcall & ->)|(i & p & p' & s' & new & Hp & Hstep & ->)].
  - intros j q cid key k [Hj|[-> ->]]%call_lookup Hq; [by eapply IH|].
    by destruct p.
  - by eapply inflight_step.
Qed.

(** X14. In every state the group reaches, the map holds exactly the calls
    that were not forgotten and whose [doCall] has not reached the critical
    section of its deferred function, each under its key.  A call that is
    over is in the map no more: results are not kept. *)
Theorem map_holds_the_calls_in_flight (c : config) :
  reachable c →
  ∀ key cid,
    default ∅ (m (st c)) !! key = Some cid
    ↔ ∃ j q k, threads c !! j = Some q ∧ pre_lock q = Some (cid, key)
               ∧ calls (st c) !! cid = Some k ∧ forgotten k = false.
Proof.
  intros Hr key cid. pose proof (sf_inv_reachable _ Hr) as Hinv. split.
  - intros Hm. destruct (v_map _ Hinv _ _ Hm) as (j & q & Hj & Hq).
    destruct (lookup_lt_is_Some_2 (calls (st c)) cid) as [k Hk]; [by eapply map_cid|].
    exists j, q, k. repeat split; try done. by eapply (v_unforgotten _ Hinv).
  - intros (j & q & k & Hj & Hq & Hk & Hf). by eapply (inflight_reachable _ Hr).
Qed.

Lemma map_holds_the_calls_in_flight_witness :
  default ∅ (m (st panic_waiting_config)) !! "k" = Some 0%nat
  ↔ ∃ j q k, threads panic_waiting_config !! j = Some q ∧ pre_lock q = Some (0%nat, "k")
             ∧ calls (st panic_waiting_config) !! 0%nat = Some k ∧ forgotten k = false.
Proof.
  apply (map_holds_the_calls_in_flight panic_waiting_config).
  exists [EvCall (DoCall "k" (Panics (Some "boom") "main.f()")); EvStep 0;
          EvCall (DoCall "k" (Returns None None)); EvStep 1; EvStep 0].
  reflexivity.
Defined.

(** X15. In every state the group reaches, one call at most per key is in
    flight and not forgotten; a caller of [Do] or [DoChan] that arrives for
    that key joins it and does not execute its function; and when every
    call in flight for the key was forgotten, or there is none, a caller of
    [Do] starts a new call and executes its function. *)
Theorem one_execution_in_flight_per_key (c : config) :
  reachable c →
  (∀ i j p q cid1 cid2 key k1 k2,
     threads c !! i = Some p → threads c !! j = Some q →
     pre_lock p = Some (cid1, key) → pre_lock q = Some (cid2, key) →
     calls (st c) !! cid1 = Some k1 → calls (st c) !! cid2 = Some k2 →
     forgotten k1 = false → forgotten k2 = false → i = j)
  ∧ (∀ j q cid key k fn,
       threads c !! j = Some q → pre_lock q = Some (cid, key) →
       calls (st c) !! cid = Some k → forgotten k = false →
       (∃ s', thread_step (DoCall key fn) (st c) = Some (s', DoWait cid, []))
       ∧ (∃ s' ch, thread_step (DoChanCall key fn) (st c)
                   = Some (s', DoChanReturned ch cid true, [])))
  ∧ (∀ key fn,
       (∀ j q cid k, threads c !! j = Some q → pre_lock q = Some (cid, key) →
          calls (st c) !! cid = Some k → forgotten k = true) →
       ∃ s', thread_step (DoCall key fn) (st c)
             = Some (s', Running (length (calls (st c))) key fn true, [])).
Proof.
  intros Hr. pose proof (sf_inv_reachable _ Hr) as Hinv.
  pose proof (inflight_reachable _ Hr) as Hfl. split; [|split].
  - intros i j p q cid1 cid2 key k1 k2 Hi Hj Hp Hq Hk1 Hk2 Hf1 Hf2.
    pose proof (Hfl _ _ _ _ _ Hi Hp Hk1 Hf1) as Hm1.
    pose proof (Hfl _ _ _ _ _ Hj Hq Hk2 Hf2) as Hm2.
    assert (cid1 = cid2) as -> by congruence.
    eapply (v_runner_uniq _ Hinv); eauto using pre_lock_runner.
  - intros j q cid key k fn Hj Hq Hk Hf.
    pose proof (Hfl _ _ _ _ _ Hj Hq Hk Hf) as Hm. split.
    + simpl. unfold Do_enter. rewrite Hm. by eexists.
    + simpl. unfold DoChan_enter. rewrite Hm. by eexists _, _.
  - intros key fn Hall. simpl. unfold Do_enter.
    destruct (default ∅ (m (st c)) !! key) as [cid|] eqn:Hm; [exfalso|by eexists].
    destruct (v_map _ Hinv _ _ Hm) as (j & q & Hj & Hq).
    destruct (lookup_lt_is_Some_2 (calls (st c)) cid) as [k Hk]; [by eapply map_cid|].
    pose proof (v_unforgotten _ Hinv _ _ _ Hm Hk) as Hf.
    pose proof (Hall _ _ _ _ Hj Hq Hk). congruence.
Qed.

Lemma one_execution_in_flight_per_key_witness :
  ∃ s', thread_step (DoCall "k" (Returns None None)) (st panic_waiting_config)
        = Some (s', DoWait 0, []).
Proof.
  assert (Hr : reachable panic_waiting_config).
  { exists [EvCall (DoCall "k" (Panics (Some "boom") "main.f()")); EvStep 0;
            EvCall (DoCall "k" (Returns None None)); EvStep 1; EvStep 0].
    reflexivity. }
  exact (proj1 (proj1 (proj2 (one_execution_in_flight_per_key panic_waiting_config Hr))
                  0%nat _ 0%nat "k" _ (Returns None None) eq_refl eq_refl eq_refl eq_refl)).
Defined.

(** *** [newPanicError] and [Forget] *)

Lemma after_newline_app (hdr rest : string) :
  after_newline hdr = None →
  after_newline (hdr +:+ String (Ascii.ascii_of_nat 10) rest) = Some rest.
Proof.
  induction hdr as [|a hdr IH]; simpl; [done|].
  destruct (Ascii.eqb a (Ascii.ascii_of_nat 10)); [done|]. apply IH.
Qed.

(** X16. [newPanicError] drops the first line of the stack trace, up to and
    with the first newline, keeps the value, and leaves a trace with no
    newline as it is; what it makes is a [panicError]. *)
Theorem newPanicError_drops_the_first_line (v : value) (hdr rest : string) :
  after_newline hdr = None →
  newPanicError v (hdr +:+ String (Ascii.ascii_of_nat 10) rest) = panicError v rest
  ∧ newPanicError v hdr = panicError v hdr
  ∧ as_panicError (Some (newPanicError v hdr)) = Some (newPanicError v hdr).
Proof.
  intros Hh. unfold newPanicError. rewrite after_newline_app, Hh by done. done.
Qed.

Lemma newPanicError_drops_the_first_line_witness :
  newPanicError "boom" ("goroutine 7 [running]:" +:+ String (Ascii.ascii_of_nat 10) "main.f()")
  = panicError "boom" "main.f()".
Proof.
  exact (proj1 (newPanicError_drops_the_first_line "boom" "goroutine 7 [running]:"
                  "main.f()" eq_refl)).
Defined.

(** X17. [Forget key] done twice is [Forget key] done once; it leaves the
    other keys of the map, the channels and the stored results alone, does
    not allocate the map, and changes no field of a call but the flag
    [forgotten] of the call the map held for [key]. *)
Theorem Forget_touches_one_key_only (s : state) (key : string) :
  Forget key (Forget key s) = Forget key s
  ∧ (∀ key', key' ≠ key →
       default ∅ (m (Forget key s)) !! key' = default ∅ (m s) !! key')
  ∧ (m s = None → m (Forget key s) = None)
  ∧ chan_heap (Forget key s) = chan_heap s
  ∧ crashed (Forget key s) = crashed s
  ∧ length (calls (Forget key s)) = length (calls s)
  ∧ (∀ cid k', calls (Forget key s) !! cid = Some k' →
       ∃ k, calls s !! cid = Some k ∧ wg k' = wg k ∧ val k' = val k ∧ err k' = err k
            ∧ dups k' = dups k ∧ chans k' = chans k
            ∧ (forgotten k' = forgotten k ∨ default ∅ (m s) !! key = Some cid)).
Proof.
  split; [|split; [|split; [|split; [|split; [|split]]]]].
  - unfold Forget at 1 3. simpl. rewrite default_delete, lookup_delete_eq.
    unfold Forget. simpl. f_equal. destruct (m s); simpl; [|done].
    f_equal. apply delete_delete_eq.
  - intros key' Hne. unfold Forget. simpl. by rewrite default_delete, lookup_delete_ne.
  - intros Hm. unfold Forget. simpl. by rewrite Hm.
  - done.
  - done.
  - unfold Forget. simpl. destruct (default ∅ (m s) !! key); by rewrite ?length_alter.
  - intros cid k' Hk'. unfold Forget in Hk'. simpl in Hk'.
    destruct (default ∅ (m s) !! key) as [cid0|] eqn:Hm.
    + apply lookup_alter_cases in Hk' as [[Hne Hk]|[-> (k & Hk & ->)]].
      * exists k'. repeat split; auto.
      * exists k. repeat split; auto.
    + exists k'. repeat split; auto.
Qed.

(** *** Delivery on the channels of [DoChan] *)

Lemma send_spec (r : Result) (ch : nat) (h h' : list (option Result)) :
  send r ch h = Some h' →
  h !! ch = Some None ∧ h' !! ch = Some (Some r)
  ∧ ∀ ch', ch' ≠ ch → h' !! ch' = h !! ch'.
Proof.
  unfold send. destruct (h !! ch) as [[x0|]|] eqn:Hch; try done. intros [= <-].
  split; [done|]. split.
  - apply list_lookup_insert_eq. by eapply lookup_lt_Some.
  - intros ch' Hne. by rewrite list_lookup_insert_ne.
Qed.

Lemma send_all_spec (r : Result) (chs : list nat) (h h' : list (option Result)) :
  send_all r chs h = Some h' →
  (∀ ch, ch ∈ chs → h' !! ch = Some (Some r))
  ∧ (∀ ch, ch ∉ chs → h' !! ch = h !! ch)
  ∧ (∀ ch x, h !! ch = Some (Some x) → h' !! ch = Some (Some x)).
Proof.
  revert h; induction chs as [|ch0 chs IH]; intros h Hs; simpl in Hs.
  - simplify_eq. repeat split; try done. intros ch Hch. by apply elem_of_nil in Hch.
  - destruct (send r ch0 h) as [h1|] eqn:H1; [|done]. simpl in Hs.
    destruct (send_spec _ _ _ _ H1) as (Hnone & Hsent & Hother).
    destruct (IH _ Hs) as (Hin & Hout & Hkeep). repeat split.
    + intros ch [->|Hch]%elem_of_cons; [by eapply Hkeep | by apply Hin].
    + intros ch Hch. apply not_elem_of_cons in Hch as [Hne Hch].
      rewrite Hout by done. by apply Hother.
    + intros ch x Hx. apply Hkeep. rewrite Hother; [done|]. intros ->. congruence.
Qed.


(** The channels registered on a call after a step were registered on it
    before, but for the channel the step made. *)
Lemma tstep_chans_shape (s s' : state) (p p' : pc) (new : list pc) (cid : nat) (k' : call) :
  tstep s p s' p' new → calls s' !! cid = Some k' →
  (∃ k, calls s !! cid = Some k ∧ chans k' = chans k)
  ∨ (∃ k, calls s !! cid = Some k ∧ chans k' = chans k ++ [length (chan_heap s)]
          ∧ chan_heap s' = chan_heap s ++ [None])
  ∨ (cid = length (calls s) ∧ chans k' = [])
  ∨ (cid = length (calls s) ∧ chans k' = [length (chan_heap s)]
     ∧ chan_heap s' = chan_heap s ++ [None]).
Proof.
  destruct 1; simpl; intros Hk.
  - apply lookup_alter_cases in Hk as [[Hne Hk]|[-> (k & Hk & ->)]]; left; eauto.
  - apply lookup_app_Some in Hk as [Hk|[Hlen Hk]]; [left; eauto|].
    apply list_lookup_singleton_Some in Hk as [Hz <-].
    right. right. left. split; [lia|done].
  - left. eauto.
  - apply lookup_alter_cases in Hk as [[Hne Hk]|[-> (k & Hk & ->)]]; [left; eauto|].
    right. left. exists k. done.
  - apply lookup_app_Some in Hk as [Hk|[Hlen Hk]]; [left; eauto|].
    apply list_lookup_singleton_Some in Hk as [Hz <-].
    right. right. right. split; [lia|done].
  - unfold Forget in Hk. simpl in Hk.
    destruct (default ∅ (m s) !! key) as [cid0|] eqn:Hm; [|left; eauto].
    apply lookup_alter_cases in Hk as [[Hne Hk]|[-> (k & Hk & ->)]]; left; eauto.
  - destruct (decide (cid0 = cid)) as [->|Hne].
    + rewrite list_lookup_insert_eq in Hk by (by eapply lookup_lt_Some).
      simplify_eq. left. exists k. split; [done|]. apply doCall_run_fields.
    + rewrite list_lookup_insert_ne in Hk by done. left. eauto.
  - destruct (doCall_locked_effect _ _ _ _ _ H) as (k & _ & Hc & _).
    destruct (after_locked_state cid0 goexit sync s1 x) as (_ & Hc' & _).
    simpl in Hc'. rewrite Hc', Hc in Hk. left. eauto.
  - left. eauto.
Qed.

(** A step leaves the channels as they are, makes one, or sends the stored
    result of a call on the channels of that call. *)
Lemma tstep_heap (s s' : state) (p p' : pc) (new : list pc) :
  tstep s p s' p' new →
  chan_heap s' = chan_heap s ∨ chan_heap s' = chan_heap s ++ [None]
  ∨ ∃ cid key goexit sync k, p = Deferred cid key goexit sync ∧ calls s !! cid = Some k
      ∧ send_all (mkResult (val k) (err k) (0 <? dups k)) (chans k) (chan_heap s)
        = Some (chan_heap s').
Proof.
  destruct 1; simpl; auto.
  destruct (doCall_locked_effect _ _ _ _ _ H) as (k & Hk & _ & _ & Hx).
  destruct (after_locked_state cid goexit sync s1 x) as (_ & _ & Hh & _).
  simpl in Hh. rewrite Hh. destruct x as [|e|e].
  - destruct Hx as (_ & _ & [[_ Hh']|[_ Hs]]); [by left|].
    right. right. by exists cid, key, goexit, sync, k.
  - destruct Hx as (_ & _ & _ & Hh'). by left.
  - destruct Hx as (_ & _ & _ & Hh'). by left.
Qed.

Lemma heap_keep_some (s s' : state) (p p' : pc) (new : list pc) (ch : nat) (r : Result) :
  tstep s p s' p' new → chan_heap s !! ch = Some (Some r) →
  chan_heap s' !! ch = Some (Some r).
Proof.
  intros Hstep Hch.
  destruct (tstep_heap _ _ _ _ _ Hstep)
    as [->|[->|(cid & key & goexit & sync & k & _ & _ & Hs)]].
  - done.
  - by apply lookup_app_l_Some.
  - by eapply send_all_spec.
Qed.

Lemma heap_keep_none (s s' : state) (p p' : pc) (new : list pc) (ch : nat) :
  tstep s p s' p' new → chan_heap s !! ch = Some None →
  chan_heap s' !! ch = Some None
  ∨ ∃ cid key goexit sync k, p = Deferred cid key goexit sync ∧ calls s !! cid = Some k
                             ∧ ch ∈ chans k.
Proof.
  intros Hstep Hch.
  destruct (tstep_heap _ _ _ _ _ Hstep)
    as [->|[->|(cid & key & goexit & sync & k & -> & Hk & Hs)]].
  - by left.
  - left. by apply lookup_app_l_Some.
  - destruct (decide (ch ∈ chans k)) as [Hin|Hout].
    + right. by exists cid, key, goexit, sync, k.
    + left. destruct (send_all_spec _ _ _ _ Hs) as (_ & Hout' & _). by rewrite Hout'.
Qed.

Lemma tstep_runner_fwd (s s' : state) (p p' : pc) (new : list pc) (cid : nat) :
  tstep s p s' p' new → runner_of p = Some cid → runner_of p' = Some cid.
Proof.
  destruct 1; simpl; intros Hr; simplify_eq; try done.
  by destruct (after_locked_pc cid goexit sync s1 x) as (_ & Hc & _).
Qed.

(** A step allocates one call at most, and the call it allocates has its
    goroutine. *)
Lemma tstep_grow (s s' : state) (p p' : pc) (new : list pc) :
  tstep s p s' p' new →
  length (calls s') = length (calls s)
  ∨ (length (calls s') = S (length (calls s))
     ∧ (runner_of p' = Some (length (calls s))
        ∨ ∃ q, new = [q] ∧ runner_of q = Some (length (calls s)))).
Proof.
  destruct 1; simpl; rewrite ?length_alter, ?length_app, ?length_insert; simpl; auto.
  - right. split; [lia|]. by left.
  - right. split; [lia|]. right. by eexists.
  - left. unfold Forget. simpl. destruct (default ∅ (m s) !! key); by rewrite ?length_alter.
  - left. destruct (doCall_locked_effect _ _ _ _ _ H) as (k & _ & Hc & _).
    destruct (after_locked_state cid goexit sync s1 x) as (_ & Hc' & _).
    simpl in Hc'. by rewrite Hc', Hc.
Qed.

Lemma pre_lock_not_running (q : pc) : pre_lock q = None → is_running q = false.
Proof. by destruct q. Qed.

Lemma deliv_step (c : config) (i : nat) (p p' : pc) (s' : state) (new : list pc) :
  inv c → ch_inv (st c) → deliv_inv c →
  threads c !! i = Some p → tstep (st c) p s' p' new →
  deliv_inv (mkConfig s' (<[i := p']> (threads c) ++ new)).
Proof.
  intros Hinv Hch [Hrun Hnd Hemp Hsent Hcaller] Hp Hstep.
  pose proof (step_lookup c i p p' s' new Hp) as Hlk.
  pose proof (step_self c i p p' s' new Hp) as Hself.
  pose proof (step_other c i p' s' new) as Hother.
  pose proof (step_new c i p' s' new) as Hnew.
  assert (Hlt : ∀ cid k, calls (st c) !! cid = Some k → cid ≠ length (calls (st c))).
  { intros cid k Hk%lookup_lt_Some. lia. }
  (* a goroutine before the critical section was there before the step *)
  assert (Hpre : ∀ j q cid key k, threads (mkConfig s' (<[i := p']> (threads c) ++ new)) !! j
                                  = Some q →
            pre_lock q = Some (cid, key) → calls (st c) !! cid = Some k →
            ∃ q0, threads c !! j = Some q0 ∧ pre_lock q0 = Some (cid, key)
                  ∧ (j = i → q = p')).
  { intros j q cid key k Hj Hq Hk.
    apply Hlk in Hj as [[-> ->]|[[Hne Hj]|(n & Hn & ->)]].
    - destruct (tstep_pre_lock _ _ _ _ _ _ _ Hstep Hq) as [Hpre|[-> _]].
      + by exists p.
      + by destruct (Hlt _ _ Hk).
    - by exists q.
    - destruct (tstep_new _ _ _ _ _ _ _ Hstep Hn) as (_ & _ & _ & _ & key0 & fn & -> & _).
      simpl in Hq. simplify_eq. by destruct (Hlt _ _ Hk). }
  split; simpl.
  - (* every call has its goroutine *)
    intros cid Hcid. destruct (decide (cid < length (calls (st c)))%nat) as [Hold|Hnewc].
    + destruct (Hrun cid Hold) as (j & q & Hj & Hq).
      destruct (decide (j = i)) as [->|Hne].
      * simplify_eq. exists i, p'. split; [done|]. by eapply tstep_runner_fwd.
      * exists j, q. split; [by apply Hother | done].
    + destruct (tstep_grow _ _ _ _ _ Hstep) as [Hlen|[Hlen [Hr|(q & -> & Hr)]]].
      * lia.
      * exists i, p'. split; [done|]. rewrite Hr. f_equal. lia.
      * exists (length (threads c) + 0)%nat, q. split; [by apply Hnew|].
        rewrite Hr. f_equal. lia.
  - (* no channel is registered twice *)
    intros cid k' Hk'.
    destruct (tstep_chans_shape _ _ _ _ _ _ _ Hstep Hk')
      as [(k & Hk & ->)|[(k & Hk & -> & _)|[[_ ->]|(_ & -> & _)]]].
    + by eapply Hnd.
    + apply NoDup_app. split; [by eapply Hnd|]. split; [|apply NoDup_singleton].
      intros ch Hin ->%list_elem_of_singleton.
      pose proof (ci_fresh _ Hch _ _ _ Hk Hin). lia.
    + constructor.
    + apply NoDup_singleton.
  - (* the channels of a call in flight are empty *)
    intros j q cid key k' ch Hj Hq Hk' Hin.
    assert (Hold : ∀ k, calls (st c) !! cid = Some k → ch ∈ chans k →
                        chan_heap (st c) !! ch = Some None
                        ∧ (chan_heap s' !! ch = Some None
                           ∨ ∃ goexit sync, p = Deferred cid key goexit sync ∧ j = i ∧ q = p')).
    { intros k Hk Hink. destruct (Hpre _ _ _ _ _ Hj Hq Hk) as (q0 & Hj0 & Hq0 & Hji).
      pose proof (Hemp _ _ _ _ _ _ Hj0 Hq0 Hk Hink) as Hnone. split; [done|].
      destruct (heap_keep_none _ _ _ _ _ _ Hstep Hnone)
        as [?|(cid0 & key0 & goexit & sync & k0 & -> & Hk0 & Hin0)]; [by left|].
      right. assert (cid0 = cid) as -> by (by eapply (ci_uniq _ Hch)).
      assert (j = i) as ->.
      { eapply (v_runner_uniq _ Hinv); [done..|by eapply pre_lock_runner|done]. }
      simplify_eq/=. exists goexit, sync. auto. }
    assert (Hbad : ∀ goexit sync, p = Deferred cid key goexit sync → q = p' → False).
    { intros goexit sync -> ->. inversion Hstep; subst.
      match goal with
      | H : doCall_locked _ _ _ = Some (?s1, ?x) |- _ =>
          destruct (after_locked_pc cid goexit sync s1 x) as (_ & _ & Hc & _)
      end.
      simpl in Hc. congruence. }
    destruct (tstep_chans_shape _ _ _ _ _ _ _ Hstep Hk')
      as [(k & Hk & Heq)|[(k & Hk & Heq & Hh)|[[_ Heq]|(_ & Heq & Hh)]]];
      rewrite Heq in Hin.
    + destruct (Hold _ Hk Hin) as [_ [?|(goexit & sync & Hpd & _ & Hqp)]]; [done|].
      by destruct (Hbad _ _ Hpd Hqp).
    + rewrite Hh. apply elem_of_app in Hin as [Hin| ->%list_elem_of_singleton].
      * destruct (Hold _ Hk Hin) as [Hnone _]. by apply lookup_app_l_Some.
      * by rewrite lookup_app_r, Nat.sub_diag.
    + by apply elem_of_nil in Hin.
    + apply list_elem_of_singleton in Hin as ->. rewrite Hh.
      by rewrite lookup_app_r, Nat.sub_diag.
  - (* the channels of a call that is over hold the result *)
    intros j q cid k' ch Hj Hq Hpl Hk' Hpe Hge Hin.
    apply Hlk in Hj as [[-> ->]|[[Hne Hj]|(n & Hn & ->)]].
    + clear Hlk Hself Hother Hnew Hpre.
      inversion Hstep; subst; simpl in *; try done.
      * match goal with
        | H : doCall_locked ?cid0 ?key0 _ = Some (?s1, ?x) |- _ =>
            destruct (doCall_locked_effect _ _ _ _ _ H) as (k & Hk & Hc & _ & Hx);
            destruct (after_locked_state cid0 goexit sync s1 x) as (_ & Hc' & Hh' & _);
            destruct (after_locked_pc cid0 goexit sync s1 x) as (_ & Hr' & _)
        end.
        simpl in Hc', Hh', Hr'. rewrite Hr' in Hq. simplify_eq.
        rewrite Hc', Hc in Hk'. simplify_eq. rewrite Hh'.
        destruct x as [|e|e].
        -- destruct Hx as (_ & _ & [[Hg _]|[_ Hs]]); [done|].
           destruct (send_all_spec _ _ _ _ Hs) as (Hall & _). by apply Hall.
        -- destruct Hx as (Hpe' & _). congruence.
        -- destruct Hx as (Hpe' & _). congruence.
      * simplify_eq. by eapply (Hsent i (DoReturning cid)).
    + assert (Hc0 : (cid < length (calls (st c)))%nat).
      { eapply (v_cid _ Hinv); [done|]. by apply runner_pc_cid. }
      destruct (lookup_lt_is_Some_2 _ _ Hc0) as [k Hk].
      pose proof (v_wg _ Hinv _ _ _ _ Hj Hq Hk) as Hw.
      rewrite (pre_lock_not_running _ Hpl) in Hw.
      destruct (step_post_lock_stable c i p p' s' new Hinv Hp Hstep _ _ _ _ _ Hj Hq Hpl Hk Hk')
        as [Hd Hc].
      destruct (step_done_stable c i p p' s' new Hinv Hp Hstep _ _ Hk Hw)
        as (k'' & Hk'' & _ & Hv & He).
      assert (k'' = k') as -> by congruence.
      rewrite Hv, He, Hd. eapply heap_keep_some; [done|].
      eapply Hsent; eauto; congruence.
    + destruct (tstep_new _ _ _ _ _ _ _ Hstep Hn) as (_ & _ & _ & _ & key0 & fn & -> & _).
      done.
  - (* a caller of DoChan holds a channel of its call *)
    intros j ch cid joined Hj.
    apply Hlk in Hj as [[-> Heq]|[[Hne Hj]|(n & Hn & ->)]].
    + clear Hlk Hself Hother Hnew Hpre.
      inversion Hstep; subst; simpl in *; try done.
      * simplify_eq.
        destruct (lookup_lt_is_Some_2 (calls (st c)) cid) as [k Hk]; [by eapply map_cid|].
        eexists. rewrite list_lookup_alter_eq, Hk. simpl. split; [done|]. simpl.
        apply elem_of_app. right. left.
      * simplify_eq. eexists. rewrite lookup_app_r, Nat.sub_diag by lia.
        split; [done|]. simpl. left.
      * match goal with
        | H : doCall_locked ?cid0 ?key0 _ = Some (?s1, ?x) |- _ =>
            destruct (after_locked_pc cid0 goexit sync s1 x) as (_ & Hr' & _)
        end.
        simpl in Hr'.
        match goal with
        | H : (after_locked _ _ _ _ _).2 = _ |- _ => rewrite H in Hr'
        | H : _ = (after_locked _ _ _ _ _).2 |- _ => rewrite <- H in Hr'
        end.
        done.
    + destruct (Hcaller _ _ _ _ Hj) as (k & Hk & Hin).
      destruct (tstep_calls_fwd _ _ _ _ _ cid Hstep) as [k' Hk']; [by eexists|].
      exists k'. split; [done|].
      destruct (tstep_chans_shape _ _ _ _ _ _ _ Hstep Hk')
        as [(k0 & Hk0 & ->)|[(k0 & Hk0 & -> & _)|[[-> _]|(-> & _)]]].
      * by simplify_eq.
      * simplify_eq. apply elem_of_app. by left.
      * by destruct (Hlt _ _ Hk).
      * by destruct (Hlt _ _ Hk).
    + destruct (tstep_new _ _ _ _ _ _ _ Hstep Hn) as (_ & _ & _ & _ & key0 & fn & Hq & _).
      done.
Qed.

Lemma deliv_reachable (c : config) : reachable c → deliv_inv c.
Proof.
  apply sf_reachable_inv.
  { split; simpl; intros; try (by rewrite ?lookup_nil in *); lia. }
  intros ev c1 c2 Hr1 IH Hex. pose proof (sf_inv_reachable _ Hr1) as Hinv.
  pose proof (ch_inv_reachable _ Hr1) as Hch.
  apply exec_cases in Hex as [(p & Hcall & ->)|(i & p & p' & s' & new & Hp & Hstep & ->)];
    [|by eapply deliv_step].
  destruct IH as [Hrun Hnd Hemp Hsent Hcaller].
  assert (Hp : runner_of p = None ∧ pre_lock p = None
               ∧ ∀ ch cid joined, p ≠ DoChanReturned ch cid joined) by (by destruct p).
  destruct Hp as (Hp1 & Hp2 & Hp3). split; simpl.
  - intros cid Hcid. destruct (Hrun cid Hcid) as (j & q & Hj & Hq).
    exists j, q. split; [by apply lookup_app_l_Some | done].
  - done.
  - intros j q cid key k ch [Hj|[-> ->]]%call_lookup Hq; [by eapply Hemp | congruence].
  - intros j q cid k ch [Hj|[-> ->]]%call_lookup Hq; [by eapply Hsent | congruence].
  - intros j ch cid joined [Hj|[-> Heq]]%call_lookup; [by eapply Hcaller|].
    by destruct (Hp3 ch cid joined).
Qed.

(** X18. In every state the group reaches: the channel a caller of [DoChan]
    got is registered on its call; it is empty while the goroutine of the
    call has not reached the critical section of the deferred function, and
    once that goroutine is past it, and the stored error is neither a
    recorded panic nor [errGoexit], the channel holds the stored value and
    error with [Shared = (dups > 0)].  A channel never holds anything but
    that result of the call it is registered on. *)
Theorem DoChan_channel_holds_exactly_the_result (c : config) :
  reachable c →
  (∀ j ch cid joined, threads c !! j = Some (DoChanReturned ch cid joined) →
     ∃ k i q, calls (st c) !! cid = Some k ∧ ch ∈ chans k
       ∧ threads c !! i = Some q ∧ runner_of q = Some cid
       ∧ (is_Some (pre_lock q) → chan_heap (st c) !! ch = Some None)
       ∧ (pre_lock q = None → as_panicError (err k) = None → err k ≠ Some errGoexit →
            chan_heap (st c) !! ch
            = Some (Some (mkResult (val k) (err k) (0 <? dups k)))))
  ∧ (∀ ch r, chan_heap (st c) !! ch = Some (Some r) →
       ∃ cid k, calls (st c) !! cid = Some k ∧ ch ∈ chans k ∧ wg k = 0%nat
                ∧ r = mkResult (val k) (err k) (0 <? dups k)).
Proof.
  intros Hr. pose proof (deliv_reachable _ Hr) as Hd.
  pose proof (ch_inv_reachable _ Hr) as Hch. split.
  - intros j ch cid joined Hj. destruct (d_caller _ Hd _ _ _ _ Hj) as (k & Hk & Hin).
    destruct (d_runner _ Hd cid) as (i & q & Hi & Hq); [by eapply lookup_lt_Some|].
    exists k, i, q. repeat split; try done.
    + intros [[cid' key] Hpl]. pose proof (pre_lock_runner _ _ _ Hpl) as Hr'.
      assert (cid' = cid) as -> by congruence. by eapply (d_empty _ Hd).
    + intros Hpl Hpe Hge. by eapply (d_sent _ Hd).
  - intros ch r Hx.
    destruct (ci_sent _ Hch _ _ Hx) as (cid & k & Hk & Hin & Hw & _ & _ & Hpe & Hge).
    exists cid, k. repeat split; try done.
    destruct (d_runner _ Hd cid) as (i & q & Hi & Hq); [by eapply lookup_lt_Some|].
    destruct (pre_lock q) as [[cid' key]|] eqn:Hpl.
    + pose proof (pre_lock_runner _ _ _ Hpl) as Hr'.
      assert (cid' = cid) as -> by congruence.
      pose proof (d_empty _ Hd _ _ _ _ _ _ Hi Hpl Hk Hin). congruence.
    + pose proof (d_sent _ Hd _ _ _ _ _ Hi Hq Hpl Hk Hpe Hge Hin). congruence.
Qed.

Lemma DoChan_channel_holds_exactly_the_result_witness :
  ∃ cid k, calls (mkState (Some ∅) [mkCall 0 (Some "bar") None false 0 [0%nat]]
                    [Some (mkResult (Some "bar") None false)] None) !! cid = Some k
           ∧ 0%nat ∈ chans k ∧ wg k = 0%nat
           ∧ mkResult (Some "bar") None false = mkResult (val k) (err k) (0 <? dups k).
Proof.
  refine (proj2 (DoChan_channel_holds_exactly_the_result
    (mkConfig (mkState (Some ∅) [mkCall 0 (Some "bar") None false 0 [0%nat]]
                 [Some (mkResult (Some "bar") None false)] None)
       [DoChanReturned 0 0 false; Finished 0 false]) _) 0%nat _ eq_refl).
  exists [EvCall (DoChanCall "k" (Returns (Some "bar") None)); EvStep 0; EvStep 1; EvStep 1].
  reflexivity.
Defined.



(** *** The goroutine that executes the function *)









(** *** Panics that nobody can recover *)

Lemma as_panicError_Some (x : option error) (e : error) :
  as_panicError x = Some e → x = Some e ∧ ∃ v stack, e = panicError v stack.
Proof. destruct x as [[]|]; simpl; intros; simplify_eq; eauto. Qed.

Lemma tstep_async (s s' : state) (p p' : pc) (new : list pc) (cid : nat) :
  tstep s p s' p' new → async_of p' = Some cid → async_of p = Some cid.
Proof.
  destruct 1; simpl; intros Hr; simplify_eq; try done.
  by destruct x, goexit, sync.
Qed.

(** The deferred function alone sets [crashed]: by [go panic(e)] when a
    channel is registered on the call, or by letting the panic end a
    goroutine that [DoChan] started. *)
Lemma tstep_crash_shape (s s' : state) (p p' : pc) (new : list pc) :
  tstep s p s' p' new →
  (crashed s' = crashed s ∧ ∀ cid e, p' ≠ Died cid e)
  ∨ ∃ cid key goexit sync k e, p = Deferred cid key goexit sync ∧ calls s !! cid = Some k
      ∧ as_panicError (err k) = Some e ∧ crashed s' = Some e
      ∧ ((p' = Parked cid e ∧ chans k ≠ []) ∨ (p' = Died cid e ∧ chans k = [] ∧ sync = false)).
Proof.
  destruct 1; simpl; try (by left).
  destruct (doCall_locked_effect _ _ _ _ _ H) as (k & Hk & _ & _ & Hx).
  destruct x as [|e|e].
  - destruct Hx as (_ & Hcr & _). left. by destruct goexit, sync.
  - destruct Hx as (Hpe & Hch & Hcr & _). destruct sync; simpl.
    + by left.
    + right. exists cid, key, goexit, false, k, e. repeat split; auto.
  - destruct Hx as (Hpe & Hch & Hcr & _). right.
    exists cid, key, goexit, sync, k, e. repeat split; auto.
Qed.

Lemma crash_step (c : config) (i : nat) (p p' : pc) (s' : state) (new : list pc) :
  inv c → crash_inv c → threads c !! i = Some p → tstep (st c) p s' p' new →
  crash_inv (mkConfig s' (<[i := p']> (threads c) ++ new)).
Proof.
  intros Hinv [Hasync Hdied Hcrashed] Hp Hstep.
  pose proof (step_lookup c i p p' s' new Hp) as Hlk.
  pose proof (step_self c i p p' s' new Hp) as Hself.
  pose proof (step_other c i p' s' new) as Hother.
  assert (Hfwd : ∀ cid k, calls (st c) !! cid = Some k → chans k ≠ [] →
                   ∃ k', calls s' !! cid = Some k' ∧ chans k' ≠ []).
  { intros cid k Hk Hne.
    destruct (tstep_calls_fwd _ _ _ _ _ cid Hstep) as [k' Hk']; [by eexists|].
    exists k'. split; [done|]. pose proof (lookup_lt_Some _ _ _ Hk) as Hlt.
    destruct (tstep_chans_shape _ _ _ _ _ _ _ Hstep Hk')
      as [(k0 & Hk0 & ->)|[(k0 & Hk0 & -> & _)|[[-> _]|(-> & _)]]]; try lia.
    - by simplify_eq.
    - by destruct (chans k0). }
  assert (Hnodie : ∀ cid e, p' ≠ Died cid e).
  { intros cid e ->.
    destruct (tstep_crash_shape _ _ _ _ _ Hstep)
      as [[_ Hnd]|(cid0 & key & goexit & sync & k & e0 & -> & Hk & _ & _ & [[? _]|(_ & Hch & ->)])];
      [by eapply Hnd|done|].
    destruct (Hasync _ _ cid0 Hp eq_refl) as (k1 & Hk1 & Hne). by simplify_eq. }
  split; simpl.
  - intros j q cid Hj Hq. apply Hlk in Hj as [[-> ->]|[[Hne Hj]|(n & Hn & ->)]].
    + destruct (Hasync _ _ _ Hp (tstep_async _ _ _ _ _ _ Hstep Hq)) as (k & Hk & Hne).
      by eapply Hfwd.
    + destruct (Hasync _ _ _ Hj Hq) as (k & Hk & Hne'). by eapply Hfwd.
    + destruct (tstep_new _ _ _ _ _ _ _ Hstep Hn) as (_ & _ & _ & _ & key & fn & -> & _ & Hc).
      simpl in Hq. simplify_eq. eexists. rewrite Hc.
      rewrite lookup_app_r, Nat.sub_diag by lia. split; [done|]. done.
  - intros j cid e Hj. apply Hlk in Hj as [[-> <-]|[[Hne Hj]|(n & Hn & ->)]].
    + by eapply Hnodie.
    + by eapply Hdied.
    + by destruct (tstep_new _ _ _ _ _ _ _ Hstep Hn) as (_ & _ & _ & _ & key & fn & ? & _).
  - intros e He.
    destruct (tstep_crash_shape _ _ _ _ _ Hstep)
      as [[Hsame _]|(cid0 & key & goexit & sync & k & e0 & -> & Hk & _ & Hcr & [[-> _]|(-> & _)])].
    + rewrite Hsame in He. destruct (Hcrashed _ He) as (j & cid & Hj).
      exists j, cid. apply Hother; [|done]. intros ->. simplify_eq. inversion Hstep.
    + exists i, cid0. assert (e0 = e) as -> by congruence. exact Hself.
    + by destruct (Hnodie cid0 e0).
Qed.

Lemma crash_reachable (c : config) : reachable c → crash_inv c.
Proof.
  apply sf_reachable_inv.
  { split; simpl; intros; by rewrite ?lookup_nil in *. }
  intros ev c1 c2 Hr1 IH Hex. pose proof (sf_inv_reachable _ Hr1) as Hinv.
  apply exec_cases in Hex as [(p & Hcall & ->)|(i & p & p' & s' & new & Hp & Hstep & ->)];
    [|by eapply crash_step].
  destruct IH as [Hasync Hdied Hcrashed]. split; simpl.
  - intros j q cid [Hj|[-> ->]]%call_lookup Hq; [by eapply Hasync | by destruct p].
  - intros j cid e [Hj|[-> Heq]]%call_lookup; [by eapply Hdied | by subst p].
  - intros e He. destruct (Hcrashed _ He) as (j & cid & Hj).
    exists j, cid. by apply lookup_app_l_Some.
Qed.

(** X22. In every state the group reaches: if a panic that nobody can
    recover was raised, a goroutine is parked in [select {}] with the
    stored error of its call, a recorded panic, and a channel is registered
    on that call; no goroutine started by [DoChan] ever dies of a panic
    itself, since the call it runs always has a channel registered. *)
Theorem crash_comes_from_go_panic_only (c : config) :
  reachable c →
  (∀ e, crashed (st c) = Some e →
     ∃ j cid k v stack, threads c !! j = Some (Parked cid e)
       ∧ calls (st c) !! cid = Some k ∧ err k = Some e ∧ e = panicError v stack
       ∧ chans k ≠ [])
  ∧ (∀ j cid e, threads c !! j ≠ Some (Died cid e))
  ∧ (∀ j cid key fn, threads c !! j = Some (Running cid key fn false) →
       ∃ k, calls (st c) !! cid = Some k ∧ chans k ≠ []).
Proof.
  intros Hr. pose proof (sf_inv_reachable _ Hr) as Hinv.
  pose proof (crash_reachable _ Hr) as [Hasync Hdied Hcrashed].
  split; [|split; [done|]].
  - intros e He. destruct (Hcrashed _ He) as (j & cid & Hj).
    destruct (v_done _ Hinv _ _ Hj) as (k & Hk & Hpe & Hch & _).
    destruct (as_panicError_Some _ _ Hpe) as (Herr & v & stack & ->).
    by exists j, cid, k, v, stack.
  - intros j cid key fn Hj. by eapply Hasync.
Qed.

Lemma crash_comes_from_go_panic_only_witness :
  ∃ j cid k v stack,
    [Parked 0 (panicError "boom" "main.f()"); DoChanReturned 0 0 true] !! j
    = Some (Parked cid (panicError "boom" "main.f()"))
    ∧ [mkCall 0 None (Some (panicError "boom" "main.f()")) false 1 [0%nat]] !! cid = Some k
    ∧ err k = Some (panicError "boom" "main.f()")
    ∧ panicError "boom" "main.f()" = panicError v stack
    ∧ chans k ≠ [].
Proof.
  refine (proj1 (crash_comes_from_go_panic_only
    (mkConfig (mkState (Some ∅)
                 [mkCall 0 None (Some (panicError "boom" "main.f()")) false 1 [0%nat]]
                 [None] (Some (panicError "boom" "main.f()")))
       [Parked 0 (panicError "boom" "main.f()"); DoChanReturned 0 0 true]) _) _ eq_refl).
  exists panic_demo. reflexivity.
Defined.

End SingleFlight.
